(** * ARCOR2 action-graph / script compiler: a shallow embedding

    The development follows [generate_source.py] (object-type inspector,
    script emitter, script recoverer) and [arcor2/helpers.py] (identifier
    conversion).  Python strings are modelled as [string] (ASCII), lists as
    [list], the action dictionary as a [gmap] keyed by action id, the set of
    seen action ids as a [gset], and exceptions as values of [exn] carried by
    a [result].  The syntax trees of [typed_ast] are modelled by the
    inductive types [expr] and [stmt].  The external parser and renderer
    ([horast.parse], [horast.unparse], [autopep8]) are not part of the
    repository and are not modelled: the emitter is followed up to the tree
    that it hands to [tree_to_str], the recoverer from the tree that [parse]
    returns.  No statement assumes that the rendered text is read back as the
    tree it was rendered from; where the two are composed, the tree that is
    read back is a premise. *)

From Stdlib Require Import Ascii String List Arith Bool Lia.
From stdpp Require Import base option list strings gmap.
Import ListNotations.

Local Open Scope string_scope.
Local Open Scope list_scope.

Set Warnings "-register-all".

(** ** Exceptions and results *)

Inductive exn : Type :=
| GenerateSourceException (msg : string)
| KeyError
| IndexError
| ValueError
| AttributeError
| TypeError
| AssertionError.

Inductive result (A : Type) : Type :=
| Ok (a : A)
| Raise (e : exn).

Arguments Ok {A} a.
Arguments Raise {A} e.

Definition bind {A B : Type} (r : result A) (k : A -> result B) : result B :=
  match r with
  | Ok a => k a
  | Raise e => Raise e
  end.

Notation "'let*' x ':=' r 'in' k" := (bind r (fun x => k))
  (at level 10, x pattern, r at level 100, k at level 200).

Definition is_ok {A : Type} (r : result A) : bool :=
  match r with Ok _ => true | Raise _ => false end.

(** ** Strings ([arcor2/helpers.py]) *)

Module Helpers.

Definition in_range (lo hi : nat) (c : ascii) : bool :=
  Nat.leb lo (nat_of_ascii c) && Nat.leb (nat_of_ascii c) hi.

(** The character classes [[A-Z]], [[a-z]] and [[0-9]]. *)
Definition is_upper : ascii -> bool := in_range 65 90.
Definition is_lower : ascii -> bool := in_range 97 122.
Definition is_digit : ascii -> bool := in_range 48 57.

(** [.] matches every character but a newline. *)
Definition is_dot (c : ascii) : bool := negb (Nat.eqb (nat_of_ascii c) 10).

(** [_first_cap_re.sub(r'\1_\2', s)] with
    [_first_cap_re = re.compile('(.)([A-Z][a-z]+)')]: matches are found left
    to right and do not overlap; the flag says that the scan is inside the
    greedy [[a-z]+] tail of a match. *)
Fixpoint first_cap_re_sub (in_match : bool) (s : string) : string :=
  match s with
  | EmptyString => EmptyString
  | String c rest =>
      if in_match && is_lower c then String c (first_cap_re_sub true rest)
      else
        match rest with
        | String u (String l rest') =>
            if is_dot c && is_upper u && is_lower l
            then String c (String "_" (String u (String l (first_cap_re_sub true rest'))))
            else String c (first_cap_re_sub false rest)
        | _ => String c (first_cap_re_sub false rest)
        end
  end.

(** [_all_cap_re.sub(r'\1_\2', s)] with
    [_all_cap_re = re.compile('([a-z0-9])([A-Z])')]. *)
Fixpoint all_cap_re_sub (s : string) : string :=
  match s with
  | EmptyString => EmptyString
  | String c rest =>
      match rest with
      | String u rest' =>
          if (is_lower c || is_digit c) && is_upper u
          then String c (String "_" (String u (all_cap_re_sub rest')))
          else String c (all_cap_re_sub rest)
      | EmptyString => String c EmptyString
      end
  end.

Definition lower_char (c : ascii) : ascii :=
  if is_upper c then ascii_of_nat (nat_of_ascii c + 32) else c.

(** [str.lower()] on ASCII text: the letters [A] to [Z] are lowered, every
    other character is kept.  (On other text Python follows the Unicode case
    mapping, which is not modelled.) *)
Fixpoint lower (s : string) : string :=
  match s with
  | EmptyString => EmptyString
  | String c rest => String (lower_char c) (lower rest)
  end.

(** [camel_case_to_snake_case], helpers.py lines 56-59. *)
Definition camel_case_to_snake_case (camel_str : string) : string :=
  let s1 := first_cap_re_sub false camel_str in
  lower (all_cap_re_sub s1).

(** [generate_source.py] imports [convert_cc] from [arcor2.helpers]; the
    helpers module has this conversion under the name
    [camel_case_to_snake_case]. *)
Definition convert_cc (name : string) : string := camel_case_to_snake_case name.

(** [str.replace(old, new)] for one-character [old] and [new]. *)
Fixpoint replace (old new : ascii) (s : string) : string :=
  match s with
  | EmptyString => EmptyString
  | String c rest =>
      String (if Ascii.eqb c old then new else c) (replace old new rest)
  end.

(** [c in s] *)
Fixpoint contains (c : ascii) (s : string) : bool :=
  match s with
  | EmptyString => false
  | String d rest => Ascii.eqb d c || contains c rest
  end.

(** [str.split(sep)] for a one-character separator: one more piece than
    there are separators. *)
Fixpoint split (sep : ascii) (s : string) : list string :=
  match s with
  | EmptyString => [EmptyString]
  | String c rest =>
      if Ascii.eqb c sep then EmptyString :: split sep rest
      else
        match split sep rest with
        | piece :: pieces => String c piece :: pieces
        | [] => [String c EmptyString]
        end
  end.

End Helpers.

Import Helpers.

(** ** Syntax trees ([typed_ast.ast3])

    Only the node kinds and fields that the program reads or builds are
    represented; every other statement or expression is [OtherStmt] or
    [OtherExpr], which has none of the attributes the program asks for.  A
    statement of another kind that has a body ([for], [with], [try],
    [async def]) is an [OtherStmt] too, and its body is not represented: the
    visitors that walk the whole tree are followed exactly on the trees
    without [OtherStmt]. *)

Module Ast.

(** The constants [True], [False] and [None] of a [NameConstant]. *)
Inductive constant : Type := CTrue | CFalse | CNone.

Inductive expr : Type :=
| Name (id : string)
| Attribute (value : expr) (attr : string)
| Call (func : expr) (args : list expr) (keywords : list keyword)
| Str (s : string)
| Bytes (s : string)
| NameConstant (value : constant)
| Subscript (value : expr) (slice : expr)
| Compare (left : expr) (comparators : list expr)
| OtherExpr
with keyword : Type :=
| Keyword (arg : option string) (value : expr).

(** [arg(arg=..., annotation=...)] *)
Inductive arg : Type :=
| Arg (arg : string) (annotation : option expr).

(** [alias(name=..., asname=...)] *)
Inductive alias : Type :=
| Alias (name : string) (asname : option string).

(** For a [FunctionDef], [args] stands for [node.args.args], the only part of
    its [arguments] that the program reads. *)
Inductive stmt : Type :=
| FunctionDef (name : string) (args : list arg) (body : list stmt)
    (decorator_list : list expr) (returns : option expr)
| ClassDef (name : string) (bases : list expr) (body : list stmt)
    (decorator_list : list expr)
| While (test : expr) (body : list stmt) (orelse : list stmt)
| If (test : expr) (body : list stmt) (orelse : list stmt)
| ImportFrom (module : string) (names : list alias) (level : nat)
| Assign (targets : list expr) (value : expr)
| AnnAssign (target : expr) (annotation : expr) (value : expr)
| Expr (value : expr)
| Pass
| OtherStmt.

(** [Module(body=...)] *)
Inductive module : Type :=
| Module (body : list stmt).

Definition module_body (m : module) : list stmt :=
  match m with Module body => body end.

(** Attribute reads.  A node that lacks the attribute raises
    [AttributeError], as [getattr] does. *)

(** [e.id] *)
Definition get_id (e : expr) : result string :=
  match e with
  | Name id => Ok id
  | _ => Raise AttributeError
  end.

(** [e.attr] *)
Definition get_attr (e : expr) : result string :=
  match e with
  | Attribute _ attr => Ok attr
  | _ => Raise AttributeError
  end.

(** [e.func] *)
Definition get_func (e : expr) : result expr :=
  match e with
  | Call func _ _ => Ok func
  | _ => Raise AttributeError
  end.

(** [e.keywords] *)
Definition get_keywords (e : expr) : result (list keyword) :=
  match e with
  | Call _ _ keywords => Ok keywords
  | _ => Raise AttributeError
  end.

(** A Python value read from a [value] field: a constant or a node. *)
Inductive pyvalue : Type :=
| VConst (c : constant)
| VNode (e : expr).

(** [e.value], for the expression nodes that have a [value] field. *)
Definition get_value (e : expr) : result pyvalue :=
  match e with
  | Attribute value _ => Ok (VNode value)
  | Subscript value _ => Ok (VNode value)
  | NameConstant c => Ok (VConst c)
  | _ => Raise AttributeError
  end.

(** An attribute read on a value that may be a constant: constants have
    none of the node attributes. *)
Definition on_node {A : Type} (f : expr -> result A) (v : pyvalue) : result A :=
  match v with
  | VNode e => f e
  | VConst _ => Raise AttributeError
  end.

Definition kw_arg (k : keyword) : option string :=
  match k with Keyword a _ => a end.

Definition kw_value (k : keyword) : expr :=
  match k with Keyword _ v => v end.

Definition isinstance_ClassDef (node : stmt) : bool :=
  match node with ClassDef _ _ _ _ => true | _ => false end.

Definition isinstance_FunctionDef (node : stmt) : bool :=
  match node with FunctionDef _ _ _ _ _ => true | _ => false end.

Definition isinstance_While (node : stmt) : bool :=
  match node with While _ _ _ => true | _ => false end.

Definition isinstance_ImportFrom (node : stmt) : bool :=
  match node with ImportFrom _ _ _ => true | _ => false end.

End Ast.

Import Ast.

(** ** Object-type inspector *)

Module Inspector.

(** Modelled from the spec: the data classes of [arcor2.data] are not among
    the sources.  [ActionMetadata] carries the four capability flags of the
    data model (free-standing, blocking, composite, blackbox), all [False] by
    default; a flag holds whatever value the inspector assigns to it. *)
Record ActionMetadata : Type := {
  free : pyvalue;
  blocking : pyvalue;
  composite : pyvalue;
  blackbox : pyvalue
}.

Definition ActionMetadata_default : ActionMetadata :=
  {| free := VConst CFalse; blocking := VConst CFalse;
     composite := VConst CFalse; blackbox := VConst CFalse |}.

(** Modelled from the spec: [ObjectActionArgs {name, type}]. *)
Record ObjectActionArgs : Type := {
  arg_name : string;
  arg_type : string
}.

(** Modelled from the spec: [ObjectAction] has a name, its metadata and the
    ordered list of its arguments. *)
Record ObjectAction : Type := {
  action_name : string;
  meta : ActionMetadata;
  action_args : list ObjectActionArgs
}.

(** Modelled from the spec: [setattr(meta, name, value)] on an
    [ActionMetadata]; an unknown flag name is an [AttributeError] (section 4.2:
    unknown flag names are a hard error), and a name that is not a string is
    a [TypeError]. *)
Definition setattr (m : ActionMetadata) (name : option string) (v : pyvalue)
  : result ActionMetadata :=
  match name with
  | None => Raise TypeError
  | Some n =>
      if String.eqb n "free" then
        Ok {| free := v; blocking := blocking m; composite := composite m; blackbox := blackbox m |}
      else if String.eqb n "blocking" then
        Ok {| free := free m; blocking := v; composite := composite m; blackbox := blackbox m |}
      else if String.eqb n "composite" then
        Ok {| free := free m; blocking := blocking m; composite := v; blackbox := blackbox m |}
      else if String.eqb n "blackbox" then
        Ok {| free := free m; blocking := blocking m; composite := composite m; blackbox := v |}
      else Raise AttributeError
  end.

(** [object_cls_def], lines 127-144: the loop over [tree.body] with its
    variable [cls_def]; the end of the list is the [else] of the [for]. *)
Fixpoint object_cls_def_loop (cls_def : option stmt) (body : list stmt) : result stmt :=
  match body with
  | [] => Raise (GenerateSourceException "No class definition!")
  | node :: rest =>
      if isinstance_ClassDef node then
        match cls_def with
        | None => Ok node (* cls_def = node; break; return cls_def *)
        | Some _ => Raise (GenerateSourceException "Multiple class definition!")
        end
      else object_cls_def_loop cls_def rest
  end.

Definition object_cls_def (tree : module) : result stmt :=
  object_cls_def_loop None (module_body tree).

(** [tree.body] of the class definition. *)
Definition cls_body (cls : stmt) : result (list stmt) :=
  match cls with
  | ClassDef _ _ body _ => Ok body
  | _ => Raise AttributeError
  end.

(** Lines 53-57: the keywords of [ActionMetadata(...)]; an [AttributeError]
    inside the [try] becomes a [GenerateSourceException]. *)
Fixpoint set_flags (m : ActionMetadata) (kws : list keyword) : result ActionMetadata :=
  match kws with
  | [] => Ok m
  | kwarg :: rest =>
      let unknown :=
        GenerateSourceException
          ("Unknown __action__ attribute " ++ default "None" (kw_arg kwarg) ++ ".") in
      match get_value (kw_value kwarg) with
      | Raise AttributeError => Raise unknown
      | Raise e => Raise e
      | Ok v =>
          match setattr m (kw_arg kwarg) v with
          | Raise AttributeError => Raise unknown
          | Raise e => Raise e
          | Ok m' => set_flags m' rest
          end
      end
  end.

(** Lines 37-58: the first loop, which fills [action_attr]. *)
Definition action_attr_step (action_attr : gmap string ActionMetadata) (node : stmt)
  : result (gmap string ActionMetadata) :=
  match node with
  | Assign [Attribute target_value attr] value =>
      if negb (String.eqb attr "__action__") then Ok action_attr
      else
        let* kws := get_keywords value in
        let* m := set_flags ActionMetadata_default kws in
        let* name := get_id target_value in
        Ok (<[name := m]> action_attr)
  | _ => Ok action_attr
  end.

Fixpoint action_attr_loop (action_attr : gmap string ActionMetadata) (body : list stmt)
  : result (gmap string ActionMetadata) :=
  match body with
  | [] => Ok action_attr
  | node :: rest =>
      let* action_attr' := action_attr_step action_attr node in
      action_attr_loop action_attr' rest
  end.

(** Lines 67-69: [for decorator in node.decorator_list: if decorator.id ==
    "action": break]; [true] when the loop was left by [break]. *)
Fixpoint decorator_loop (decorator_list : list expr) : result bool :=
  match decorator_list with
  | [] => Ok false
  | decorator :: rest =>
      let* i := get_id decorator in
      if String.eqb i "action" then Ok true else decorator_loop rest
  end.

(** Lines 80-88: the arguments of one action method. *)
Fixpoint action_args_loop (method_name : string) (acc : list ObjectActionArgs)
  (args : list arg) : result (list ObjectActionArgs) :=
  match args with
  | [] => Ok acc
  | Arg a annotation :: rest =>
      if String.eqb a "self" then action_args_loop method_name acc rest
      else
        match annotation with
        | None =>
            Raise (GenerateSourceException
                     ("Argument " ++ a ++ " of method " ++ method_name ++ " not annotated."))
        | Some ann =>
            let* ty := get_id ann in
            action_args_loop method_name (acc ++ [{| arg_name := a; arg_type := ty |}]) rest
        end
  end.

(** Lines 62-90: one turn of the second loop. *)
Definition method_step (action_attr : gmap string ActionMetadata)
  (ret : list ObjectAction) (node : stmt) : result (list ObjectAction) :=
  match node with
  | FunctionDef name args _ decorator_list _ =>
      let* marked := decorator_loop decorator_list in
      if negb marked then
        match action_attr !! name with
        | Some _ =>
            Raise (GenerateSourceException
                     ("Method " ++ name ++ " has metadata, but no @action decorator."))
        | None => Ok ret
        end
      else
        match action_attr !! name with
        | None =>
            Raise (GenerateSourceException
                     ("Method " ++ name ++ " has @action decorator, but no metadata."))
        | Some m =>
            let* oa_args := action_args_loop name [] args in
            Ok (ret ++ [{| action_name := name; meta := m; action_args := oa_args |}])
        end
  | _ => Ok ret
  end.

Fixpoint methods_loop (action_attr : gmap string ActionMetadata)
  (ret : list ObjectAction) (body : list stmt) : result (list ObjectAction) :=
  match body with
  | [] => Ok ret
  | node :: rest =>
      let* ret' := method_step action_attr ret node in
      methods_loop action_attr ret' rest
  end.

(** [get_object_actions], lines 30-92, on the parsed source. *)
Definition get_object_actions (object_source : module) : result (list ObjectAction) :=
  let* tree := object_cls_def object_source in
  let* body := cls_body tree in
  let* action_attr := action_attr_loop ∅ body in
  methods_loop action_attr [] body.

End Inspector.

Import Inspector.

(** ** Graph model *)

Module Data.

(** Modelled from the spec: [ActionIO] of [arcor2.data] is not among the
    sources.  A link endpoint is either one of the two sentinels [FIRST] and
    [LAST] or a reference to another action's id (section 3); the argument of
    [ActionRef] is what the code reads as [.default]. *)
Inductive ActionIO : Type :=
| FIRST
| LAST
| ActionRef (default : string).

(** Modelled from the spec: [Action] has an [id], a [type] of the form
    [<object-id>/<method-name>] and the ordered lists [inputs] and
    [outputs].  [act_id] and [act_type] stand for the fields [id] and
    [type]. *)
Record Action : Type := {
  act_id : string;
  act_type : string;
  inputs : list ActionIO;
  outputs : list ActionIO
}.

(** Modelled from the spec: a [Project] has an id, its actions and the names
    of its declared parameters. *)
Record Project : Type := {
  project_id : string;
  actions : list Action;
  parameters : list string
}.

(** Modelled from the spec: a scene object instance [{id, type}], here
    [obj_id] and [obj_type]. *)
Record SceneObject : Type := {
  obj_id : string;
  obj_type : string
}.

Record Scene : Type := {
  objects : list SceneObject
}.

Definition set_inputs (a : Action) (l : list ActionIO) : Action :=
  {| act_id := act_id a; act_type := act_type a; inputs := l; outputs := outputs a |}.

Definition set_outputs (a : Action) (l : list ActionIO) : Action :=
  {| act_id := act_id a; act_type := act_type a; inputs := inputs a; outputs := l |}.

(** [act.inputs and act.inputs[0] is FIRST] *)
Definition starts_with (io : ActionIO) (l : list ActionIO) : bool :=
  match l, io with
  | FIRST :: _, FIRST => true
  | LAST :: _, LAST => true
  | _, _ => false
  end.

Definition is_first (a : Action) : bool := starts_with FIRST (inputs a).
Definition is_last (a : Action) : bool := starts_with LAST (outputs a).

(** Modelled from the spec: [get_actions_cache] of [arcor2.helpers] is not
    among the sources.  It returns the action cache, a mapping from id to
    [Action] populated from the project (section 4.4), the id of the action
    with [inputs[0] == FIRST] and the id of the action with
    [outputs[0] == LAST], each [None] when the project has no such action
    (section 4.3, step 4).  For a project in which several actions qualify
    the spec gives no rule (its section 8 asks that such a graph be rejected
    and names no place where that is done); the definition keeps the last
    one met, and no statement below is about such a project. *)
Fixpoint get_actions_cache_loop (acts : list Action)
  (acc : gmap string Action * option string * option string)
  : gmap string Action * option string * option string :=
  match acts with
  | [] => acc
  | act :: rest =>
      let '(actions_cache, first_action_id, last_action_id) := acc in
      get_actions_cache_loop rest
        (<[act_id act := act]> actions_cache,
         if is_first act then Some (act_id act) else first_action_id,
         if is_last act then Some (act_id act) else last_action_id)
  end.

Definition get_actions_cache (project : Project)
  : gmap string Action * option string * option string :=
  get_actions_cache_loop (actions project) (∅, None, None).

(** [actions_cache[key]] where [key] is the [.default] of a link: a sentinel
    is never an action id. *)
Definition cache_get (actions_cache : gmap string Action) (key : ActionIO) : result Action :=
  match key with
  | ActionRef i =>
      match actions_cache !! i with
      | Some a => Ok a
      | None => Raise KeyError
      end
  | _ => Raise KeyError
  end.

End Data.

Import Data.

(** ** Tree utilities *)

Module Tree.

(** A reference into a tree that is mutated in place is a node together
    with the way to put a replacement of it back into the tree. *)
Definition node_ref : Type := stmt * (stmt -> module).

(** Python's [list.insert(i, x)]. *)
Definition list_insert_at {A : Type} (i : nat) (x : A) (l : list A) : list A :=
  take i l ++ x :: drop i l.

(** [find_function], lines 358-378.  [FindFunction.visit]: a function
    definition of the wanted name is recorded and not entered; any other
    function definition is entered only while nothing is recorded; a class
    definition, a [while] and an [if] are entered by [generic_visit].  The
    visitor also enters the bodies of the statements that [stmt] does not
    represent ([for], [with], [try], [async def]); an [OtherStmt] is passed
    by here, so the visit is exact on the trees without [OtherStmt]
    ([represented], below), and the same holds of the other visitors of this
    module. *)
Fixpoint FindFunction_visit (name : string) (node : stmt) (put : stmt -> module)
  (function_node : option node_ref) {struct node} : option node_ref :=
  match node with
  | FunctionDef n args body decs ret =>
      if String.eqb n name then Some (node, put)
      else
        match function_node with
        | Some _ => function_node
        | None =>
            (fix visit_list (seen todo : list stmt) (fn : option node_ref)
               {struct todo} : option node_ref :=
               match todo with
               | [] => fn
               | child :: rest =>
                   visit_list (seen ++ [child]) rest
                     (FindFunction_visit name child
                        (fun child' => put (FunctionDef n args (seen ++ child' :: rest) decs ret))
                        fn)
               end) [] body function_node
        end
  | ClassDef n bases body decs =>
      (fix visit_list (seen todo : list stmt) (fn : option node_ref)
         {struct todo} : option node_ref :=
         match todo with
         | [] => fn
         | child :: rest =>
             visit_list (seen ++ [child]) rest
               (FindFunction_visit name child
                  (fun child' => put (ClassDef n bases (seen ++ child' :: rest) decs))
                  fn)
         end) [] body function_node
  | While test body orelse =>
      let fn1 :=
        (fix visit_list (seen todo : list stmt) (fn : option node_ref)
           {struct todo} : option node_ref :=
           match todo with
           | [] => fn
           | child :: rest =>
               visit_list (seen ++ [child]) rest
                 (FindFunction_visit name child
                    (fun child' => put (While test (seen ++ child' :: rest) orelse))
                    fn)
           end) [] body function_node in
      (fix visit_list (seen todo : list stmt) (fn : option node_ref)
         {struct todo} : option node_ref :=
         match todo with
         | [] => fn
         | child :: rest =>
             visit_list (seen ++ [child]) rest
               (FindFunction_visit name child
                  (fun child' => put (While test body (seen ++ child' :: rest)))
                  fn)
         end) [] orelse fn1
  | If test body orelse =>
      let fn1 :=
        (fix visit_list (seen todo : list stmt) (fn : option node_ref)
           {struct todo} : option node_ref :=
           match todo with
           | [] => fn
           | child :: rest =>
               visit_list (seen ++ [child]) rest
                 (FindFunction_visit name child
                    (fun child' => put (If test (seen ++ child' :: rest) orelse))
                    fn)
           end) [] body function_node in
      (fix visit_list (seen todo : list stmt) (fn : option node_ref)
         {struct todo} : option node_ref :=
         match todo with
         | [] => fn
         | child :: rest =>
             visit_list (seen ++ [child]) rest
               (FindFunction_visit name child
                  (fun child' => put (If test body (seen ++ child' :: rest)))
                  fn)
         end) [] orelse fn1
  | _ => function_node
  end.

(** [generic_visit] of the module: its body, statement by statement. *)
Fixpoint FindFunction_visit_body (name : string) (seen todo : list stmt)
  (fn : option node_ref) {struct todo} : option node_ref :=
  match todo with
  | [] => fn
  | child :: rest =>
      FindFunction_visit_body name (seen ++ [child]) rest
        (FindFunction_visit name child
           (fun child' => Module (seen ++ child' :: rest)) fn)
  end.

Definition find_function (name : string) (tree : module) : result node_ref :=
  match FindFunction_visit_body name [] (module_body tree) None with
  | None => Raise (GenerateSourceException ("Function " ++ name ++ " not found."))
  | Some r => Ok r
  end.

(** [node.body] of a function definition, with the way to put a new body
    back. *)
Definition function_body (r : node_ref) : result (list stmt * (list stmt -> module)) :=
  match r with
  | (FunctionDef n args body decs ret, put) =>
      Ok (body, fun body' => put (FunctionDef n args body' decs ret))
  | _ => Raise AttributeError
  end.

(** [main_loop_body], lines 314-322: the body of the first [While] of
    [main], as a reference. *)
Fixpoint first_while (seen todo : list stmt) (put : list stmt -> module)
  : result (list stmt * (list stmt -> module)) :=
  match todo with
  | [] => Raise (GenerateSourceException "Main loop not found.")
  | node :: rest =>
      match node with
      | While test body orelse =>
          Ok (body, fun body' => put (seen ++ While test body' orelse :: rest))
      | _ => first_while (seen ++ [node]) rest put
      end
  end.

Definition main_loop_body (tree : module) : result (list stmt * (list stmt -> module)) :=
  let* main := find_function "main" tree in
  let* (body, put) := function_body main in
  first_while [] body put.

Definition alias_name (a : alias) : string :=
  match a with Alias name _ => name end.

(** [add_import], lines 381-430.  [AddImportTransformer.visit] with its
    flag [done]: every [ImportFrom] of the module, at any depth, gets the
    class name unless it lists it already. *)
Fixpoint AddImportTransformer_visit (module_name cls : string) (node : stmt)
  (done : bool) {struct node} : stmt * bool :=
  match node with
  | ImportFrom m names level =>
      if String.eqb m module_name then
        if existsb (fun aliass => String.eqb (alias_name aliass) cls) names
        then (node, true)
        else (ImportFrom m (names ++ [Alias cls None]) level, true)
      else (node, done)
  | FunctionDef n args body decs ret =>
      let '(body', done') :=
        (fix visit_list (todo : list stmt) (d : bool) {struct todo} : list stmt * bool :=
           match todo with
           | [] => ([], d)
           | child :: rest =>
               let '(child', d1) := AddImportTransformer_visit module_name cls child d in
               let '(rest', d2) := visit_list rest d1 in
               (child' :: rest', d2)
           end) body done in
      (FunctionDef n args body' decs ret, done')
  | ClassDef n bases body decs =>
      let '(body', done') :=
        (fix visit_list (todo : list stmt) (d : bool) {struct todo} : list stmt * bool :=
           match todo with
           | [] => ([], d)
           | child :: rest =>
               let '(child', d1) := AddImportTransformer_visit module_name cls child d in
               let '(rest', d2) := visit_list rest d1 in
               (child' :: rest', d2)
           end) body done in
      (ClassDef n bases body' decs, done')
  | While test body orelse =>
      let visit_list :=
        (fix visit_list (todo : list stmt) (d : bool) {struct todo} : list stmt * bool :=
           match todo with
           | [] => ([], d)
           | child :: rest =>
               let '(child', d1) := AddImportTransformer_visit module_name cls child d in
               let '(rest', d2) := visit_list rest d1 in
               (child' :: rest', d2)
           end) in
      let '(body', d1) := visit_list body done in
      let '(orelse', d2) := visit_list orelse d1 in
      (While test body' orelse', d2)
  | If test body orelse =>
      let visit_list :=
        (fix visit_list (todo : list stmt) (d : bool) {struct todo} : list stmt * bool :=
           match todo with
           | [] => ([], d)
           | child :: rest =>
               let '(child', d1) := AddImportTransformer_visit module_name cls child d in
               let '(rest', d2) := visit_list rest d1 in
               (child' :: rest', d2)
           end) in
      let '(body', d1) := visit_list body done in
      let '(orelse', d2) := visit_list orelse d1 in
      (If test body' orelse', d2)
  | _ => (node, done)
  end.

Fixpoint AddImportTransformer_visit_body (module_name cls : string) (todo : list stmt)
  (done : bool) {struct todo} : list stmt * bool :=
  match todo with
  | [] => ([], done)
  | child :: rest =>
      let '(child', d1) := AddImportTransformer_visit module_name cls child done in
      let '(rest', d2) := AddImportTransformer_visit_body module_name cls rest d1 in
      (child' :: rest', d2)
  end.

(** The program calls [add_import] with [try_to_import=False] only, so the
    import check of lines 414-424 is left out. *)
Definition add_import (node : module) (module_name cls : string) : module :=
  let '(body, done) :=
    AddImportTransformer_visit_body module_name cls (module_body node) false in
  if done then Module body
  else Module (list_insert_at 0 (ImportFrom module_name [Alias cls None] 0) body).

(** [add_cls_inst], lines 433-508, for the call with three arguments,
    [add_cls_inst(node, cls, name)], as the program makes it: [kwargs] and
    [kwargs2parse] are [None], so lines 482-488 (among them [parse(v)]) are
    not run and the keywords are empty.  [FindImport.visit]: is the class
    imported anywhere. *)
Fixpoint FindImport_visit (cls : string) (node : stmt) (found : bool) {struct node} : bool :=
  match node with
  | ImportFrom _ names _ =>
      fold_left (fun f node_alias =>
                   if String.eqb (alias_name node_alias) cls then true else f)
                names found
  | FunctionDef _ _ body _ _ =>
      fold_left (fun f child => FindImport_visit cls child f) body found
  | ClassDef _ _ body _ =>
      fold_left (fun f child => FindImport_visit cls child f) body found
  | While _ body orelse =>
      fold_left (fun f child => FindImport_visit cls child f) orelse
        (fold_left (fun f child => FindImport_visit cls child f) body found)
  | If _ body orelse =>
      fold_left (fun f child => FindImport_visit cls child f) orelse
        (fold_left (fun f child => FindImport_visit cls child f) body found)
  | _ => found
  end.

(** Lines 460-469: the statements of [main]. *)
Fixpoint FindClsInst_items (cls name : string) (items : list stmt) (found : bool)
  : result bool :=
  match items with
  | [] => Ok found
  | item :: rest =>
      match item with
      | Assign targets value =>
          let* target := match targets with
                         | [] => Raise IndexError
                         | t :: _ => Ok t
                         end in
          let* i := get_id target in
          if String.eqb i name then
            let* f := get_func value in
            let* fid := get_id f in
            if negb (String.eqb fid cls) then
              Raise (GenerateSourceException
                       ("Name '" ++ name ++ "' already used for instance of '" ++ fid ++ "'!"))
            else FindClsInst_items cls name rest true
          else FindClsInst_items cls name rest found
      | _ => FindClsInst_items cls name rest found
      end
  end.

Fixpoint FindClsInst_visit (cls name : string) (node : stmt) (found : bool)
  {struct node} : result bool :=
  match node with
  | FunctionDef n _ body _ _ =>
      let* found1 := if String.eqb n "main"
                     then FindClsInst_items cls name body found
                     else Ok found in
      if found1 then Ok found1
      else
        (fix visit_list (todo : list stmt) (f : bool) {struct todo} : result bool :=
           match todo with
           | [] => Ok f
           | child :: rest =>
               let* f1 := FindClsInst_visit cls name child f in visit_list rest f1
           end) body found1
  | ClassDef _ _ body _ =>
      (fix visit_list (todo : list stmt) (f : bool) {struct todo} : result bool :=
         match todo with
         | [] => Ok f
         | child :: rest =>
             let* f1 := FindClsInst_visit cls name child f in visit_list rest f1
         end) body found
  | While _ body orelse =>
      let visit_list :=
        (fix visit_list (todo : list stmt) (f : bool) {struct todo} : result bool :=
           match todo with
           | [] => Ok f
           | child :: rest =>
               let* f1 := FindClsInst_visit cls name child f in visit_list rest f1
           end) in
      let* f1 := visit_list body found in visit_list orelse f1
  | If _ body orelse =>
      let visit_list :=
        (fix visit_list (todo : list stmt) (f : bool) {struct todo} : result bool :=
           match todo with
           | [] => Ok f
           | child :: rest =>
               let* f1 := FindClsInst_visit cls name child f in visit_list rest f1
           end) in
      let* f1 := visit_list body found in visit_list orelse f1
  | _ => Ok found
  end.

Fixpoint FindClsInst_visit_body (cls name : string) (todo : list stmt) (found : bool)
  {struct todo} : result bool :=
  match todo with
  | [] => Ok found
  | child :: rest =>
      let* f1 := FindClsInst_visit cls name child found in
      FindClsInst_visit_body cls name rest f1
  end.

(** [AddClsInst.visit]: the instantiation is put first in every [main]
    that is reached without entering a function definition. *)
Fixpoint AddClsInst_visit (cls name : string) (node : stmt) {struct node} : stmt :=
  match node with
  | FunctionDef n args body decs ret =>
      if String.eqb n "main" then
        FunctionDef n args
          (list_insert_at 0 (Assign [Name name] (Call (Name cls) [] [])) body) decs ret
      else node
  | ClassDef n bases body decs =>
      ClassDef n bases (map (AddClsInst_visit cls name) body) decs
  | While test body orelse =>
      While test (map (AddClsInst_visit cls name) body)
        (map (AddClsInst_visit cls name) orelse)
  | If test body orelse =>
      If test (map (AddClsInst_visit cls name) body)
        (map (AddClsInst_visit cls name) orelse)
  | _ => node
  end.

Definition add_cls_inst (node : module) (cls name : string) : result module :=
  let body := module_body node in
  if negb (fold_left (fun f child => FindImport_visit cls child f) body false) then
    Raise (GenerateSourceException ("Class '" ++ cls ++ "' not imported!"))
  else
    let* found := FindClsInst_visit_body cls name body false in
    if found then Ok node
    else Ok (Module (map (AddClsInst_visit cls name) body)).

(** [append_method_call], lines 511-515. *)
Definition append_method_call (body : list stmt) (instance method : string)
  (args : list expr) (kwargs : list keyword) : list stmt :=
  body ++ [Expr (Call (Attribute (Name instance) method) args kwargs)].

(** [empty_script_tree], lines 325-355. *)
Definition empty_script_tree : module :=
  Module
    [FunctionDef "main" []
       [While (NameConstant CTrue) [Pass] []]
       [] (Some (NameConstant CNone));
     If (Compare (Name "__name__") [Str "__main__"])
       [Expr (Call (Name "main") [] [])]
       []].

End Tree.

Import Tree.

(** ** Script emitter *)

Module Emitter.

(** [fix_object_name], lines 147-149. *)
Definition fix_object_name (object_id : string) : string :=
  replace " " "_" (convert_cc object_id).

(** [ac_obj, ac_type = act.type.split('/')]: unpacking anything but two
    pieces is a [ValueError]. *)
Definition split_type (type : string) : result (string * string) :=
  match split "/" type with
  | [obj; method] => Ok (obj, method)
  | _ => Raise ValueError
  end.

(** Lines 283-289: the index of the last [Assign] or [AnnAssign]. *)
Fixpoint last_assign_idx_loop (body_idx : nat) (main_body : list stmt)
  (last_assign_idx : option nat) : option nat :=
  match main_body with
  | [] => last_assign_idx
  | body_item :: rest =>
      last_assign_idx_loop (S body_idx) rest
        match body_item with
        | Assign _ _ | AnnAssign _ _ _ => Some body_idx
        | _ => last_assign_idx
        end
  end.

(** [object_instance_from_res], lines 278-311. *)
Definition object_instance_from_res (tree : module) (object_id cls_name : string)
  : result module :=
  let* main := find_function "main" tree in
  let* (main_body, put) := function_body main in
  match last_assign_idx_loop 0 main_body None with
  | None => Raise (GenerateSourceException "")
  | Some last_assign_idx =>
      let assign :=
        AnnAssign (Name (fix_object_name object_id)) (Name cls_name)
          (Subscript (Attribute (Name "res") "objects") (Str object_id)) in
      Ok (put (list_insert_at (last_assign_idx + 1) assign main_body))
  end.

(** The call statement of one action, lines 262-270. *)
Definition action_call (loop : list stmt) (act : Action) : result (list stmt) :=
  let* (ac_obj, ac_type) := split_type (act_type act) in
  Ok (append_method_call loop (fix_object_name ac_obj) ac_type []
        [Keyword None (Attribute (Name "res") (act_id act))]).

(** Lines 258-260: a lone [pass] is dropped. *)
Definition clear_pass (loop : list stmt) : list stmt :=
  match loop with
  | [Pass] => []
  | _ => loop
  end.

(** Lines 254-275: the [while True] loop.  Each turn takes one unit of
    fuel; [None] means that the fuel ran out before the loop was left. *)
Fixpoint add_logic_while (fuel : nat) (actions_cache : gmap string Action)
  (last_action_id : string) (next_action_id : ActionIO) (loop : list stmt)
  : option (result (list stmt)) :=
  match fuel with
  | O => None
  | S fuel' =>
      match cache_get actions_cache next_action_id with
      | Raise e => Some (Raise e)
      | Ok act =>
          match action_call (clear_pass loop) act with
          | Raise e => Some (Raise e)
          | Ok loop' =>
              if String.eqb (act_id act) last_action_id then Some (Ok loop')
              else
                match outputs act with
                | [] => Some (Raise IndexError)
                | out :: _ =>
                    add_logic_while fuel' actions_cache last_action_id out loop'
                end
          end
      end
  end.

(** [add_logic_to_loop], lines 240-275. *)
Definition add_logic_to_loop (fuel : nat) (tree : module) (project : Project)
  : option (result module) :=
  match main_loop_body tree with
  | Raise e => Some (Raise e)
  | Ok (loop, put) =>
      let '(actions_cache, first_action_id, last_action_id) := get_actions_cache project in
      match first_action_id with
      | None => Some (Raise (GenerateSourceException "'start' action not found."))
      | Some first_id =>
          match last_action_id with
          | None => Some (Raise (GenerateSourceException "'end' action not found."))
          | Some last_id =>
              match add_logic_while fuel actions_cache last_id (ActionRef first_id) loop with
              | None => None
              | Some (Raise e) => Some (Raise e)
              | Some (Ok loop') => Some (Ok (put loop'))
              end
          end
      end
  end.

(** Lines 160-167: the loop over the objects of the scene. *)
Fixpoint scene_objects_loop (tree : module) (objs : list SceneObject)
  (built_in_objects : gset string) : result module :=
  match objs with
  | [] => Ok tree
  | obj :: rest =>
      let tree1 :=
        if decide (obj_type obj ∈ built_in_objects)
        then add_import tree "arcor2.object_types" (obj_type obj)
        else add_import tree ("object_types." ++ convert_cc (obj_type obj)) (obj_type obj) in
      let* tree2 := object_instance_from_res tree1 (obj_id obj) (obj_type obj) in
      scene_objects_loop tree2 rest built_in_objects
  end.

(** The tree before the logic is added, lines 154-167. *)
Definition script_tree (scene : Scene) (built_in_objects : gset string) : result module :=
  let tree := empty_script_tree in
  let tree := add_import tree "resources" "Resources" in
  let* tree := add_cls_inst tree "Resources" "res" in
  scene_objects_loop tree (objects scene) built_in_objects.

(** [program_src], lines 152-171, up to the tree that line 171 hands to
    [tree_to_str]: the rendering ([unparse], [autopep8]) is outside the
    repository and is not modelled, so the result is that tree and not the
    characters of the text.  [None]: the loop of [add_logic_to_loop] did not
    end within the fuel; [Some (Raise e)]: an exception, and no text. *)
Definition program_src (fuel : nat) (project : Project) (scene : Scene)
  (built_in_objects : gset string) : option (result module) :=
  match script_tree scene built_in_objects with
  | Raise e => Some (Raise e)
  | Ok tree => add_logic_to_loop fuel tree project
  end.

End Emitter.

Import Emitter.

(** ** Script recoverer *)

Module Recoverer.

(** The variables of the loop of [get_logic_from_source]; the cache holds
    the action objects, each under its own key, so changing an object is an
    update at its key. *)
Record walk_state : Type := {
  found_actions : gset string;
  last_action : option Action;
  actions_cache : gmap string Action
}.

(** Lines 194-197: [val.func.value.id], [val.func.attr] and
    [val.keywords[0].value.attr]. *)
Definition call_parts (val : expr) : result (string * string * string) :=
  let* func := get_func val in
  let* func_value := get_value func in
  let* obj_id := on_node get_id func_value in
  let* func2 := get_func val in
  let* method := get_attr func2 in
  let* keywords := get_keywords val in
  let* kw := match keywords with
             | [] => Raise IndexError
             | kw :: _ => Ok kw
             end in
  let* action_id := get_attr (kw_value kw) in
  Ok (obj_id, method, action_id).

Definition add_input (io : ActionIO) (a : Action) : Action :=
  set_inputs a (inputs a ++ [io]).

Definition add_output (io : ActionIO) (a : Action) : Action :=
  set_outputs a (outputs a ++ [io]).

(** [actions_cache[key].outputs.append(io)] *)
Definition append_output (cache : gmap string Action) (key : string) (io : ActionIO)
  : result (gmap string Action) :=
  match cache !! key with
  | None => Raise KeyError
  | Some _ => Ok (alter (add_output io) key cache)
  end.

(** Lines 221-235: the links of the action found under [action_id] are
    rebuilt.  The cache is returned also when an exception is raised. *)
Definition link_action (len_loop node_idx : nat) (action_id : string) (action : Action)
  (last_action : option Action) (cache : gmap string Action)
  : option exn * gmap string Action :=
  (* action.inputs.clear(); action.outputs.clear() *)
  let cache0 := <[action_id := set_outputs (set_inputs action []) []]> cache in
  let close (c : gmap string Action) :=
    if Nat.eqb (S node_idx) len_loop then alter (add_output LAST) action_id c else c in
  match node_idx with
  | O => (None, close (alter (add_input FIRST) action_id cache0))
  | S _ =>
      match last_action with
      | None => (Some AssertionError, cache0)
      | Some last =>
          let cache1 := alter (add_input (ActionRef (act_id last))) action_id cache0 in
          match append_output cache1 (act_id last) (ActionRef (act_id action)) with
          | Raise e => (Some e, cache1)
          | Ok cache2 => (None, close cache2)
          end
      end
  end.

Definition mk_state (found : gset string) (last : option Action)
  (cache : gmap string Action) : walk_state :=
  {| found_actions := found; last_action := last; actions_cache := cache |}.

(** Lines 214-219: the action's type against the object variable and the
    method of the call. *)
Definition corresponds (action : Action) (obj_id method : string) : result unit :=
  let* (at_obj, at_method) := split_type (act_type action) in
  let at_obj := convert_cc at_obj in (* convert obj id into script variable name *)
  if negb (String.eqb at_obj obj_id) || negb (String.eqb at_method method) then
    Raise (GenerateSourceException
             ("Action type " ++ act_type action
              ++ " does not correspond to source, where it is "
              ++ obj_id ++ "/" ++ method ++ "."))
  else Ok tt.

(** Lines 187-237: one turn of the loop.  The state is returned also when
    the turn raises, since what was changed stays changed.  [last_action]
    keeps the action as it was fetched: only its id is read later, and no
    change touches an id. *)
Definition walk_step (len_loop node_idx : nat) (node : stmt) (st : walk_state)
  : option exn * walk_state :=
  match node with
  | Expr val =>
      match call_parts val with
      | Raise _ => (Some (GenerateSourceException "Script has unexpected content."), st)
      | Ok (obj_id, method, action_id) =>
          if decide (action_id ∈ found_actions st) then
            (Some (GenerateSourceException ("Duplicate action: " ++ action_id ++ ".")), st)
          else
            let found := {[action_id]} ∪ found_actions st in
            let st1 := mk_state found (last_action st) (actions_cache st) in
            match actions_cache st !! action_id with
            | None =>
                (Some (GenerateSourceException ("Unknown action " ++ action_id ++ ".")), st1)
            | Some action =>
                match corresponds action obj_id method with
                | Raise e => (Some e, st1)
                | Ok _ =>
                    match link_action len_loop node_idx action_id action
                            (last_action st) (actions_cache st) with
                    | (Some e, cache') => (Some e, mk_state found (last_action st) cache')
                    | (None, cache') => (None, mk_state found (Some action) cache')
                    end
                end
            end
      end
  | _ => (Some (GenerateSourceException "Unexpected content."), st)
  end.

Fixpoint walk (len_loop node_idx : nat) (loop : list stmt) (st : walk_state)
  : option exn * walk_state :=
  match loop with
  | [] => (None, st)
  | node :: rest =>
      match walk_step len_loop node_idx node st with
      | (Some e, st') => (Some e, st')
      | (None, st') => walk len_loop (S node_idx) rest st'
      end
  end.

(** [get_logic_from_source], lines 174-237, from line 178 on:
    [source_code] stands for the tree that [parse] returns at line 176 (a
    text that does not parse raises there, before anything is read or
    changed).  The result is the exception raised, if any, and the action
    cache as the call leaves it. *)
Definition get_logic_from_source (source_code : module) (project : Project)
  : option exn * gmap string Action :=
  let tree := source_code in
  let '(cache, _, _) := get_actions_cache project in
  match main_loop_body tree with
  | Raise e => (Some e, cache)
  | Ok (loop, _) =>
      let '(e, st) :=
        walk (length loop) 0 loop
          {| found_actions := ∅; last_action := None; actions_cache := cache |} in
      (e, actions_cache st)
  end.

End Recoverer.

Import Recoverer.

(** ** Notions used by the statements

    These definitions are not translations of the source: they name the
    situations that the theorems speak about. *)

Module Props.

(** The class body has an assignment [name.__action__ = ...]. *)
Definition has_metadata (body : list stmt) (name : string) : Prop :=
  exists value, In (Assign [Attribute (Name name) "__action__"] value) body.

(** A parameter other than the receiver. *)
Definition non_receiver (a : arg) : bool :=
  match a with Arg n _ => negb (String.eqb n "self") end.

Definition unannotated (a : arg) : bool :=
  match a with Arg _ None => true | _ => false end.

(** The parameter is annotated with a plain type name. *)
Definition named_annotation (a : arg) : bool :=
  match a with Arg _ (Some (Name _)) => true | _ => false end.

Definition has_annotation (a : arg) : bool :=
  match a with Arg _ (Some _) => true | _ => false end.

Definition arg_entry (a : arg) : ObjectActionArgs :=
  match a with
  | Arg n (Some (Name t)) => {| arg_name := n; arg_type := t |}
  | Arg n _ => {| arg_name := n; arg_type := "" |}
  end.

(** The action id that a statement of the loop refers to. *)
Definition statement_id (node : stmt) : option string :=
  match node with
  | Expr val =>
      match call_parts val with
      | Ok (_, _, action_id) => Some action_id
      | Raise _ => None
      end
  | _ => None
  end.

Definition statement_ids (loop : list stmt) : list string :=
  omap statement_id loop.

(** The statement is a call of the expected shape whose action is in the
    cache and whose object and method agree with the action's type. *)
Definition accepted (cache : gmap string Action) (node : stmt) : bool :=
  match node with
  | Expr val =>
      match call_parts val with
      | Ok (obj_id, method, action_id) =>
          match cache !! action_id with
          | Some action => is_ok (corresponds action obj_id method)
          | None => false
          end
      | Raise _ => false
      end
  | _ => false
  end.

(** The links that the walk over the statements with ids [ids] gives to
    the action of statement [j]; [closed] says that the last of them is the
    last statement of the loop. *)
Definition expected_inputs (ids : list string) (j : nat) : list ActionIO :=
  match j with
  | O => [FIRST]
  | S j' =>
      match ids !! j' with
      | Some p => [ActionRef p]
      | None => []
      end
  end.

Definition expected_outputs (ids : list string) (closed : bool) (j : nat) : list ActionIO :=
  match ids !! S j with
  | Some n => [ActionRef n]
  | None => if closed then [LAST] else []
  end.

(** [cache] is [cache0] with the links of the actions [ids] rebuilt and
    every other action untouched. *)
Definition links_rebuilt (ids : list string) (closed : bool)
  (cache0 cache : gmap string Action) : Prop :=
  (forall j i, ids !! j = Some i ->
     exists a, cache0 !! i = Some a /\
       cache !! i = Some (set_outputs (set_inputs a (expected_inputs ids j))
                            (expected_outputs ids closed j)))
  /\ (forall k, k ∉ ids -> cache !! k = cache0 !! k).

(** Every action is stored under its own id. *)
Definition keyed_by_id (cache : gmap string Action) : Prop :=
  forall k a, cache !! k = Some a -> act_id a = k.

(** The call statement that the emitter writes for an action whose type
    splits into [obj] and [method]. *)
Definition call_stmt (obj method action_id : string) : stmt :=
  Expr (Call (Attribute (Name (fix_object_name obj)) method) []
          [Keyword None (Attribute (Name "res") action_id)]).

Definition action_stmt (act : Action) : stmt :=
  match split_type (act_type act) with
  | Ok (obj, method) => call_stmt obj method (act_id act)
  | Raise _ => Pass
  end.

(** [path] is the walk of the emitter: it starts at the action under
    [key], follows [outputs[0]] and ends with the first action whose id is
    [last_action_id]. *)
Fixpoint chain (cache : gmap string Action) (last_action_id : string)
  (key : ActionIO) (path : list Action) : Prop :=
  match path with
  | [] => False
  | act :: rest =>
      cache_get cache key = Ok act /\
      is_ok (split_type (act_type act)) = true /\
      if String.eqb (act_id act) last_action_id then rest = []
      else exists out outs, outputs act = out :: outs /\ chain cache last_action_id out rest
  end.


(** The shape of the tree that [script_tree] builds. *)
Definition simple_assign (node : stmt) : bool :=
  match node with
  | Assign _ _ | AnnAssign _ _ _ => true
  | _ => false
  end.

Definition entry_guard : stmt :=
  If (Compare (Name "__name__") [Str "__main__"])
    [Expr (Call (Name "main") [] [])] [].

Definition main_def (assigns loop : list stmt) : stmt :=
  FunctionDef "main" [] (assigns ++ [While (NameConstant CTrue) loop []])
    [] (Some (NameConstant CNone)).

Definition script (imports assigns loop : list stmt) : module :=
  Module (imports ++ [main_def assigns loop; entry_guard]).

(** What holds of the loop variables of the recoverer after the statements
    with ids [ids], in a loop of [len_loop] statements. *)
Definition walk_inv (len_loop : nat) (cache0 : gmap string Action) (ids : list string)
  (st : walk_state) : Prop :=
  found_actions st = list_to_set ids
  /\ match last ids with
     | None => last_action st = None
     | Some i => exists a, last_action st = Some a /\ act_id a = i
     end
  /\ links_rebuilt ids (Nat.eqb (length ids) len_loop) cache0 (actions_cache st).

(** The invariants of section 3.  Invariant 1: one action starts with
    [FIRST], one ends with [LAST]. *)
Definition invariant1 (project : Project) : Prop :=
  length (List.filter is_first (actions project)) = 1
  /\ length (List.filter is_last (actions project)) = 1.

(** Each action of the path links to the next one by [outputs[0]]. *)
Fixpoint linked (path : list Action) : Prop :=
  match path with
  | [] => True
  | a :: rest =>
      match rest with
      | [] => True
      | b :: _ => head (outputs a) = Some (ActionRef (act_id b)) /\ linked rest
      end
  end.

(** Invariant 2: following [outputs[0]] from the [FIRST]-rooted action
    visits every action once and ends at the [LAST]-marked action; [path] is
    that visit. *)
Definition invariant2 (project : Project) (path : list Action) : Prop :=
  path ≡ₚ actions project
  /\ NoDup (map act_id path)
  /\ (exists a, head path = Some a /\ is_first a = true)
  /\ linked path
  /\ (exists z, last path = Some z /\ is_last z = true).

(** Invariant 3: the object part of every action's type is a scene
    instance whose type has an [ObjectAction] for the method part. *)
Definition invariant3 (project : Project) (scene : Scene)
  (catalog : gmap string (list ObjectAction)) : Prop :=
  Forall (fun act =>
            exists obj method so oas oa,
              split_type (act_type act) = Ok (obj, method)
              /\ In so (objects scene) /\ obj_id so = obj
              /\ catalog !! obj_type so = Some oas
              /\ In oa oas /\ action_name oa = method)
         (actions project).

(** Invariant 4: distinct scene instances get distinct variable names. *)
Definition invariant4 (scene : Scene) : Prop :=
  forall o1 o2, In o1 (objects scene) -> In o2 (objects scene) ->
    fix_object_name (obj_id o1) = fix_object_name (obj_id o2) -> o1 = o2.

(** Every action of the path has exactly the link to the action before it
    as its inputs ([FIRST] for the first) and exactly the link to the action
    after it as its outputs ([LAST] for the last). *)
Definition single_links (path : list Action) : Prop :=
  forall j a, path !! j = Some a ->
    inputs a = expected_inputs (map act_id path) j
    /\ outputs a = expected_outputs (map act_id path) true j.

(** The variable name of every action's object is the same for the emitter
    and for the recoverer. *)
Definition names_agree (project : Project) : Prop :=
  Forall (fun act =>
            forall obj method, split_type (act_type act) = Ok (obj, method) ->
              contains " " (convert_cc obj) = false)
         (actions project).

End Props.

Import Props.

(** ** Concrete inputs *)

Module Inputs.

(** Two classes in one source unit. *)
Definition two_classes : module :=
  Module [ClassDef "Robot" [Name "Generic"] [Pass] [];
          ClassDef "Gripper" [Name "Generic"] [Pass] []].

Definition move_to_def : stmt :=
  FunctionDef "move_to"
    [Arg "self" None; Arg "target" (Some (Name "ActionPoint"));
     Arg "end_effector" (Some (Name "str")); Arg "speed" (Some (Name "int"))]
    [OtherStmt; OtherStmt] [Name "action"] (Some (NameConstant CNone)).

Definition move_to_metadata : stmt :=
  Assign [Attribute (Name "move_to") "__action__"]
    (Call (Name "ActionMetadata") []
       [Keyword (Some "free") (NameConstant CTrue);
        Keyword (Some "blocking") (NameConstant CTrue)]).

Definition get_pose_def : stmt :=
  FunctionDef "get_pose" [Arg "self" None; Arg "end_effector" (Some (Name "str"))]
    [OtherStmt] [] (Some (Name "Pose")).

(** The class [Robot] of [arcor2/object_types/robot.py]. *)
Definition robot_body : list stmt :=
  [Expr (Str "Abstract class representing robot and its basic capabilities (motion)");
   get_pose_def; move_to_def; move_to_metadata].

Definition robot_source : module :=
  Module
    [OtherStmt;
     ImportFrom "arcor2.object_types.generic" [Alias "Generic" None] 0;
     ImportFrom "arcor2.action" [Alias "action" None] 0;
     ImportFrom "arcor2.data"
       [Alias "ActionMetadata" None; Alias "ActionPoint" None; Alias "Pose" None] 0;
     ClassDef "Robot" [Name "Generic"] robot_body []].

Definition move_to_meta : ActionMetadata :=
  {| free := VConst CTrue; blocking := VConst CTrue;
     composite := VConst CFalse; blackbox := VConst CFalse |}.

Definition move_to_action : ObjectAction :=
  {| action_name := "move_to"; meta := move_to_meta;
     action_args := [{| arg_name := "target"; arg_type := "ActionPoint" |};
                     {| arg_name := "end_effector"; arg_type := "str" |};
                     {| arg_name := "speed"; arg_type := "int" |}] |}.

(** [Robot] with a metadata assignment for a method it does not define. *)
Definition stale_metadata_body : list stmt :=
  robot_body ++
  [Assign [Attribute (Name "ghost") "__action__"]
     (Call (Name "ActionMetadata") [] [Keyword (Some "free") (NameConstant CTrue)])].

Definition stale_metadata : module :=
  Module [ClassDef "Robot" [Name "Generic"] stale_metadata_body []].

(** A class whose method [stop] has the decorator and no metadata. *)
Definition stop_def : stmt :=
  FunctionDef "stop" [Arg "self" None] [OtherStmt] [Name "action"] None.

Definition marker_without_metadata : module :=
  Module [ClassDef "Robot" [Name "Generic"] [stop_def] []].

(** [def follow(self, points: List[int])]: every parameter is annotated,
    one of them not with a plain name. *)
Definition follow_args : list arg :=
  [Arg "self" None; Arg "points" (Some (Subscript (Name "List") (Name "int")))].

Definition subscript_annotation : module :=
  Module
    [ClassDef "Robot" [Name "Generic"]
       [FunctionDef "follow" follow_args [OtherStmt] [Name "action"] None;
        Assign [Attribute (Name "follow") "__action__"]
          (Call (Name "ActionMetadata") [] [Keyword (Some "free") (NameConstant CTrue)])]
       []].

(** The scenario of section 8: one robot, two actions in a chain. *)
Definition move1 : Action :=
  {| act_id := "move1"; act_type := "robot/move_to";
     inputs := [FIRST]; outputs := [ActionRef "act2"] |}.

Definition act2 : Action :=
  {| act_id := "act2"; act_type := "robot/move_to";
     inputs := [ActionRef "move1"]; outputs := [LAST] |}.

Definition two_step_project : Project :=
  {| project_id := "demo"; actions := [move1; act2]; parameters := [] |}.

Definition robot_scene : Scene :=
  {| objects := [{| obj_id := "robot"; obj_type := "RobotType" |}] |}.

Definition robot_imports : list stmt :=
  [ImportFrom "object_types.robot_type" [Alias "RobotType" None] 0;
   ImportFrom "resources" [Alias "Resources" None] 0].

Definition robot_assigns : list stmt :=
  [Assign [Name "res"] (Call (Name "Resources") [] []);
   AnnAssign (Name "robot") (Name "RobotType")
     (Subscript (Attribute (Name "res") "objects") (Str "robot"))].

(** Program text whose loop calls an action that the project does not
    have, twice. *)
Definition ghost_twice : module :=
  script robot_imports robot_assigns
    [call_stmt "robot" "move_to" "ghost"; call_stmt "robot" "move_to" "ghost"].

(** Program text whose loop calls [move1], [act2] and [move1] again. *)
Definition move1_again : module :=
  script robot_imports robot_assigns
    [call_stmt "robot" "move_to" "move1"; call_stmt "robot" "move_to" "act2";
     call_stmt "robot" "move_to" "move1"].

(** Program text whose loop calls [act2] only. *)
Definition act2_only : module :=
  script robot_imports robot_assigns [call_stmt "robot" "move_to" "act2"].

(** Program text whose loop calls both actions, in the other order. *)
Definition act2_move1 : module :=
  script robot_imports robot_assigns
    [call_stmt "robot" "move_to" "act2"; call_stmt "robot" "move_to" "move1"].

(** A project whose only action starts the chain and does not end it. *)
Definition no_last_project : Project :=
  {| project_id := "demo"; actions := [move1]; parameters := [] |}.






(** The object types of the scenario: [RobotType] with its one action. *)
Definition robot_catalog : gmap string (list ObjectAction) :=
  {["RobotType" := [move_to_action]]}.

(** A chain of three actions; the inputs of [place] name [pick] instead of
    [carry]. *)
Definition pick : Action :=
  {| act_id := "pick"; act_type := "robot/move_to";
     inputs := [FIRST]; outputs := [ActionRef "carry"] |}.

Definition carry : Action :=
  {| act_id := "carry"; act_type := "robot/move_to";
     inputs := [ActionRef "pick"]; outputs := [ActionRef "place"] |}.

Definition place : Action :=
  {| act_id := "place"; act_type := "robot/move_to";
     inputs := [ActionRef "pick"]; outputs := [LAST] |}.

Definition stale_link_project : Project :=
  {| project_id := "demo"; actions := [pick; carry; place]; parameters := [] |}.

Definition stale_link_program : module :=
  script robot_imports robot_assigns
    [call_stmt "robot" "move_to" "pick"; call_stmt "robot" "move_to" "carry";
     call_stmt "robot" "move_to" "place"].

(** A scene object whose id has a space, and one action on it. *)
Definition my_robot_scene : Scene :=
  {| objects := [{| obj_id := "my robot"; obj_type := "RobotType" |}] |}.

Definition my_move : Action :=
  {| act_id := "move1"; act_type := "my robot/move_to";
     inputs := [FIRST]; outputs := [LAST] |}.

Definition my_robot_project : Project :=
  {| project_id := "demo"; actions := [my_move]; parameters := [] |}.

Definition my_robot_program : module :=
  script
    [ImportFrom "object_types.robot_type" [Alias "RobotType" None] 0;
     ImportFrom "resources" [Alias "Resources" None] 0]
    [Assign [Name "res"] (Call (Name "Resources") [] []);
     AnnAssign (Name "my_robot") (Name "RobotType")
       (Subscript (Attribute (Name "res") "objects") (Str "my robot"))]
    [Expr (Call (Attribute (Name "my_robot") "move_to") []
             [Keyword None (Attribute (Name "res") "move1")])].

End Inputs.

Import Inputs.

(** ** Further functions of the sources *)

Module Camel.

(** [str.join]: the pieces with [sep] between them. *)
Fixpoint join (sep : string) (pieces : list string) : string :=
  match pieces with
  | [] => EmptyString
  | [piece] => piece
  | piece :: rest => piece ++ sep ++ join sep rest
  end.

Definition upper_char (c : ascii) : ascii :=
  if is_lower c then ascii_of_nat (nat_of_ascii c - 32) else c.

(** [str.title()]: a letter that follows a letter is lowered, any other
    letter is raised; the flag says that the character before was a
    letter. *)
Fixpoint title_from (previous_is_cased : bool) (s : string) : string :=
  match s with
  | EmptyString => EmptyString
  | String c rest =>
      if is_upper c || is_lower c then
        String (if previous_is_cased then lower_char c else upper_char c)
          (title_from true rest)
      else String c (title_from false rest)
  end.

Definition title (s : string) : string := title_from false s.

(** [snake_case_to_camel_case], helpers.py lines 62-65.  [split] gives at
    least one piece, so the unpacking [first, *others] cannot fail. *)
Definition snake_case_to_camel_case (snake_str : string) : string :=
  match split "_" snake_str with
  | [] => EmptyString
  | first :: others => join EmptyString (lower first :: map title others)
  end.

End Camel.

Import Camel.

Module Facts.

(** Every character of the string is in the class [p]. *)
Fixpoint all_chars (p : ascii -> bool) (s : string) : bool :=
  match s with
  | EmptyString => true
  | String c rest => p c && all_chars p rest
  end.

Definition not_upper (c : ascii) : bool := negb (is_upper c).

(** The string without its occurrences of [c]. *)
Fixpoint remove_char (c : ascii) (s : string) : string :=
  match s with
  | EmptyString => EmptyString
  | String d rest =>
      if Ascii.eqb d c then remove_char c rest else String d (remove_char c rest)
  end.

(** A word with its first letter raised. *)
Definition capitalize (w : string) : string :=
  match w with
  | EmptyString => EmptyString
  | String c rest => String (upper_char c) rest
  end.

(** The capitalized words one after the other, an underscore before every
    second one ([sep] says whether the first gets one), and an underscore
    before every one. *)
Fixpoint alternate (sep : bool) (words : list string) : string :=
  match words with
  | [] => EmptyString
  | w :: rest =>
      ((if sep then "_" else "") ++ capitalize w ++ alternate (negb sep) rest)%string
  end.

Fixpoint separate (words : list string) : string :=
  match words with
  | [] => EmptyString
  | w :: rest => ("_" ++ capitalize w ++ separate rest)%string
  end.

(** A word of lower-case letters. *)
Definition lower_word (w : string) : Prop := all_chars is_lower w = true.

(** A word of at least two lower-case letters. *)
Definition long_lower_word (w : string) : Prop :=
  lower_word w /\ 2 <= String.length w.

(** The character is an ASCII character (its code is below 128): on these
    [lower] is [str.lower()] and the classes of the two regular expressions
    are Python's. *)
Definition is_ascii (c : ascii) : bool :=
  match c with Ascii _ _ _ _ _ _ _ b7 => negb b7 end.

End Facts.

Import Facts.

Module TypeInfo.

(** The value of the field [s] of a literal: a [str] or a [bytes]. *)
Inductive literal : Type :=
| LStr (s : string)
| LBytes (s : string).

(** Modelled from the spec: [ObjectType] of [arcor2.data] is not among the
    sources; the domain model gives it a name, an optional base and a
    description.  [None] stands for a field that [object_type_info] leaves
    as the constructor made it. *)
Record ObjectType : Type := {
  type_name : string;
  base : option string;
  description : option literal
}.

(** [e.s]: the two literal nodes have it, [Str] and [Bytes]. *)
Definition get_s (e : expr) : result literal :=
  match e with
  | Str s => Ok (LStr s)
  | Bytes s => Ok (LBytes s)
  | _ => Raise AttributeError
  end.

(** Lines 118-122: the loop over the class body; a later assignment to
    [__DESCRIPTION__] replaces an earlier one. *)
Fixpoint description_loop (body : list stmt) (obj : ObjectType) : result ObjectType :=
  match body with
  | [] => Ok obj
  | node :: rest =>
      match node with
      | Assign [Name id] value =>
          if String.eqb id "__DESCRIPTION__" then
            let* s := get_s value in
            description_loop rest
              {| type_name := type_name obj; base := base obj; description := Some s |}
          else description_loop rest obj
      | _ => description_loop rest obj
      end
  end.

(** [object_type_info], lines 106-124, on the parsed source. *)
Definition object_type_info (object_source : module) : result ObjectType :=
  let* tree := object_cls_def object_source in
  match tree with
  | ClassDef name bases body _ =>
      if Nat.ltb 1 (length bases) then
        Raise (GenerateSourceException "Only one base class is supported!")
      else
        let* b := match bases with
                  | [] => Ok None
                  | b0 :: _ => let* i := get_id b0 in Ok (Some i)
                  end in
        description_loop body {| type_name := name; base := b; description := None |}
  | _ => Raise AttributeError
  end.

(** [check_object_type], lines 95-103. *)
Definition check_object_type (object_type_source : module) : result unit :=
  let* _ := object_type_info object_type_source in
  let* _ := get_object_actions object_type_source in
  Ok tt.

End TypeInfo.

Import TypeInfo.

Module MainCalls.

Definition isinstance_Assign (node : stmt) : bool :=
  match node with Assign _ _ => true | _ => false end.

(** Lines 538-543 of [add_method_call_in_main]: the index of the last
    [Assign] ([AnnAssign] does not count here). *)
Fixpoint last_plain_assign_idx_loop (body_idx : nat) (main_body : list stmt)
  (last_assign_idx : option nat) : option nat :=
  match main_body with
  | [] => last_assign_idx
  | body_item :: rest =>
      last_plain_assign_idx_loop (S body_idx) rest
        (if isinstance_Assign body_item then Some body_idx else last_assign_idx)
  end.

(** [add_method_call_in_main], lines 518-554.  The test is
    [if not last_assign_idx], which holds for [None] and for [0]; the call
    is built with [keywords=[]], whatever [kwargs] is. *)
Definition add_method_call_in_main (tree : module) (instance method : string)
  (args : list expr) (kwargs : list keyword) : result module :=
  let* main := find_function "main" tree in
  let* (main_body, put) := function_body main in
  match last_plain_assign_idx_loop 0 main_body None with
  | None | Some O => Raise (GenerateSourceException "")
  | Some last_assign_idx =>
      Ok (put (list_insert_at (last_assign_idx + 1)
                 (Expr (Call (Attribute (Name instance) method) args []))
                 main_body))
  end.

End MainCalls.

Import MainCalls.

Module TreeFacts.

(** A function definition of the name occurs in the statement. *)
Fixpoint defines (name : string) (node : stmt) {struct node} : bool :=
  match node with
  | FunctionDef n _ body _ _ => String.eqb n name || existsb (defines name) body
  | ClassDef _ _ body _ => existsb (defines name) body
  | While _ body orelse => existsb (defines name) body || existsb (defines name) orelse
  | If _ body orelse => existsb (defines name) body || existsb (defines name) orelse
  | _ => false
  end.

(** No statement of a kind that [stmt] does not represent occurs in the
    statement, at any depth: on such a tree the visitors of the program see
    what the model follows. *)
Fixpoint represented (node : stmt) {struct node} : bool :=
  match node with
  | FunctionDef _ _ body _ _ => forallb represented body
  | ClassDef _ _ body _ => forallb represented body
  | While _ body orelse => forallb represented body && forallb represented orelse
  | If _ body orelse => forallb represented body && forallb represented orelse
  | OtherStmt => false
  | _ => true
  end.

(** The visit of [FindFunction] along a list of statements whose place in
    the tree is [wrap]. *)
Fixpoint FindFunction_visit_list (name : string) (wrap : list stmt -> module)
  (seen todo : list stmt) (fn : option node_ref) {struct todo} : option node_ref :=
  match todo with
  | [] => fn
  | child :: rest =>
      FindFunction_visit_list name wrap (seen ++ [child]) rest
        (FindFunction_visit name child (fun child' => wrap (seen ++ child' :: rest)) fn)
  end.


(** The binding of a scene object, lines 291-309. *)
Definition object_binding (obj : SceneObject) : stmt :=
  AnnAssign (Name (fix_object_name (obj_id obj))) (Name (obj_type obj))
    (Subscript (Attribute (Name "res") "objects") (Str (obj_id obj))).

Definition res_instance : stmt :=
  Assign [Name "res"] (Call (Name "Resources") [] []).

(** A reference to a function definition of the name, in the tree [tree]:
    putting the node back gives the tree. *)
Definition refers_to (name : string) (tree : module) (r : node_ref) : Prop :=
  (exists args body decs rt, r.1 = FunctionDef name args body decs rt)
  /\ r.2 r.1 = tree.



(** The exceptions of [FindClsInst]: the two failed attribute or index
    reads of line 462 and 464, and the name that is bound to another
    class. *)
Definition cls_inst_error (name : string) (e : exn) : Prop :=
  e = IndexError \/ e = AttributeError
  \/ exists fid,
       e = GenerateSourceException
             ("Name '" ++ name ++ "' already used for instance of '" ++ fid ++ "'!").


(** The statement imports the class from the module. *)
Definition imports_from (module_name cls : string) (node : stmt) : bool :=
  match node with
  | ImportFrom m names _ =>
      String.eqb m module_name && existsb (fun a => String.eqb (alias_name a) cls) names
  | _ => false
  end.

(** The module that line 162 or 164 names for the type of a scene object. *)
Definition type_module (built_in_objects : gset string) (cls : string) : string :=
  if decide (cls ∈ built_in_objects) then "arcor2.object_types"
  else "object_types." ++ convert_cc cls.

(** The name of a method that carries the [@action] decorator. *)
Definition marked_name (node : stmt) : option string :=
  match node with
  | FunctionDef n _ _ decorator_list _ =>
      match decorator_loop decorator_list with
      | Ok true => Some n
      | _ => None
      end
  | _ => None
  end.

(** The statement assigns to the single name [__DESCRIPTION__]. *)
Definition describes (node : stmt) : bool :=
  match node with
  | Assign [Name id] _ => String.eqb id "__DESCRIPTION__"
  | _ => false
  end.

End TreeFacts.

Import TreeFacts.

Module TextInputs.






End TextInputs.

Import TextInputs.

(** * Theorems *)

(** [NoDup] of a list of literals, by its decision procedure. *)
Ltac decide_NoDup :=
  match goal with
  | |- NoDup ?l => apply (bool_decide_unpack (NoDup l)); vm_compute; exact I
  end.

(** ** Identifier conversion *)

Example convert_cc_robot_type : convert_cc "RobotType" = "robot_type".
Proof. reflexivity. Qed.

Example convert_cc_http :
  convert_cc "getHTTPResponseCode" = "get_http_response_code".
Proof. reflexivity. Qed.

Example convert_cc_keeps_space : convert_cc "my Robot" = "my _robot".
Proof. reflexivity. Qed.

Example fix_object_name_space : fix_object_name "my robot" = "my_robot".
Proof. reflexivity. Qed.

Example split_type_robot : split_type "robot/move_to" = Ok ("robot", "move_to").
Proof. reflexivity. Qed.

Lemma replace_fixpoint_iff (s : string) :
  replace " " "_" s = s <-> contains " " s = false.
Proof.
  induction s as [|c s IH]; simpl.
  - split; reflexivity.
  - destruct (Ascii.eqb c " ") eqn:Hc; simpl.
    + apply Ascii.eqb_eq in Hc. subst c.
      split; intros H; discriminate H.
    + rewrite <- IH. split.
      * intros H. injection H as H. exact H.
      * intros H. rewrite H. reflexivity.
Qed.


Lemma action_call_stmt (loop : list stmt) (act : Action) (obj method : string) :
  split_type (act_type act) = Ok (obj, method) ->
  action_call loop act = Ok (loop ++ [call_stmt obj method (act_id act)]).
Proof. intros H. unfold action_call. rewrite H. reflexivity. Qed.

Lemma corresponds_ok_iff (act : Action) (obj method v m : string) :
  split_type (act_type act) = Ok (obj, method) ->
  corresponds act v m = Ok tt <-> convert_cc obj = v /\ method = m.
Proof.
  intros H. unfold corresponds. rewrite H. simpl.
  destruct (String.eqb (convert_cc obj) v) eqn:E1;
    destruct (String.eqb method m) eqn:E2; simpl.
  - apply String.eqb_eq in E1, E2. split; [intros _; split; assumption | reflexivity].
  - apply String.eqb_neq in E2. split; [discriminate | intros [_ ?]; contradiction].
  - apply String.eqb_neq in E1. split; [discriminate | intros [? _]; contradiction].
  - apply String.eqb_neq in E1. split; [discriminate | intros [? _]; contradiction].
Qed.

(** ** Object-type inspector *)

Lemma object_cls_def_loop_first (body : list stmt) :
  object_cls_def_loop None body =
  match filter (fun node => isinstance_ClassDef node = true) body with
  | [] => Raise (GenerateSourceException "No class definition!")
  | cls :: _ => Ok cls
  end.
Proof.
  induction body as [|node rest IH]; simpl; [reflexivity|].
  rewrite filter_cons.
  destruct (isinstance_ClassDef node) eqn:E.
  - destruct (decide (true = true)) as [_|Hn]; [reflexivity | contradiction].
  - destruct (decide (false = true)) as [Hn|_]; [discriminate | exact IH].
Qed.

(** C4.  [object_cls_def] raises when the source has no class definition,
    and otherwise returns the first class definition however many follow: the
    loop leaves at the first one, so the branch that raises "Multiple class
    definition!" is never taken.  On a source with two classes it returns the
    first. *)
Theorem object_cls_def_returns_first_class :
  (forall tree : module,
     object_cls_def tree =
     match filter (fun node => isinstance_ClassDef node = true) (module_body tree) with
     | [] => Raise (GenerateSourceException "No class definition!")
     | cls :: _ => Ok cls
     end)
  /\ object_cls_def two_classes = Ok (ClassDef "Robot" [Name "Generic"] [Pass] [])
  /\ is_ok (get_object_actions two_classes) = true.
Proof.
  split; [|split; reflexivity].
  intros tree. unfold object_cls_def. apply object_cls_def_loop_first.
Qed.

(** The metadata table: which names it holds. *)
Lemma action_attr_step_lookup (acc acc' : gmap string ActionMetadata) (node : stmt)
  (name : string) :
  action_attr_step acc node = Ok acc' ->
  is_Some (acc' !! name) <->
  is_Some (acc !! name) \/ exists value, node = Assign [Attribute (Name name) "__action__"] value.
Proof.
  intros H.
  assert (Hsame : acc' = acc -> (forall value,
            node <> Assign [Attribute (Name name) "__action__"] value) ->
          is_Some (acc' !! name) <->
          is_Some (acc !! name) \/
          exists value, node = Assign [Attribute (Name name) "__action__"] value).
  { intros -> Hne. split; [auto|]. intros [?|[value Hv]]; [assumption|].
    exfalso. exact (Hne value Hv). }
  destruct node as [| | | | |targets value| | | |];
    try (simpl in H; injection H as <-; apply Hsame; [reflexivity | discriminate]).
  destruct targets as [|t ts];
    try (simpl in H; injection H as <-; apply Hsame; [reflexivity | discriminate]).
  destruct t as [|tv attr| | | | | | |]; destruct ts as [|t' ts'];
    try (simpl in H; injection H as <-; apply Hsame; [reflexivity | discriminate]).
  simpl in H.
  destruct (String.eqb attr "__action__") eqn:Eattr; simpl in H.
  - apply String.eqb_eq in Eattr. subst attr.
    destruct (get_keywords value) as [kws|e]; simpl in H; [|discriminate].
    destruct (set_flags ActionMetadata_default kws) as [m|e]; simpl in H; [|discriminate].
    destruct tv as [n| | | | | | | |]; simpl in H; try discriminate.
    injection H as <-.
    destruct (decide (n = name)) as [->|Hne].
    + rewrite lookup_insert_eq. split; [|intros _; eexists; reflexivity].
      intros _. right. eexists. reflexivity.
    + rewrite lookup_insert_ne by exact Hne. split; [auto|].
      intros [?|[v Hv]]; [assumption|]. injection Hv as Hn _. contradiction.
  - injection H as <-. apply Hsame; [reflexivity|].
    intros v Hv. injection Hv as _ Ha _. subst attr. discriminate Eattr.
Qed.

Lemma action_attr_loop_lookup (body : list stmt) (acc attr : gmap string ActionMetadata)
  (name : string) :
  action_attr_loop acc body = Ok attr ->
  is_Some (attr !! name) <-> is_Some (acc !! name) \/ has_metadata body name.
Proof.
  revert acc. induction body as [|node rest IH]; intros acc H; simpl in H.
  - injection H as <-. unfold has_metadata. split; [auto|].
    intros [?|[v []]]. assumption.
  - destruct (action_attr_step acc node) as [acc'|e] eqn:Hstep; simpl in H; [|discriminate].
    rewrite (IH acc' H), (action_attr_step_lookup acc acc' node name Hstep).
    unfold has_metadata. simpl. split.
    + intros [[?|[v Hv]]|[v Hv]]; [auto | right; exists v; left; exact Hv
                                  | right; exists v; right; exact Hv].
    + intros [?|[v [Hv|Hv]]]; [auto | left; right; exists v; exact Hv
                              | right; exists v; exact Hv].
Qed.

Lemma action_attr_lookup (body : list stmt) (attr : gmap string ActionMetadata)
  (name : string) :
  action_attr_loop ∅ body = Ok attr ->
  is_Some (attr !! name) <-> has_metadata body name.
Proof.
  intros H. rewrite (action_attr_loop_lookup body ∅ attr name H).
  rewrite lookup_empty. split; [|auto].
  intros [[? Hx]|?]; [discriminate Hx | assumption].
Qed.

(** The decorator scan against the list of decorators. *)
Lemma decorator_loop_marked (decs : list expr) :
  In (Name "action") decs -> decorator_loop decs <> Ok false.
Proof.
  induction decs as [|d rest IH]; intros Hin; [destruct Hin|].
  simpl. destruct d as [i| | | | | | | |]; simpl; try discriminate.
  destruct (String.eqb i "action") eqn:E; [discriminate|].
  destruct Hin as [Hd|Hin]; [|apply IH; exact Hin].
  injection Hd as ->. discriminate E.
Qed.

Lemma decorator_loop_unmarked (decs : list expr) :
  ~ In (Name "action") decs -> decorator_loop decs <> Ok true.
Proof.
  induction decs as [|d rest IH]; intros Hin; [discriminate|].
  simpl. destruct d as [i| | | | | | | |]; simpl; try discriminate.
  destruct (String.eqb i "action") eqn:E.
  - apply String.eqb_eq in E. subst i. exfalso. apply Hin. left. reflexivity.
  - apply IH. intros H. apply Hin. right. exact H.
Qed.

(** A statement on which a turn of the second loop raises, whatever has
    been collected, makes the loop raise. *)
Lemma methods_loop_raises (attr : gmap string ActionMetadata) (body : list stmt)
  (node : stmt) :
  In node body ->
  (forall ret, is_ok (method_step attr ret node) = false) ->
  forall ret, is_ok (methods_loop attr ret body) = false.
Proof.
  intros Hin Hnode. induction body as [|n rest IH]; intros ret; [destruct Hin|].
  simpl. destruct (method_step attr ret n) as [ret'|e] eqn:Hstep; simpl; [|reflexivity].
  destruct Hin as [->|Hin].
  - specialize (Hnode ret). rewrite Hstep in Hnode. discriminate Hnode.
  - apply IH. exact Hin.
Qed.

Lemma methods_loop_app (attr : gmap string ActionMetadata) (pre post : list stmt)
  (ret : list ObjectAction) :
  methods_loop attr ret (pre ++ post) =
  let* ret' := methods_loop attr ret pre in methods_loop attr ret' post.
Proof.
  revert ret. induction pre as [|n pre IH]; intros ret; simpl; [reflexivity|].
  destruct (method_step attr ret n) as [ret'|e]; simpl; [apply IH | reflexivity].
Qed.

Lemma get_object_actions_unfold (tree : module) (cname : string) (bases : list expr)
  (body : list stmt) (cdecs : list expr) :
  object_cls_def tree = Ok (ClassDef cname bases body cdecs) ->
  get_object_actions tree =
  let* attr := action_attr_loop ∅ body in methods_loop attr [] body.
Proof. intros H. unfold get_object_actions. rewrite H. reflexivity. Qed.

Lemma not_ok_raises {A : Type} (r : result A) :
  is_ok r = false -> exists e, r = Raise e.
Proof. destruct r as [a|e]; [discriminate | intros _; exists e; reflexivity]. Qed.

Lemma method_step_mismatch (attr : gmap string ActionMetadata) (body : list stmt)
  (name : string) (args : list arg) (fbody : list stmt) (fdecs : list expr)
  (rt : option expr) :
  action_attr_loop ∅ body = Ok attr ->
  (In (Name "action") fdecs /\ ~ has_metadata body name)
  \/ (~ In (Name "action") fdecs /\ has_metadata body name) ->
  forall ret, is_ok (method_step attr ret (FunctionDef name args fbody fdecs rt)) = false.
Proof.
  intros Hattr Hmis ret. unfold method_step.
  pose proof (action_attr_lookup body attr name Hattr) as Hlook.
  destruct (decorator_loop fdecs) as [marked|e] eqn:Hdec; simpl; [|reflexivity].
  destruct Hmis as [[Hin Hno]|[Hnin Hyes]].
  - destruct marked; [|exfalso; exact (decorator_loop_marked fdecs Hin Hdec)].
    simpl. destruct (attr !! name) as [m|] eqn:Hm; [|reflexivity].
    exfalso. apply Hno, Hlook. eexists. reflexivity.
  - destruct marked; [exfalso; exact (decorator_loop_unmarked fdecs Hnin Hdec)|].
    simpl. apply Hlook in Hyes. destruct Hyes as [m ->]. reflexivity.
Qed.

(** C5, as amended.  [get_object_actions] raises when a [FunctionDef] of
    the class body (a method written with [def], directly in the class)
    carries the [action] decorator and the class has no metadata assignment
    for it, and when such a [FunctionDef] has a metadata assignment and no
    [action] decorator.  Nothing else is checked: not a metadata assignment
    that names no such method, and not a method written with [async def],
    which is no [FunctionDef] and is passed by at line 64. *)
Theorem marker_metadata_mismatch_raises
  (tree : module) (cname : string) (bases : list expr) (body : list stmt)
  (cdecs : list expr) (name : string) (args : list arg) (fbody : list stmt)
  (fdecs : list expr) (rt : option expr)
  (Hcls : object_cls_def tree = Ok (ClassDef cname bases body cdecs))
  (Hmethod : In (FunctionDef name args fbody fdecs rt) body)
  (Hmismatch : (In (Name "action") fdecs /\ ~ has_metadata body name)
               \/ (~ In (Name "action") fdecs /\ has_metadata body name)) :
  exists e, get_object_actions tree = Raise e.
Proof.
  apply not_ok_raises.
  rewrite (get_object_actions_unfold tree cname bases body cdecs Hcls).
  destruct (action_attr_loop ∅ body) as [attr|e] eqn:Hattr; simpl; [|reflexivity].
  apply (methods_loop_raises attr body _ Hmethod).
  apply (method_step_mismatch attr body name args fbody fdecs rt Hattr Hmismatch).
Qed.

(** The arguments of an action method. *)
Lemma action_args_loop_named (name : string) (args : list arg)
  (acc : list ObjectActionArgs) :
  Forall (fun a => non_receiver a = true -> named_annotation a = true) args ->
  action_args_loop name acc args = Ok (acc ++ map arg_entry (List.filter non_receiver args)).
Proof.
  revert acc. induction args as [|a rest IH]; intros acc Hall; simpl.
  - rewrite app_nil_r. reflexivity.
  - apply Forall_cons in Hall as [Ha Hrest].
    destruct a as [n ann]. simpl in *.
    destruct (String.eqb n "self"); simpl.
    + apply IH. exact Hrest.
    + specialize (Ha eq_refl).
      destruct ann as [[t| | | | | | | |]|]; try discriminate Ha.
      simpl. rewrite (IH _ Hrest), <- app_assoc. reflexivity.
Qed.

Lemma action_args_loop_unannotated (name : string) (args : list arg)
  (acc : list ObjectActionArgs) :
  Exists (fun a => non_receiver a && unannotated a = true) args ->
  is_ok (action_args_loop name acc args) = false.
Proof.
  intros Hex. revert acc. induction Hex as [a rest Ha|a rest Hex IH]; intros acc.
  - destruct a as [n [ann|]]; simpl in *.
    + rewrite andb_false_r in Ha. discriminate Ha.
    + rewrite andb_true_r in Ha. apply negb_true_iff in Ha. rewrite Ha. reflexivity.
  - destruct a as [n ann]. simpl.
    destruct (String.eqb n "self"); [apply IH|].
    destruct ann as [ann|]; [|reflexivity].
    destruct (get_id ann) as [ty|e]; simpl; [apply IH | reflexivity].
Qed.

(** C6, as amended.  For a [FunctionDef] of the class body that carries
    the [action] decorator and has metadata, and for its parameters in
    [node.args.args] (the positional parameters; line 80 reads no others, so
    keyword-only parameters, [*args] and [**kwargs] are neither checked nor
    listed): if one of them other than [self] has no annotation,
    [get_object_actions] raises; if every one other than [self] is annotated
    with a plain type name, the method adds exactly one [ObjectAction] to
    those of the methods before it, with one argument per such parameter
    other than [self], in the order of declaration, and the inspection goes
    on with the rest of the class. *)
Theorem annotated_method_accepted
  (tree : module) (cname : string) (bases : list expr) (body : list stmt)
  (cdecs : list expr) (attr : gmap string ActionMetadata) (pre post : list stmt)
  (name : string) (args : list arg) (fbody : list stmt) (fdecs : list expr)
  (rt : option expr) (m : ActionMetadata)
  (Hcls : object_cls_def tree = Ok (ClassDef cname bases body cdecs))
  (Hattr : action_attr_loop ∅ body = Ok attr)
  (Hbody : body = pre ++ FunctionDef name args fbody fdecs rt :: post)
  (Hmarked : decorator_loop fdecs = Ok true)
  (Hmeta : attr !! name = Some m) :
  (Exists (fun a => non_receiver a && unannotated a = true) args ->
   exists e, get_object_actions tree = Raise e)
  /\ (Forall (fun a => non_receiver a = true -> named_annotation a = true) args ->
      forall before, methods_loop attr [] pre = Ok before ->
        get_object_actions tree =
        methods_loop attr
          (before ++ [{| action_name := name; meta := m;
                         action_args := map arg_entry (List.filter non_receiver args) |}])
          post).
Proof.
  rewrite (get_object_actions_unfold tree cname bases body cdecs Hcls), Hattr. simpl.
  split.
  - intros Hex. apply not_ok_raises.
    apply (methods_loop_raises attr body (FunctionDef name args fbody fdecs rt)).
    + subst body. apply in_or_app. right. left. reflexivity.
    + intros ret. unfold method_step. rewrite Hmarked, Hmeta. simpl.
      pose proof (action_args_loop_unannotated name args [] Hex) as Hargs.
      destruct (action_args_loop name [] args); [discriminate Hargs | reflexivity].
  - intros Hall before Hpre. subst body.
    rewrite methods_loop_app, Hpre. simpl.
    rewrite Hmarked, Hmeta. simpl.
    rewrite (action_args_loop_named name args [] Hall). reflexivity.
Qed.

Lemma marker_metadata_mismatch_raises_witness :
  exists e, get_object_actions marker_without_metadata = Raise e.
Proof.
  apply (marker_metadata_mismatch_raises marker_without_metadata "Robot"
           [Name "Generic"] [stop_def] [] "stop" [Arg "self" None] [OtherStmt]
           [Name "action"] None).
  - reflexivity.
  - left. reflexivity.
  - left. split.
    + left. reflexivity.
    + intros [value [H|[]]]. discriminate H.
Defined.

(** C5, counterexample.  The class has a metadata assignment for [ghost],
    defines no method of that name, and is accepted. *)
Lemma stale_metadata_accepted :
  has_metadata stale_metadata_body "ghost"
  /\ Forall (fun node => match node with
                         | FunctionDef n _ _ _ _ => n <> "ghost"
                         | _ => True
                         end) stale_metadata_body
  /\ get_object_actions stale_metadata = Ok [move_to_action].
Proof.
  split; [|split].
  - eexists. unfold stale_metadata_body, robot_body. simpl.
    do 4 right. left. reflexivity.
  - unfold stale_metadata_body, robot_body. simpl.
    repeat (apply Forall_cons; split; [first [exact I | discriminate]|]).
    apply Forall_nil. exact I.
  - vm_compute. reflexivity.
Qed.

Lemma annotated_method_accepted_witness :
  get_object_actions robot_source = Ok [move_to_action].
Proof.
  transitivity
    (methods_loop (<["move_to" := move_to_meta]> ∅)
       ([] ++ [{| action_name := "move_to"; meta := move_to_meta;
                  action_args :=
                    map arg_entry
                      (List.filter non_receiver
                         [Arg "self" None; Arg "target" (Some (Name "ActionPoint"));
                          Arg "end_effector" (Some (Name "str"));
                          Arg "speed" (Some (Name "int"))]) |}])
       [move_to_metadata]); [|reflexivity].
  apply (proj2 (annotated_method_accepted robot_source "Robot" [Name "Generic"]
                  robot_body [] (<["move_to" := move_to_meta]> ∅)
                  [Expr (Str "Abstract class representing robot and its basic capabilities (motion)");
                   get_pose_def]
                  [move_to_metadata] "move_to" _ [OtherStmt; OtherStmt] [Name "action"]
                  (Some (NameConstant CNone)) move_to_meta
                  eq_refl eq_refl eq_refl eq_refl eq_refl)).
  - repeat (apply Forall_cons; split; [simpl; intros; first [reflexivity | discriminate]|]).
    apply Forall_nil. exact I.
  - reflexivity.
Defined.

(** C6, counterexample.  Every parameter of [follow] other than [self] is
    annotated, and the method is not accepted. *)
Lemma subscript_annotation_rejected :
  Forall (fun a => non_receiver a = true -> has_annotation a = true) follow_args
  /\ get_object_actions subscript_annotation = Raise AttributeError.
Proof.
  split.
  - repeat (apply Forall_cons; split; [simpl; intros; first [reflexivity | discriminate]|]).
    apply Forall_nil. exact I.
  - vm_compute. reflexivity.
Qed.

(** ** The action cache *)

Lemma get_actions_cache_loop_keyed (acts : list Action)
  (c : gmap string Action) (f l : option string) :
  keyed_by_id c -> keyed_by_id (get_actions_cache_loop acts (c, f, l)).1.1.
Proof.
  revert c f l. induction acts as [|act rest IH]; intros c f l Hc; simpl; [exact Hc|].
  apply IH. intros k a. destruct (decide (act_id act = k)) as [<-|Hne].
  - rewrite lookup_insert_eq. intros [= <-]. reflexivity.
  - rewrite lookup_insert_ne by exact Hne. apply Hc.
Qed.

Lemma get_actions_cache_keyed (project : Project) :
  keyed_by_id (get_actions_cache project).1.1.
Proof.
  apply get_actions_cache_loop_keyed. intros k a. rewrite lookup_empty. discriminate.
Qed.

Lemma get_actions_cache_loop_other (acts : list Action)
  (c : gmap string Action) (f l : option string) (k : string) :
  ~ In k (map act_id acts) ->
  (get_actions_cache_loop acts (c, f, l)).1.1 !! k = c !! k.
Proof.
  revert c f l. induction acts as [|act rest IH]; intros c f l Hk; simpl; [reflexivity|].
  simpl in Hk. rewrite IH by (intros H; apply Hk; right; exact H).
  apply lookup_insert_ne. intros Heq. apply Hk. left. exact Heq.
Qed.

Lemma get_actions_cache_loop_lookup (acts : list Action)
  (c : gmap string Action) (f l : option string) (a : Action) :
  NoDup (map act_id acts) -> In a acts ->
  (get_actions_cache_loop acts (c, f, l)).1.1 !! act_id a = Some a.
Proof.
  revert c f l. induction acts as [|act rest IH]; intros c f l Hnd Hin; [destruct Hin|].
  simpl in Hnd. apply NoDup_cons in Hnd as [Hfresh Hnd]. simpl.
  destruct Hin as [->|Hin]; [|apply IH; assumption].
  rewrite get_actions_cache_loop_other.
  - apply lookup_insert_eq.
  - intros Hin. apply Hfresh. apply list_elem_of_In. exact Hin.
Qed.

(** With unique ids the cache holds exactly the actions of the project. *)
Lemma get_actions_cache_lookup (project : Project) (k : string) (a : Action) :
  NoDup (map act_id (actions project)) ->
  (get_actions_cache project).1.1 !! k = Some a <->
  In a (actions project) /\ act_id a = k.
Proof.
  intros Hnd. unfold get_actions_cache. split.
  - intros Hk. destruct (in_dec string_dec k (map act_id (actions project))) as [Hin|Hnin].
    + apply in_map_iff in Hin as [b [<- Hb]].
      rewrite (get_actions_cache_loop_lookup _ ∅ None None b Hnd Hb) in Hk.
      injection Hk as <-. split; [exact Hb | reflexivity].
    + rewrite (get_actions_cache_loop_other _ ∅ None None k Hnin), lookup_empty in Hk.
      discriminate Hk.
  - intros [Hin <-]. apply get_actions_cache_loop_lookup; assumption.
Qed.

Lemma get_actions_cache_loop_first (acts : list Action)
  (c : gmap string Action) (f l : option string) :
  match (get_actions_cache_loop acts (c, f, l)).1.2 with
  | None => f = None /\ Forall (fun a => is_first a = false) acts
  | Some i => f = Some i \/ exists a, In a acts /\ is_first a = true /\ act_id a = i
  end.
Proof.
  revert c f l. induction acts as [|act rest IH]; intros c f l; simpl.
  - destruct f; [left; reflexivity | split; [reflexivity | constructor]].
  - specialize (IH (<[act_id act := act]> c)
                  (if is_first act then Some (act_id act) else f)
                  (if is_last act then Some (act_id act) else l)).
    destruct (get_actions_cache_loop rest _).1.2 as [i|].
    + destruct IH as [Hf|[a [Hin [Ha Hi]]]].
      * destruct (is_first act) eqn:E; [|left; exact Hf].
        right. exists act. injection Hf as <-. auto.
      * right. exists a. auto.
    + destruct IH as [Hf Hall]. destruct (is_first act) eqn:E; [discriminate Hf|].
      split; [exact Hf|]. constructor; assumption.
Qed.

Lemma get_actions_cache_loop_last (acts : list Action)
  (c : gmap string Action) (f l : option string) :
  match (get_actions_cache_loop acts (c, f, l)).2 with
  | None => l = None /\ Forall (fun a => is_last a = false) acts
  | Some i => l = Some i \/ exists a, In a acts /\ is_last a = true /\ act_id a = i
  end.
Proof.
  revert c f l. induction acts as [|act rest IH]; intros c f l; simpl.
  - destruct l; [left; reflexivity | split; [reflexivity | constructor]].
  - specialize (IH (<[act_id act := act]> c)
                  (if is_first act then Some (act_id act) else f)
                  (if is_last act then Some (act_id act) else l)).
    destruct (get_actions_cache_loop rest _).2 as [i|].
    + destruct IH as [Hf|[a [Hin [Ha Hi]]]].
      * destruct (is_last act) eqn:E; [|left; exact Hf].
        right. exists act. injection Hf as <-. auto.
      * right. exists a. auto.
    + destruct IH as [Hf Hall]. destruct (is_last act) eqn:E; [discriminate Hf|].
      split; [exact Hf|]. constructor; assumption.
Qed.

(** The reported ids against the actions of the project. *)
Lemma get_actions_cache_first (project : Project) :
  match (get_actions_cache project).1.2 with
  | None => Forall (fun a => is_first a = false) (actions project)
  | Some i => exists a, In a (actions project) /\ is_first a = true /\ act_id a = i
  end.
Proof.
  pose proof (get_actions_cache_loop_first (actions project) ∅ None None) as H.
  unfold get_actions_cache. destruct (get_actions_cache_loop _ _).1.2.
  - destruct H as [H|H]; [discriminate H | exact H].
  - apply H.
Qed.

Lemma get_actions_cache_last (project : Project) :
  match (get_actions_cache project).2 with
  | None => Forall (fun a => is_last a = false) (actions project)
  | Some i => exists a, In a (actions project) /\ is_last a = true /\ act_id a = i
  end.
Proof.
  pose proof (get_actions_cache_loop_last (actions project) ∅ None None) as H.
  unfold get_actions_cache. destruct (get_actions_cache_loop _ _).2.
  - destruct H as [H|H]; [discriminate H | exact H].
  - apply H.
Qed.

(** ** Script recoverer *)

Lemma walk_app (len_loop node_idx : nat) (pre post : list stmt) (st : walk_state) :
  walk len_loop node_idx (pre ++ post) st =
  match walk len_loop node_idx pre st with
  | (Some e, st') => (Some e, st')
  | (None, st') => walk len_loop (node_idx + length pre) post st'
  end.
Proof.
  revert node_idx st. induction pre as [|node pre IH]; intros node_idx st; simpl.
  - rewrite Nat.add_0_r. reflexivity.
  - destruct (walk_step len_loop node_idx node st) as [[e|] st']; [reflexivity|].
    rewrite IH. replace (S node_idx + length pre) with (node_idx + S (length pre)) by lia.
    reflexivity.
Qed.

Lemma statement_ids_app (pre post : list stmt) :
  statement_ids (pre ++ post) = statement_ids pre ++ statement_ids post.
Proof. apply omap_app. Qed.

Lemma statement_ids_cons (node : stmt) (rest : list stmt) :
  statement_ids (node :: rest) =
  match statement_id node with
  | Some i => i :: statement_ids rest
  | None => statement_ids rest
  end.
Proof. reflexivity. Qed.

Lemma accepted_inv (cache : gmap string Action) (node : stmt) :
  accepted cache node = true ->
  exists val obj method i action,
    node = Expr val /\ call_parts val = Ok (obj, method, i) /\
    cache !! i = Some action /\ corresponds action obj method = Ok tt /\
    statement_id node = Some i.
Proof.
  destruct node as [| | | | | | |val| |]; try discriminate. simpl.
  destruct (call_parts val) as [[[obj method] i]|e] eqn:Hparts; [|discriminate].
  destruct (cache !! i) as [action|] eqn:Hi; [|discriminate].
  destruct (corresponds action obj method) as [[]|e] eqn:Hc; [|discriminate].
  intros _. exists val, obj, method, i, action. auto.
Qed.

Lemma statement_ids_accepted_length (cache : gmap string Action) (loop : list stmt) :
  Forall (fun node => accepted cache node = true) loop ->
  length (statement_ids loop) = length loop.
Proof.
  induction 1 as [|node rest Hnode _ IH]; [reflexivity|].
  apply accepted_inv in Hnode as (val & obj & method & i & action & _ & _ & _ & _ & Hid).
  rewrite statement_ids_cons, Hid. simpl. rewrite IH. reflexivity.
Qed.

Lemma set_links_eq (a : Action) (ins ins' outs outs' : list ActionIO) :
  ins = ins' -> outs = outs' ->
  set_outputs (set_inputs a ins) outs = set_outputs (set_inputs a ins') outs'.
Proof. intros -> ->. reflexivity. Qed.

(** The walk of the recoverer over a loop of [len_loop] statements, from
    the cache [cache0] of a project. *)
Section Walk.

Context (len_loop : nat) (cache0 : gmap string Action).
Hypothesis Hkeyed : keyed_by_id cache0.

Lemma link_action_first (cache : gmap string Action) (i : string) (a : Action) :
  cache0 !! i = Some a ->
  links_rebuilt [] false cache0 cache ->
  exists cache',
    link_action len_loop 0 i a None cache = (None, cache') /\
    links_rebuilt [i] (Nat.eqb 1 len_loop) cache0 cache'.
Proof.
  intros Ha [_ Hother]. unfold link_action.
  assert (Hk : forall k, k ∉ [i] -> i <> k /\ cache !! k = cache0 !! k).
  { intros k Hk. split; [intros ->; apply Hk; left|].
    apply Hother. intros H. inversion H. }
  destruct (Nat.eqb 1 len_loop); (eexists; split; [reflexivity|]); split.
  - intros j x Hj. destruct j as [|j]; [|destruct j; discriminate Hj].
    injection Hj as <-. exists a. split; [exact Ha|].
    rewrite !lookup_alter_eq, lookup_insert_eq. reflexivity.
  - intros k [Hne Hc]%Hk. rewrite !lookup_alter_ne, lookup_insert_ne by exact Hne. exact Hc.
  - intros j x Hj. destruct j as [|j]; [|destruct j; discriminate Hj].
    injection Hj as <-. exists a. split; [exact Ha|].
    rewrite !lookup_alter_eq, lookup_insert_eq. reflexivity.
  - intros k [Hne Hc]%Hk. rewrite !lookup_alter_ne, lookup_insert_ne by exact Hne. exact Hc.
Qed.

Lemma link_action_next (cache : gmap string Action)
  (ids : list string) (p i : string) (a l : Action) :
  NoDup (ids ++ [p]) -> i ∉ ids ++ [p] ->
  cache0 !! i = Some a ->
  act_id l = p ->
  links_rebuilt (ids ++ [p]) false cache0 cache ->
  exists cache',
    link_action len_loop (length (ids ++ [p])) i a (Some l) cache = (None, cache') /\
    links_rebuilt ((ids ++ [p]) ++ [i]) (Nat.eqb (S (length (ids ++ [p]))) len_loop)
      cache0 cache'.
Proof.
  intros Hnd Hi Ha Hl [Hin Hother]. unfold link_action.
  rewrite length_app, Nat.add_comm. simpl length. cbv iota beta.
  assert (Hpi : i <> p).
  { intros ->. apply Hi. apply elem_of_app. right. left. }
  destruct (Hin (length ids) p) as [ap [Hap Hcp]].
  { rewrite lookup_app_r, Nat.sub_diag by lia. reflexivity. }
  assert (Hai : act_id a = i) by (apply (Hkeyed i a Ha)).
  unfold append_output. rewrite Hl.
  rewrite lookup_alter_ne, lookup_insert_ne, Hcp by exact Hpi.
  set (final := alter (add_output (ActionRef (act_id a))) p
                  (alter (add_input (ActionRef p)) i
                     (<[i:=set_outputs (set_inputs a []) []]> cache))).
  assert (Hfinal_i : final !! i = Some (set_outputs (set_inputs a [ActionRef p]) [])).
  { unfold final. rewrite lookup_alter_ne by (intros Heq; apply Hpi; symmetry; exact Heq).
    rewrite lookup_alter_eq, lookup_insert_eq. reflexivity. }
  assert (Hfinal_p : final !! p =
            Some (set_outputs (set_inputs ap (expected_inputs (ids ++ [p]) (length ids)))
                    [ActionRef i])).
  { unfold final. rewrite lookup_alter_eq, lookup_alter_ne, lookup_insert_ne, Hcp by exact Hpi.
    simpl. unfold add_output. simpl. unfold expected_outputs.
    rewrite lookup_ge_None_2 by (rewrite length_app; simpl; lia).
    rewrite Hai. reflexivity. }
  assert (Hfinal_k : forall k, k <> i -> k <> p -> final !! k = cache !! k).
  { intros k Hki Hkp. unfold final.
    rewrite !lookup_alter_ne, lookup_insert_ne by (intros Heq; congruence). reflexivity. }
  assert (Hgoal : forall (closed : bool) (c' : gmap string Action),
            c' !! i = Some (set_outputs (set_inputs a [ActionRef p])
                              (if closed then [LAST] else [])) ->
            (forall k, k <> i -> c' !! k = final !! k) ->
            links_rebuilt ((ids ++ [p]) ++ [i]) closed cache0 c').
  { intros closed c' Hc'i Hc'k. split.
    - intros j x Hj.
      destruct (decide (j = length (ids ++ [p]))) as [->|Hjne].
      + rewrite lookup_app_r, Nat.sub_diag in Hj by lia. injection Hj as <-.
        exists a. split; [exact Ha|]. rewrite Hc'i. apply f_equal, set_links_eq.
        * unfold expected_inputs. rewrite length_app, Nat.add_comm. simpl.
          rewrite lookup_app_l by (rewrite length_app; simpl; lia).
          rewrite lookup_app_r, Nat.sub_diag by lia. reflexivity.
        * unfold expected_outputs. rewrite lookup_ge_None_2; [reflexivity|].
          rewrite !length_app. simpl. lia.
      + assert (Hjlt : j < length (ids ++ [p])).
        { apply lookup_lt_Some in Hj. rewrite length_app in Hj. simpl in Hj. lia. }
        rewrite lookup_app_l in Hj by exact Hjlt.
        assert (Hxi : x <> i).
        { intros ->. apply Hi. apply list_elem_of_lookup. exists j. exact Hj. }
        rewrite (Hc'k x Hxi).
        destruct (decide (j = length ids)) as [->|Hjne2].
        * rewrite lookup_app_r, Nat.sub_diag in Hj by lia. injection Hj as <-.
          exists ap. split; [exact Hap|]. rewrite Hfinal_p. apply f_equal, set_links_eq.
          -- destruct (length ids) eqn:E; simpl; [reflexivity|].
             rewrite (lookup_app_l (ids ++ [p])); [reflexivity|].
             rewrite length_app. simpl. lia.
          -- unfold expected_outputs. rewrite lookup_app_r by (rewrite length_app; simpl; lia).
             rewrite length_app. simpl. replace (S (length ids) - (length ids + 1)) with 0 by lia.
             reflexivity.
        * assert (Hj2 : S j < length (ids ++ [p])).
          { rewrite length_app in *. simpl in *. lia. }
          assert (Hxp : x <> p).
          { intros ->. pose proof (proj1 (NoDup_alt (ids ++ [p])) Hnd) as Hnd'.
            apply Hjne2. apply (Hnd' j (length ids) p Hj).
            rewrite lookup_app_r, Nat.sub_diag by lia. reflexivity. }
          rewrite (Hfinal_k x Hxi Hxp).
          destruct (Hin j x Hj) as [ax [Hax Hcx]]. exists ax. split; [exact Hax|].
          rewrite Hcx. apply f_equal, set_links_eq.
          -- destruct j as [|j]; simpl; [reflexivity|].
             rewrite (lookup_app_l (ids ++ [p])) by lia. reflexivity.
          -- unfold expected_outputs. rewrite (lookup_app_l (ids ++ [p])) by lia.
             destruct ((ids ++ [p]) !! S j) eqn:E; [reflexivity|].
             apply lookup_ge_None in E. lia.
    - intros k Hk.
      assert (Hki : k <> i).
      { intros ->. apply Hk. apply elem_of_app. right. left. }
      assert (Hkp : k ∉ ids ++ [p]).
      { intros H. apply Hk. apply elem_of_app. left. exact H. }
      rewrite (Hc'k k Hki), Hfinal_k; [apply Hother; exact Hkp | exact Hki |].
      intros ->. apply Hkp. apply elem_of_app. right. left. }
  destruct (Nat.eqb _ len_loop); (eexists; split; [reflexivity|]); apply Hgoal.
  - rewrite lookup_alter_eq, Hfinal_i. reflexivity.
  - intros k Hk. apply lookup_alter_ne. intros Heq. apply Hk. symmetry. exact Heq.
  - exact Hfinal_i.
  - reflexivity.
Qed.

Lemma links_rebuilt_refl (closed : bool) :
  links_rebuilt [] closed cache0 cache0.
Proof. split; [intros j i Hj; discriminate Hj | reflexivity]. Qed.

Lemma walk_step_accepted (ids : list string) (st : walk_state) (node : stmt)
  (i : string) :
  NoDup ids -> length ids < len_loop ->
  walk_inv len_loop cache0 ids st ->
  accepted cache0 node = true -> statement_id node = Some i -> i ∉ ids ->
  exists st',
    walk_step len_loop (length ids) node st = (None, st') /\
    walk_inv len_loop cache0 (ids ++ [i]) st'.
Proof.
  intros Hnd Hlen (Hfound & Hlast & Hlinks) Hacc Hid Hi.
  apply accepted_inv in Hacc as (val & obj & method & i' & action & -> & Hparts & Ha & Hc & Hid').
  rewrite Hid' in Hid. injection Hid as ->.
  replace (Nat.eqb (length ids) len_loop) with false in Hlinks
    by (symmetry; apply Nat.eqb_neq; lia).
  assert (Hcache : actions_cache st !! i = Some action).
  { rewrite (proj2 Hlinks i Hi). exact Ha. }
  unfold walk_step. rewrite Hparts.
  destruct (decide (i ∈ found_actions st)) as [Hdup|_].
  { exfalso. apply Hi. rewrite Hfound in Hdup. apply elem_of_list_to_set in Hdup. exact Hdup. }
  rewrite Hcache, Hc.
  assert (Hstep : exists cache',
            link_action len_loop (length ids) i action (last_action st) (actions_cache st)
            = (None, cache') /\
            links_rebuilt (ids ++ [i]) (Nat.eqb (S (length ids)) len_loop) cache0 cache').
  { destruct ids as [|p ids _] using rev_ind.
    - simpl in Hlast. rewrite Hlast. apply link_action_first; assumption.
    - rewrite last_snoc in Hlast. destruct Hlast as (l & -> & Hl).
      apply link_action_next; assumption. }
  destruct Hstep as (cache' & -> & Hlinks').
  eexists. split; [reflexivity|]. split; [|split]; simpl.
  - rewrite list_to_set_app_L, Hfound. simpl.
    rewrite (right_id_L ∅ (∪)). apply (comm_L (∪)).
  - rewrite last_snoc. exists action. split; [reflexivity | apply (Hkeyed i action Ha)].
  - rewrite length_app, Nat.add_comm. exact Hlinks'.
Qed.

Lemma walk_accepted (loop : list stmt) :
  Forall (fun node => accepted cache0 node = true) loop ->
  NoDup (statement_ids loop) ->
  length loop <= len_loop ->
  exists st,
    walk len_loop 0 loop (mk_state ∅ None cache0) = (None, st) /\
    walk_inv len_loop cache0 (statement_ids loop) st.
Proof.
  induction loop as [|node pre IH] using rev_ind; intros Hacc Hnd Hlen.
  - eexists. split; [reflexivity|]. split; [reflexivity|]. split; [reflexivity|].
    apply links_rebuilt_refl.
  - apply Forall_app in Hacc as [Hpre Hnode]. apply (proj1 (Forall_singleton _ _)) in Hnode.
    pose proof Hnode as Hnode'.
    apply accepted_inv in Hnode' as (val & obj & method & i & action & _ & _ & _ & _ & Hid).
    rewrite statement_ids_app, statement_ids_cons, Hid in Hnd |- *.
    change (statement_ids []) with (@nil string) in *.
    apply NoDup_app in Hnd as (Hnd & Hfresh & _).
    rewrite length_app in Hlen. simpl in Hlen.
    destruct (IH Hpre Hnd ltac:(lia)) as (st & Hwalk & Hinv).
    rewrite walk_app, Hwalk. simpl.
    rewrite <- (statement_ids_accepted_length cache0 pre Hpre).
    destruct (walk_step_accepted (statement_ids pre) st node i)
      as (st' & -> & Hinv'); try assumption.
    + rewrite (statement_ids_accepted_length cache0 pre Hpre). lia.
    + intros Hin. apply (Hfresh i Hin). left.
    + exists st'. split; [reflexivity | exact Hinv'].
Qed.

Lemma walk_step_ok_inv (node_idx : nat) (ids : list string) (st st' : walk_state)
  (node : stmt) :
  walk_inv len_loop cache0 ids st ->
  walk_step len_loop node_idx node st = (None, st') ->
  exists i, statement_id node = Some i /\ accepted cache0 node = true /\ i ∉ ids.
Proof.
  intros (Hfound & _ & Hlinks) Hstep. unfold walk_step in Hstep.
  destruct node as [| | | | | | |val| |]; try discriminate Hstep.
  simpl. destruct (call_parts val) as [[[obj method] i]|e]; [|discriminate Hstep].
  destruct (decide (i ∈ found_actions st)) as [|Hfresh]; [discriminate Hstep|].
  assert (Hi : i ∉ ids).
  { intros Hin. apply Hfresh. rewrite Hfound. apply elem_of_list_to_set. exact Hin. }
  rewrite <- (proj2 Hlinks i Hi).
  destruct (actions_cache st !! i) as [action|]; [|discriminate Hstep].
  destruct (corresponds action obj method) as [[]|e]; [|discriminate Hstep].
  exists i. auto.
Qed.

Lemma walk_ok_inv (loop : list stmt) (st : walk_state) :
  length loop <= len_loop ->
  walk len_loop 0 loop (mk_state ∅ None cache0) = (None, st) ->
  Forall (fun node => accepted cache0 node = true) loop /\ NoDup (statement_ids loop).
Proof.
  revert st.
  induction loop as [|node pre IH] using rev_ind; intros st Hlen Hwalk.
  - split; constructor.
  - rewrite length_app in Hlen. simpl in Hlen.
    rewrite walk_app in Hwalk.
    destruct (walk len_loop 0 pre (mk_state ∅ None cache0)) as [[e|] st1] eqn:Hpre.
    { congruence. }
    destruct (IH st1 ltac:(lia) eq_refl) as [Hacc Hnd].
    destruct (walk_accepted pre Hacc Hnd ltac:(lia))
      as (st1' & Hpre' & Hinv).
    rewrite Hpre in Hpre'. injection Hpre' as <-.
    simpl in Hwalk.
    destruct (walk_step len_loop _ node st1) as [[e|] st2] eqn:Hstep;
      [discriminate Hwalk|].
    destruct (walk_step_ok_inv _ _ _ _ _ Hinv Hstep) as (i & Hid & Hnode & Hi).
    split.
    + apply Forall_app. split; [exact Hacc | apply Forall_singleton; exact Hnode].
    + rewrite statement_ids_app, statement_ids_cons, Hid.
      change (statement_ids []) with (@nil string).
      apply NoDup_app. split; [exact Hnd|]. split; [|apply NoDup_singleton].
      intros x Hx Hx'. apply list_elem_of_singleton in Hx'. subst x. exact (Hi Hx).
Qed.

End Walk.

Lemma get_logic_from_source_unfold (tree : module) (project : Project)
  (loop : list stmt) (put : list stmt -> module) :
  main_loop_body tree = Ok (loop, put) ->
  get_logic_from_source tree project =
  let '(e, st) := walk (length loop) 0 loop
                    (mk_state ∅ None (get_actions_cache project).1.1) in
  (e, actions_cache st).
Proof.
  intros H. unfold get_logic_from_source. rewrite H.
  destruct (get_actions_cache project) as [[cache f] l]. reflexivity.
Qed.

(** C7, as amended.  When the loop refers to an action id a second time,
    and the statements before that second occurrence are calls of the
    expected shape to distinct actions of the project that agree with their
    types, [get_logic_from_source] raises the duplicate-action error, and the
    cache it leaves is the original one with the links of exactly the actions
    of those earlier statements rebuilt (the first occurrence among them, its
    outputs still empty if it is the latest) and no other action touched. *)
Theorem duplicate_action_rejected
  (tree : module) (project : Project) (loop pre post : list stmt)
  (put : list stmt -> module) (node : stmt) (i : string)
  (Hloop : main_loop_body tree = Ok (loop, put))
  (Hsplit : loop = pre ++ node :: post)
  (Hid : statement_id node = Some i)
  (Hseen : i ∈ statement_ids pre)
  (Hpre : Forall (fun n => accepted (get_actions_cache project).1.1 n = true) pre)
  (Hnd : NoDup (statement_ids pre)) :
  exists cache',
    get_logic_from_source tree project =
    (Some (GenerateSourceException ("Duplicate action: " ++ i ++ ".")), cache')
    /\ links_rebuilt (statement_ids pre) false (get_actions_cache project).1.1 cache'.
Proof.
  rewrite (get_logic_from_source_unfold tree project loop put Hloop).
  set (cache0 := (get_actions_cache project).1.1) in *.
  assert (Hlen : length pre < length loop).
  { subst loop. rewrite length_app. simpl. lia. }
  destruct (walk_accepted (length loop) cache0 (get_actions_cache_keyed project) pre
              Hpre Hnd ltac:(lia)) as (st & Hwalk & Hfound & _ & Hlinks).
  assert (Hw : walk (length loop) 0 loop (mk_state ∅ None cache0)
               = walk (length loop) 0 (pre ++ node :: post) (mk_state ∅ None cache0))
    by (rewrite <- Hsplit; reflexivity).
  rewrite Hw, walk_app, Hwalk. simpl.
  destruct node as [| | | | | | |val| |]; try discriminate Hid.
  simpl in Hid. unfold walk_step.
  destruct (call_parts val) as [[[obj method] i']|e]; [|discriminate Hid].
  injection Hid as ->.
  destruct (decide (i ∈ found_actions st)) as [_|Hfresh].
  - exists (actions_cache st). split; [reflexivity|].
    replace (Nat.eqb (length (statement_ids pre)) (length loop)) with false in Hlinks;
      [exact Hlinks|].
    symmetry. apply Nat.eqb_neq.
    rewrite (statement_ids_accepted_length cache0 pre Hpre). lia.
  - exfalso. apply Hfresh. rewrite Hfound. apply elem_of_list_to_set. exact Hseen.
Qed.

Lemma duplicate_action_rejected_witness :
  exists cache',
    get_logic_from_source move1_again two_step_project =
    (Some (GenerateSourceException "Duplicate action: move1."), cache')
    /\ links_rebuilt ["move1"; "act2"] false (get_actions_cache two_step_project).1.1 cache'.
Proof.
  apply (duplicate_action_rejected move1_again two_step_project
           [call_stmt "robot" "move_to" "move1"; call_stmt "robot" "move_to" "act2";
            call_stmt "robot" "move_to" "move1"]
           [call_stmt "robot" "move_to" "move1"; call_stmt "robot" "move_to" "act2"]
           []
           (fun l => script robot_imports robot_assigns l)
           (call_stmt "robot" "move_to" "move1") "move1").
  - reflexivity.
  - reflexivity.
  - reflexivity.
  - left.
  - repeat constructor.
  - repeat constructor; intros H; inversion H; subst;
      match goal with Hx : _ ∈ [] |- _ => inversion Hx end.
Defined.

(** C7, counterexample.  The loop refers to the action id [ghost] in two
    statements, and the error is not the duplicate-action error: the first
    occurrence already fails, the project having no such action. *)
Lemma ghost_twice_unknown_action :
  statement_ids [call_stmt "robot" "move_to" "ghost"; call_stmt "robot" "move_to" "ghost"]
  = ["ghost"; "ghost"]
  /\ main_loop_body ghost_twice
     = Ok ([call_stmt "robot" "move_to" "ghost"; call_stmt "robot" "move_to" "ghost"],
           fun l => script robot_imports robot_assigns l)
  /\ (get_logic_from_source ghost_twice two_step_project).1
     = Some (GenerateSourceException "Unknown action ghost.").
Proof. split; [|split]; reflexivity. Qed.

Lemma is_first_set_links (a : Action) (ins outs : list ActionIO) :
  is_first (set_outputs (set_inputs a ins) outs) = starts_with FIRST ins.
Proof. reflexivity. Qed.

Lemma is_last_set_links (a : Action) (ins outs : list ActionIO) :
  is_last (set_outputs (set_inputs a ins) outs) = starts_with LAST outs.
Proof. reflexivity. Qed.

(** After a walk over the whole loop, the first statement's action is the
    only rebuilt one that starts with [FIRST], the last statement's action the
    only rebuilt one that ends with [LAST]. *)
Lemma rebuilt_first_last (ids : list string) (cache0 cache : gmap string Action) :
  ids <> [] ->
  links_rebuilt ids true cache0 cache ->
  (forall k, is_Some (cache0 !! k) -> k ∈ ids) ->
  (exists ! k, exists a, cache !! k = Some a /\ is_first a = true)
  /\ (exists ! k, exists a, cache !! k = Some a /\ is_last a = true).
Proof.
  intros Hne [Hin Hother] Hcover.
  assert (Hids : forall k a, cache !! k = Some a -> exists j a0,
            ids !! j = Some k /\
            a = set_outputs (set_inputs a0 (expected_inputs ids j))
                  (expected_outputs ids true j)).
  { intros k a Hk. destruct (decide (k ∈ ids)) as [Hkin|Hkout].
    - apply list_elem_of_lookup in Hkin as [j Hj].
      destruct (Hin j k Hj) as (a0 & _ & Hc). rewrite Hc in Hk. injection Hk as <-.
      exists j, a0. split; [exact Hj | reflexivity].
    - exfalso. apply Hkout, Hcover. rewrite <- (Hother k Hkout), Hk. eexists. reflexivity. }
  split.
  - destruct ids as [|i0 ids']; [contradiction|].
    destruct (Hin 0 i0 eq_refl) as (a0 & _ & Hc0).
    exists i0. split.
    + eexists. split; [exact Hc0 | reflexivity].
    + intros k (a & Hk & Hfirst).
      destruct (Hids k a Hk) as (j & a1 & Hj & ->).
      rewrite is_first_set_links in Hfirst.
      destruct j as [|j]; [injection Hj as ->; reflexivity|].
      simpl in Hfirst. destruct ((i0 :: ids') !! j); discriminate Hfirst.
  - destruct ids as [|il ids' _] using rev_ind; [contradiction|].
    assert (Hl : (ids' ++ [il]) !! length ids' = Some il).
    { rewrite lookup_app_r, Nat.sub_diag by lia. reflexivity. }
    assert (Hend : (ids' ++ [il]) !! S (length ids') = None).
    { apply lookup_ge_None_2. rewrite length_app. simpl. lia. }
    destruct (Hin _ il Hl) as (a0 & _ & Hc0).
    exists il. split.
    + eexists. split; [exact Hc0|].
      rewrite is_last_set_links. unfold expected_outputs. rewrite Hend. reflexivity.
    + intros k (a & Hk & Hlast).
      destruct (Hids k a Hk) as (j & a1 & Hj & ->).
      rewrite is_last_set_links in Hlast. unfold expected_outputs in Hlast.
      destruct ((ids' ++ [il]) !! S j) eqn:Hnext; [discriminate Hlast|].
      apply lookup_ge_None in Hnext. apply lookup_lt_Some in Hj as Hlt.
      rewrite length_app in Hnext, Hlt. simpl in Hnext, Hlt.
      assert (j = length ids') as -> by lia.
      rewrite Hl in Hj. injection Hj as ->. reflexivity.
Qed.

(** C9, as amended.  When [get_logic_from_source] returns without error on
    a text whose loop is not empty and refers to every action of the cache,
    exactly one action of the cache has [inputs[0] == FIRST] and exactly one
    has [outputs[0] == LAST]. *)
Theorem recovered_graph_one_first_one_last
  (tree : module) (project : Project) (loop : list stmt)
  (put : list stmt -> module) (cache' : gmap string Action)
  (Hloop : main_loop_body tree = Ok (loop, put))
  (Hok : get_logic_from_source tree project = (None, cache'))
  (Hne : loop <> [])
  (Hcover : forall k, is_Some ((get_actions_cache project).1.1 !! k) ->
                      k ∈ statement_ids loop) :
  (exists ! k, exists a, cache' !! k = Some a /\ is_first a = true)
  /\ (exists ! k, exists a, cache' !! k = Some a /\ is_last a = true).
Proof.
  rewrite (get_logic_from_source_unfold tree project loop put Hloop) in Hok.
  set (cache0 := (get_actions_cache project).1.1) in *.
  pose proof (get_actions_cache_keyed project) as Hkeyed. fold cache0 in Hkeyed.
  destruct (walk (length loop) 0 loop (mk_state ∅ None cache0)) as [e st] eqn:Hwalk.
  injection Hok as -> <-.
  destruct (walk_ok_inv (length loop) cache0 Hkeyed loop st (le_n _) Hwalk) as [Hacc Hnd].
  destruct (walk_accepted (length loop) cache0 Hkeyed loop Hacc Hnd (le_n _))
    as (st' & Hwalk' & _ & _ & Hlinks).
  rewrite Hwalk in Hwalk'. injection Hwalk' as <-.
  rewrite (statement_ids_accepted_length cache0 loop Hacc), Nat.eqb_refl in Hlinks.
  apply (rebuilt_first_last (statement_ids loop) cache0); try assumption.
  intros Hnil. apply Hne. apply length_zero_iff_nil.
  rewrite <- (statement_ids_accepted_length cache0 loop Hacc), Hnil. reflexivity.
Qed.

Lemma recovered_graph_one_first_one_last_witness :
  (exists ! k, exists a,
      (get_logic_from_source act2_move1 two_step_project).2 !! k = Some a
      /\ is_first a = true)
  /\ (exists ! k, exists a,
      (get_logic_from_source act2_move1 two_step_project).2 !! k = Some a
      /\ is_last a = true).
Proof.
  apply (recovered_graph_one_first_one_last act2_move1 two_step_project
           [call_stmt "robot" "move_to" "act2"; call_stmt "robot" "move_to" "move1"]
           (fun l => script robot_imports robot_assigns l)).
  - reflexivity.
  - reflexivity.
  - discriminate.
  - intros k [a Ha].
    apply get_actions_cache_lookup in Ha as [Hin <-];
      [|decide_NoDup].
    destruct Hin as [<-|[<-|[]]]; [right; left | left].
Defined.

(** C9, counterexample.  The loop calls [act2] only; the call returns
    without error, and afterwards both [act2] and the omitted [move1] have
    [inputs[0] == FIRST]. *)
Lemma omitted_action_keeps_first :
  (get_logic_from_source act2_only two_step_project).1 = None
  /\ ~ (exists ! k, exists a,
          (get_logic_from_source act2_only two_step_project).2 !! k = Some a
          /\ is_first a = true).
Proof.
  split; [reflexivity|].
  intros (k & _ & Huniq).
  assert (H1 : k = "move1").
  { apply Huniq. exists move1. split; reflexivity. }
  assert (H2 : k = "act2").
  { apply Huniq. eexists. split; reflexivity. }
  rewrite H1 in H2. discriminate H2.
Qed.

(** ** Tree utilities on the shape of the script *)

Lemma FindFunction_visit_import (name : string) (node : stmt) (put : stmt -> module)
  (fn : option node_ref) :
  isinstance_ImportFrom node = true -> FindFunction_visit name node put fn = fn.
Proof. destruct node; try discriminate. reflexivity. Qed.

Lemma FindFunction_visit_body_imports (name : string) (imports rest seen : list stmt)
  (fn : option node_ref) :
  Forall (fun node => isinstance_ImportFrom node = true) imports ->
  FindFunction_visit_body name seen (imports ++ rest) fn =
  FindFunction_visit_body name (seen ++ imports) rest fn.
Proof.
  intros Himp. revert seen. induction Himp as [|node imports Hnode _ IH]; intros seen.
  - rewrite app_nil_r. reflexivity.
  - simpl. rewrite (FindFunction_visit_import name node _ fn Hnode), IH, <- app_assoc.
    reflexivity.
Qed.

Lemma find_function_main (imports assigns loop : list stmt) :
  Forall (fun node => isinstance_ImportFrom node = true) imports ->
  exists put,
    find_function "main" (script imports assigns loop) = Ok (main_def assigns loop, put)
    /\ forall node, put node = Module (imports ++ [node; entry_guard]).
Proof.
  intros Himp. unfold find_function, script. simpl module_body.
  rewrite (FindFunction_visit_body_imports "main" imports _ [] None Himp).
  eexists. split; [reflexivity|]. intros node. reflexivity.
Qed.

Lemma first_while_assigns (assigns seen rest : list stmt) (test : expr)
  (body orelse : list stmt) (put : list stmt -> module) :
  Forall (fun node => simple_assign node = true) assigns ->
  exists put',
    first_while seen (assigns ++ While test body orelse :: rest) put = Ok (body, put')
    /\ forall body', put' body' = put (seen ++ assigns ++ While test body' orelse :: rest).
Proof.
  intros Hass. revert seen. induction Hass as [|node assigns Hnode _ IH]; intros seen.
  - eexists. split; [reflexivity|]. intros body'. reflexivity.
  - destruct (IH (seen ++ [node])) as (put' & Hfw & Hput).
    exists put'. split.
    + destruct node; try discriminate Hnode; exact Hfw.
    + intros body'. rewrite Hput, <- app_assoc. reflexivity.
Qed.

Lemma main_loop_body_script (imports assigns loop : list stmt) :
  Forall (fun node => isinstance_ImportFrom node = true) imports ->
  Forall (fun node => simple_assign node = true) assigns ->
  exists put,
    main_loop_body (script imports assigns loop) = Ok (loop, put)
    /\ forall loop', put loop' = script imports assigns loop'.
Proof.
  intros Himp Hass. unfold main_loop_body.
  destruct (find_function_main imports assigns loop Himp) as (put & -> & Hput).
  simpl.
  destruct (first_while_assigns assigns [] [] (NameConstant CTrue) loop []
              (fun body' => put (FunctionDef "main" [] body' [] (Some (NameConstant CNone))))
              Hass) as (put' & -> & Hput').
  exists put'. split; [reflexivity|].
  intros loop'. rewrite Hput', Hput. reflexivity.
Qed.

Lemma AddImportTransformer_visit_FunctionDef (m c n : string) (args : list arg)
  (body : list stmt) (decs : list expr) (rt : option expr) (done : bool) :
  AddImportTransformer_visit m c (FunctionDef n args body decs rt) done =
  let '(body', done') := AddImportTransformer_visit_body m c body done in
  (FunctionDef n args body' decs rt, done').
Proof.
  simpl.
  match goal with
  | |- (let '(_, _) := ?f body done in _) = _ =>
      assert (Hfix : forall todo d, f todo d = AddImportTransformer_visit_body m c todo d)
  end.
  { induction todo as [|child rest IH]; intros d; simpl; [reflexivity|].
    destruct (AddImportTransformer_visit m c child d) as [child' d1].
    rewrite IH. reflexivity. }
  rewrite Hfix. reflexivity.
Qed.

Lemma AddImportTransformer_visit_body_app (m c : string) (l1 l2 : list stmt) (done : bool) :
  AddImportTransformer_visit_body m c (l1 ++ l2) done =
  let '(l1', d1) := AddImportTransformer_visit_body m c l1 done in
  let '(l2', d2) := AddImportTransformer_visit_body m c l2 d1 in
  (l1' ++ l2', d2).
Proof.
  revert done. induction l1 as [|node l1 IH]; intros done; simpl.
  - destruct (AddImportTransformer_visit_body m c l2 done). reflexivity.
  - destruct (AddImportTransformer_visit m c node done) as [node' d1].
    rewrite IH.
    destruct (AddImportTransformer_visit_body m c l1 d1) as [l1' d2].
    destruct (AddImportTransformer_visit_body m c l2 d2) as [l2' d3].
    reflexivity.
Qed.

Lemma AddImportTransformer_visit_body_assigns (m c : string) (assigns : list stmt)
  (done : bool) :
  Forall (fun node => simple_assign node = true) assigns ->
  AddImportTransformer_visit_body m c assigns done = (assigns, done).
Proof.
  induction 1 as [|node assigns Hnode _ IH]; simpl; [reflexivity|].
  destruct node; try discriminate Hnode; simpl; rewrite IH; reflexivity.
Qed.

Lemma AddImportTransformer_visit_body_imports (m c : string) (imports : list stmt)
  (done : bool) :
  Forall (fun node => isinstance_ImportFrom node = true) imports ->
  Forall (fun node => isinstance_ImportFrom node = true)
    (AddImportTransformer_visit_body m c imports done).1.
Proof.
  intros Himp. revert done. induction Himp as [|node imports Hnode _ IH]; intros done; simpl.
  - constructor.
  - destruct (AddImportTransformer_visit m c node done) as [node' d1] eqn:Hv.
    specialize (IH d1).
    destruct (AddImportTransformer_visit_body m c imports d1) as [rest' d2].
    simpl in *. constructor; [|exact IH].
    destruct node as [| | | |mo names level| | | | |]; try discriminate Hnode. simpl in Hv.
    destruct (String.eqb mo m); [|injection Hv as <- _; reflexivity].
    destruct (existsb _ names); injection Hv as <- _; reflexivity.
Qed.

Lemma AddImportTransformer_visit_main (m c : string) (assigns : list stmt) (done : bool) :
  Forall (fun node => simple_assign node = true) assigns ->
  AddImportTransformer_visit m c (main_def assigns [Pass]) done
  = (main_def assigns [Pass], done).
Proof.
  intros Hass. unfold main_def.
  rewrite AddImportTransformer_visit_FunctionDef, AddImportTransformer_visit_body_app,
    (AddImportTransformer_visit_body_assigns m c assigns done Hass).
  reflexivity.
Qed.

Lemma add_import_script (imports assigns : list stmt) (m c : string) :
  Forall (fun node => isinstance_ImportFrom node = true) imports ->
  Forall (fun node => simple_assign node = true) assigns ->
  exists imports',
    add_import (script imports assigns [Pass]) m c = script imports' assigns [Pass]
    /\ Forall (fun node => isinstance_ImportFrom node = true) imports'.
Proof.
  intros Himp Hass. unfold add_import, script. simpl module_body.
  rewrite AddImportTransformer_visit_body_app.
  pose proof (AddImportTransformer_visit_body_imports m c imports false Himp) as Himp'.
  destruct (AddImportTransformer_visit_body m c imports false) as [imports' d1].
  simpl in Himp'.
  change (AddImportTransformer_visit_body m c [main_def assigns [Pass]; entry_guard] d1)
    with (let '(child', d2) := AddImportTransformer_visit m c (main_def assigns [Pass]) d1 in
          let '(rest', d3) := AddImportTransformer_visit_body m c [entry_guard] d2 in
          (child' :: rest', d3)).
  rewrite (AddImportTransformer_visit_main m c assigns d1 Hass).
  change (AddImportTransformer_visit_body m c [entry_guard] d1) with ([entry_guard], d1).
  cbv iota beta.
  destruct d1.
  - exists imports'. split; [reflexivity | exact Himp'].
  - exists (ImportFrom m [Alias c None] 0 :: imports'). split; [reflexivity|].
    constructor; [reflexivity | exact Himp'].
Qed.

Lemma last_assign_idx_loop_assigns (assigns rest : list stmt) (idx : nat)
  (acc : option nat) :
  Forall (fun node => simple_assign node = true) assigns ->
  Forall (fun node => simple_assign node = false) rest ->
  last_assign_idx_loop idx (assigns ++ rest) acc =
  match assigns with
  | [] => acc
  | _ => Some (idx + length assigns - 1)
  end.
Proof.
  intros Hass Hrest. revert idx acc.
  induction Hass as [|node assigns Hnode _ IH]; intros idx acc.
  - simpl. revert idx acc. induction Hrest as [|node rest Hnode _ IH]; intros idx acc;
      [reflexivity|].
    simpl. rewrite IH. destruct node; try discriminate Hnode; reflexivity.
  - simpl. rewrite IH.
    destruct assigns as [|node' assigns].
    + destruct node; try discriminate Hnode; simpl; f_equal; lia.
    + simpl. f_equal. lia.
Qed.

Lemma object_instance_from_res_script (imports assigns : list stmt)
  (object_id cls_name : string) :
  Forall (fun node => isinstance_ImportFrom node = true) imports ->
  Forall (fun node => simple_assign node = true) assigns ->
  assigns <> [] ->
  object_instance_from_res (script imports assigns [Pass]) object_id cls_name =
  Ok (script imports
        (assigns ++
         [AnnAssign (Name (fix_object_name object_id)) (Name cls_name)
            (Subscript (Attribute (Name "res") "objects") (Str object_id))])
        [Pass]).
Proof.
  intros Himp Hass Hne. unfold object_instance_from_res.
  destruct (find_function_main imports assigns [Pass] Himp) as (put & -> & Hput).
  simpl.
  rewrite (last_assign_idx_loop_assigns assigns [While (NameConstant CTrue) [Pass] []] 0 None
             Hass ltac:(repeat constructor)).
  destruct assigns as [|a0 assigns']; [contradiction|].
  set (assigns := a0 :: assigns') in *.
  rewrite Hput. unfold script, main_def, list_insert_at.
  replace (0 + length assigns - 1 + 1) with (length assigns) by (simpl; lia).
  rewrite take_app_length, drop_app_length, <- app_assoc. reflexivity.
Qed.

Lemma scene_objects_loop_script (objs : list SceneObject) (built_in_objects : gset string)
  (imports assigns : list stmt) :
  Forall (fun node => isinstance_ImportFrom node = true) imports ->
  Forall (fun node => simple_assign node = true) assigns ->
  assigns <> [] ->
  exists imports' assigns',
    scene_objects_loop (script imports assigns [Pass]) objs built_in_objects
    = Ok (script imports' assigns' [Pass])
    /\ Forall (fun node => isinstance_ImportFrom node = true) imports'
    /\ Forall (fun node => simple_assign node = true) assigns'.
Proof.
  revert imports assigns. induction objs as [|obj rest IH]; intros imports assigns Himp Hass Hne.
  - exists imports, assigns. auto.
  - simpl.
    assert (Himport : exists imports1,
              (if decide (obj_type obj ∈ built_in_objects)
               then add_import (script imports assigns [Pass]) "arcor2.object_types" (obj_type obj)
               else add_import (script imports assigns [Pass])
                      ("object_types." ++ convert_cc (obj_type obj)) (obj_type obj))
              = script imports1 assigns [Pass]
              /\ Forall (fun node => isinstance_ImportFrom node = true) imports1).
    { destruct (decide (obj_type obj ∈ built_in_objects)); apply add_import_script; assumption. }
    destruct Himport as (imports1 & -> & Himp1).
    rewrite (object_instance_from_res_script imports1 assigns _ _ Himp1 Hass Hne). simpl.
    apply IH.
    + exact Himp1.
    + apply Forall_app. split; [exact Hass | repeat constructor].
    + intros H. apply app_eq_nil in H as [_ H]. discriminate H.
Qed.

Lemma script_tree_script (scene : Scene) (built_in_objects : gset string) :
  exists imports assigns,
    script_tree scene built_in_objects = Ok (script imports assigns [Pass])
    /\ Forall (fun node => isinstance_ImportFrom node = true) imports
    /\ Forall (fun node => simple_assign node = true) assigns.
Proof.
  unfold script_tree.
  change (add_cls_inst (add_import empty_script_tree "resources" "Resources") "Resources" "res")
    with (Ok (script [ImportFrom "resources" [Alias "Resources" None] 0]
                [Assign [Name "res"] (Call (Name "Resources") [] [])] [Pass])).
  simpl. apply scene_objects_loop_script.
  - repeat constructor.
  - repeat constructor.
  - discriminate.
Qed.

(** ** Script emitter *)

Lemma clear_pass_snoc (loop : list stmt) (val : expr) :
  clear_pass (loop ++ [Expr val]) = loop ++ [Expr val].
Proof.
  destruct loop as [|node [|node' rest]]; [reflexivity| |]; destruct node; reflexivity.
Qed.

Lemma add_logic_while_chain (cache : gmap string Action) (last_action_id : string)
  (path : list Action) :
  forall (key : ActionIO) (loop : list stmt) (fuel : nat),
    chain cache last_action_id key path ->
    length path <= fuel ->
    add_logic_while fuel cache last_action_id key loop
    = Some (Ok (clear_pass loop ++ map action_stmt path)).
Proof.
  induction path as [|act rest IH]; intros key loop fuel Hchain Hfuel; [destruct Hchain|].
  destruct Hchain as (Hget & Hsplit & Hrest).
  destruct fuel as [|fuel]; [simpl in Hfuel; lia|].
  simpl in Hfuel. simpl add_logic_while. rewrite Hget.
  destruct (split_type (act_type act)) as [[obj method]|e] eqn:Htype; [|discriminate Hsplit].
  assert (Hstmt : action_stmt act = call_stmt obj method (act_id act)).
  { unfold action_stmt. rewrite Htype. reflexivity. }
  rewrite (action_call_stmt _ act obj method Htype).
  simpl map. rewrite Hstmt.
  destruct (String.eqb (act_id act) last_action_id).
  - subst rest. reflexivity.
  - destruct Hrest as (out & outs & -> & Hrest).
    rewrite (IH out _ fuel Hrest ltac:(lia)).
    unfold call_stmt at 1. rewrite clear_pass_snoc, <- app_assoc. reflexivity.
Qed.


Lemma add_logic_to_loop_script (fuel : nat) (project : Project)
  (imports assigns loop : list stmt) :
  Forall (fun node => isinstance_ImportFrom node = true) imports ->
  Forall (fun node => simple_assign node = true) assigns ->
  add_logic_to_loop fuel (script imports assigns loop) project =
  match (get_actions_cache project).1.2 with
  | None => Some (Raise (GenerateSourceException "'start' action not found."))
  | Some first_id =>
      match (get_actions_cache project).2 with
      | None => Some (Raise (GenerateSourceException "'end' action not found."))
      | Some last_id =>
          match add_logic_while fuel (get_actions_cache project).1.1 last_id
                  (ActionRef first_id) loop with
          | None => None
          | Some (Raise e) => Some (Raise e)
          | Some (Ok loop') => Some (Ok (script imports assigns loop'))
          end
      end
  end.
Proof.
  intros Himp Hass. unfold add_logic_to_loop.
  destruct (main_loop_body_script imports assigns loop Himp Hass) as (put & -> & Hput).
  destruct (get_actions_cache project) as [[cache [f|]] [l|]]; simpl; try reflexivity.
  destruct (add_logic_while fuel cache l (ActionRef f) loop) as [[loop'|e]|];
    try reflexivity.
  rewrite Hput. reflexivity.
Qed.

(** What [program_src] returns, in terms of the reported ids and of the
    loop of [add_logic_to_loop]. *)
Lemma program_src_script (fuel : nat) (project : Project) (scene : Scene)
  (built_in_objects : gset string) :
  exists imports assigns,
    Forall (fun node => isinstance_ImportFrom node = true) imports
    /\ Forall (fun node => simple_assign node = true) assigns
    /\ program_src fuel project scene built_in_objects =
       match (get_actions_cache project).1.2 with
       | None => Some (Raise (GenerateSourceException "'start' action not found."))
       | Some first_id =>
           match (get_actions_cache project).2 with
           | None => Some (Raise (GenerateSourceException "'end' action not found."))
           | Some last_id =>
               match add_logic_while fuel (get_actions_cache project).1.1 last_id
                       (ActionRef first_id) [Pass] with
               | None => None
               | Some (Raise e) => Some (Raise e)
               | Some (Ok loop') => Some (Ok (script imports assigns loop'))
               end
           end
       end.
Proof.
  destruct (script_tree_script scene built_in_objects) as (imports & assigns & Htree & Himp & Hass).
  exists imports, assigns. split; [exact Himp|]. split; [exact Hass|].
  unfold program_src. rewrite Htree.
  apply add_logic_to_loop_script; assumption.
Qed.

Lemma program_src_chain (fuel : nat) (project : Project) (scene : Scene)
  (built_in_objects : gset string) (cache : gmap string Action) (f l : string)
  (path : list Action) :
  get_actions_cache project = (cache, Some f, Some l) ->
  chain cache l (ActionRef f) path ->
  length path <= fuel ->
  exists imports assigns,
    Forall (fun node => isinstance_ImportFrom node = true) imports
    /\ Forall (fun node => simple_assign node = true) assigns
    /\ program_src fuel project scene built_in_objects
       = Some (Ok (script imports assigns (map action_stmt path))).
Proof.
  intros Hcache Hchain Hfuel.
  destruct (program_src_script fuel project scene built_in_objects)
    as (imports & assigns & Himp & Hass & Hsrc).
  exists imports, assigns. split; [exact Himp|]. split; [exact Hass|].
  rewrite Hsrc, Hcache. simpl.
  rewrite (add_logic_while_chain cache l path _ [Pass] fuel Hchain Hfuel). reflexivity.
Qed.








(** ** Round trip *)

Lemma set_links_id (a : Action) :
  set_outputs (set_inputs a (inputs a)) (outputs a) = a.
Proof. destruct a. reflexivity. Qed.

Lemma statement_ids_action_stmts (path : list Action) :
  Forall (fun a => is_ok (split_type (act_type a)) = true) path ->
  statement_ids (map action_stmt path) = map act_id path.
Proof.
  induction 1 as [|a rest Ha _ IH]; [reflexivity|].
  simpl map. rewrite statement_ids_cons, IH. unfold action_stmt.
  destruct (split_type (act_type a)) as [[obj method]|e]; [reflexivity | discriminate Ha].
Qed.

Lemma accepted_action_stmt (cache : gmap string Action) (a : Action) :
  cache !! act_id a = Some a ->
  is_ok (split_type (act_type a)) = true ->
  (forall obj method, split_type (act_type a) = Ok (obj, method) ->
                      contains " " (convert_cc obj) = false) ->
  accepted cache (action_stmt a) = true.
Proof.
  intros Hc Hsplit Hname. unfold action_stmt.
  destruct (split_type (act_type a)) as [[obj method]|e] eqn:Htype; [|discriminate Hsplit].
  simpl. rewrite Hc.
  assert (Hok : corresponds a (fix_object_name obj) method = Ok tt).
  { apply (corresponds_ok_iff a obj method _ _ Htype). split; [|reflexivity].
    symmetry. apply replace_fixpoint_iff. apply (Hname obj method eq_refl). }
  rewrite Hok. reflexivity.
Qed.

(** A path with single links is the walk of the emitter. *)
Lemma single_links_chain (cache : gmap string Action) (path : list Action) (z : Action) :
  NoDup (map act_id path) ->
  single_links path ->
  last path = Some z ->
  (forall a, a ∈ path -> cache !! act_id a = Some a /\ is_ok (split_type (act_type a)) = true) ->
  forall pre a suf, path = pre ++ a :: suf ->
    chain cache (act_id z) (ActionRef (act_id a)) (a :: suf).
Proof.
  intros Hnd Hlinks Hlast Hcache pre a suf. revert pre a.
  induction suf as [|b suf IH]; intros pre a Hpath.
  - simpl. destruct (Hcache a) as [Hc Hs].
    { rewrite Hpath. apply elem_of_app. right. left. }
    rewrite Hc. split; [reflexivity|]. split; [exact Hs|].
    rewrite Hpath, last_snoc in Hlast. injection Hlast as <-.
    rewrite String.eqb_refl. reflexivity.
  - destruct (Hcache a) as [Hc Hs].
    { rewrite Hpath. apply elem_of_app. right. left. }
    change (chain cache (act_id z) (ActionRef (act_id a)) (a :: b :: suf))
      with (cache_get cache (ActionRef (act_id a)) = Ok a /\
            is_ok (split_type (act_type a)) = true /\
            if String.eqb (act_id a) (act_id z) then b :: suf = []
            else exists out outs, outputs a = out :: outs /\
                                  chain cache (act_id z) out (b :: suf)).
    simpl cache_get. rewrite Hc. split; [reflexivity|]. split; [exact Hs|].
    assert (Ha : path !! length pre = Some a).
    { rewrite Hpath, lookup_app_r, Nat.sub_diag by lia. reflexivity. }
    assert (Hb : path !! S (length pre) = Some b).
    { rewrite Hpath, lookup_app_r by lia.
      replace (S (length pre) - length pre) with 1 by lia. reflexivity. }
    destruct (String.eqb (act_id a) (act_id z)) eqn:Heq.
    + exfalso. apply String.eqb_eq in Heq.
      assert (Hz : path !! (length path - 1) = Some z).
      { rewrite <- Hlast. rewrite last_lookup. f_equal. lia. }
      pose proof (proj1 (NoDup_alt (map act_id path)) Hnd (length pre) (length path - 1)
                    (act_id a)) as Hinj.
      rewrite !list_lookup_fmap, Ha, Hz in Hinj. simpl in Hinj.
      specialize (Hinj eq_refl (f_equal Some (eq_sym Heq))).
      rewrite Hpath, length_app in Hinj. simpl in Hinj. lia.
    + destruct (Hlinks _ a Ha) as [_ Hout].
      unfold expected_outputs in Hout. rewrite list_lookup_fmap, Hb in Hout. simpl in Hout.
      exists (ActionRef (act_id b)), []. split; [exact Hout|].
      apply (IH (pre ++ [a]) b). rewrite Hpath, <- app_assoc. reflexivity.
Qed.

Lemma single_links_first (path : list Action) (j : nat) (a : Action) :
  single_links path -> path !! j = Some a -> is_first a = true -> j = 0.
Proof.
  intros Hlinks Hj Hfirst. destruct (Hlinks j a Hj) as [Hin _].
  unfold is_first in Hfirst. rewrite Hin in Hfirst.
  destruct j as [|j]; [reflexivity|]. simpl in Hfirst.
  destruct (map act_id path !! j); discriminate Hfirst.
Qed.

Lemma single_links_last (path : list Action) (j : nat) (a : Action) :
  single_links path -> path !! j = Some a -> is_last a = true -> S j = length path.
Proof.
  intros Hlinks Hj Hlast. destruct (Hlinks j a Hj) as [_ Hout].
  unfold is_last in Hlast. rewrite Hout in Hlast. unfold expected_outputs in Hlast.
  destruct (map act_id path !! S j) eqn:Hnext; [discriminate Hlast|].
  apply lookup_ge_None in Hnext. rewrite length_map in Hnext.
  apply lookup_lt_Some in Hj. lia.
Qed.

Lemma rebuilt_single_links (path : list Action) (cache0 cache : gmap string Action) :
  single_links path ->
  (forall a, a ∈ path -> cache0 !! act_id a = Some a) ->
  links_rebuilt (map act_id path) true cache0 cache ->
  cache = cache0.
Proof.
  intros Hlinks Hcache [Hin Hother]. apply map_eq. intros k.
  destruct (decide (k ∈ map act_id path)) as [Hk|Hk]; [|apply Hother; exact Hk].
  apply list_elem_of_lookup in Hk as [j Hj].
  destruct (Hin j k Hj) as (a' & Ha' & ->).
  rewrite list_lookup_fmap in Hj.
  destruct (path !! j) as [a|] eqn:Hpj; [|discriminate Hj].
  injection Hj as <-.
  rewrite (Hcache a) in Ha' by (apply list_elem_of_lookup; exists j; exact Hpj).
  injection Ha' as <-.
  destruct (Hlinks j a Hpj) as [<- <-].
  rewrite set_links_id. symmetry. apply Hcache.
  apply list_elem_of_lookup. exists j. exact Hpj.
Qed.

(** C1, as amended.  For every project and scene that satisfy invariants
    1 to 4, in which every action has exactly the link to its predecessor in
    the chain as inputs ([FIRST] for the first) and exactly the link to its
    successor as outputs ([LAST] for the last), and in which the emitter and
    the recoverer agree on the variable name of every action's object
    ([convert_cc] of the object id has no space): the emitter returns a
    program, and the recoverer, run on any parsed text whose main loop holds
    the statements that the emitter wrote, raises nothing and leaves the
    action cache as it was, every action with its id and its links.  That
    the text of the program is read back with these statements is a premise:
    rendering and parsing are not part of the repository, and a name that is
    not an identifier of Python (an action id with a hyphen, an object id
    with a dot) is not read back as it was written. *)
Theorem round_trip_rebuilds_links
  (project : Project) (scene : Scene) (built_in_objects : gset string)
  (catalog : gmap string (list ObjectAction)) (path : list Action) (fuel : nat)
  (H1 : invariant1 project)
  (H2 : invariant2 project path)
  (H3 : invariant3 project scene catalog)
  (H4 : invariant4 scene)
  (Hlinks : single_links path)
  (Hnames : names_agree project)
  (Hfuel : length (actions project) <= fuel) :
  exists tree loop put,
    program_src fuel project scene built_in_objects = Some (Ok tree)
    /\ main_loop_body tree = Ok (loop, put)
    /\ forall source put',
         main_loop_body source = Ok (loop, put') ->
         get_logic_from_source source project = (None, (get_actions_cache project).1.1).
Proof.
  destruct H2 as (Hperm & Hnd & (a0 & Hhead & Hfirst0) & _ & (z & Hlast & Hlastz)).
  assert (Hnd_acts : NoDup (map act_id (actions project))).
  { rewrite <- Hperm. exact Hnd. }
  set (cache0 := (get_actions_cache project).1.1).
  assert (Hsplit : forall a, a ∈ path -> is_ok (split_type (act_type a)) = true).
  { intros a Ha. rewrite Hperm in Ha. unfold invariant3 in H3.
    rewrite Forall_forall in H3. destruct (H3 a Ha) as (obj & method & _ & _ & _ & -> & _).
    reflexivity. }
  assert (Hcache : forall a, a ∈ path -> cache0 !! act_id a = Some a).
  { intros a Ha. rewrite Hperm in Ha. apply get_actions_cache_lookup; [exact Hnd_acts|].
    split; [apply list_elem_of_In; exact Ha | reflexivity]. }
  assert (Hname : forall a, a ∈ path -> forall obj method,
            split_type (act_type a) = Ok (obj, method) ->
            contains " " (convert_cc obj) = false).
  { intros a Ha. rewrite Hperm in Ha. unfold names_agree in Hnames.
    rewrite Forall_forall in Hnames. exact (Hnames a Ha). }
  assert (Hpath0 : path !! 0 = Some a0).
  { destruct path; [discriminate Hhead | exact Hhead]. }
  assert (Hpathz : path !! (length path - 1) = Some z).
  { rewrite <- Hlast, last_lookup. f_equal. lia. }
  assert (Hf : (get_actions_cache project).1.2 = Some (act_id a0)).
  { pose proof (get_actions_cache_first project) as Hgf.
    destruct (get_actions_cache project).1.2 as [i|].
    - destruct Hgf as (a & Hin & Ha & <-).
      apply list_elem_of_In in Hin. rewrite <- Hperm in Hin.
      apply list_elem_of_lookup in Hin as [j Hj].
      rewrite (single_links_first path j a Hlinks Hj Ha) in Hj.
      rewrite Hpath0 in Hj. injection Hj as <-. reflexivity.
    - exfalso. rewrite Forall_forall in Hgf.
      rewrite (Hgf a0) in Hfirst0; [discriminate Hfirst0|].
      rewrite <- Hperm. apply list_elem_of_lookup. exists 0. exact Hpath0. }
  assert (Hl : (get_actions_cache project).2 = Some (act_id z)).
  { pose proof (get_actions_cache_last project) as Hgl.
    destruct (get_actions_cache project).2 as [i|].
    - destruct Hgl as (a & Hin & Ha & <-).
      apply list_elem_of_In in Hin. rewrite <- Hperm in Hin.
      apply list_elem_of_lookup in Hin as [j Hj].
      pose proof (single_links_last path j a Hlinks Hj Ha) as Hjl.
      replace j with (length path - 1) in Hj by lia.
      rewrite Hpathz in Hj. injection Hj as <-. reflexivity.
    - exfalso. rewrite Forall_forall in Hgl.
      rewrite (Hgl z) in Hlastz; [discriminate Hlastz|].
      rewrite <- Hperm. apply list_elem_of_lookup. eexists. exact Hpathz. }
  assert (Hgac : get_actions_cache project = (cache0, Some (act_id a0), Some (act_id z))).
  { unfold cache0. destruct (get_actions_cache project) as [[c f] l].
    simpl in Hf, Hl. rewrite Hf, Hl. reflexivity. }
  assert (Hchain : chain cache0 (act_id z) (ActionRef (act_id a0)) path).
  { destruct path as [|a suf]; [discriminate Hhead|].
    injection Hhead as ->.
    apply (single_links_chain cache0 (a0 :: suf) z Hnd Hlinks Hlast) with (pre := []);
      [|reflexivity].
    intros a Ha. split; [apply Hcache | apply Hsplit]; exact Ha. }
  assert (Hlen : length path <= fuel).
  { rewrite (Permutation_length Hperm). exact Hfuel. }
  destruct (program_src_chain fuel project scene built_in_objects cache0 _ _ path
              Hgac Hchain Hlen) as (imports & assigns & Himp & Hass & Hsrc).
  destruct (main_loop_body_script imports assigns (map action_stmt path) Himp Hass)
    as (put & Hloop & _).
  exists (script imports assigns (map action_stmt path)), (map action_stmt path), put.
  split; [exact Hsrc|]. split; [exact Hloop|].
  intros source put' Hsource.
  rewrite (get_logic_from_source_unfold _ project _ put' Hsource). fold cache0.
  assert (Hids : statement_ids (map action_stmt path) = map act_id path).
  { apply statement_ids_action_stmts. apply Forall_forall. exact Hsplit. }
  destruct (walk_accepted (length (map action_stmt path)) cache0
              (get_actions_cache_keyed project) (map action_stmt path))
    as (st & -> & _ & _ & Hrebuilt).
  - apply Forall_forall. intros node Hnode.
    apply list_elem_of_fmap in Hnode as (a & -> & Ha).
    apply accepted_action_stmt; [apply Hcache | apply Hsplit | apply Hname]; exact Ha.
  - rewrite Hids. exact Hnd.
  - apply le_n.
  - rewrite Hids, !length_map, Nat.eqb_refl in Hrebuilt.
    rewrite (rebuilt_single_links path cache0 (actions_cache st) Hlinks Hcache Hrebuilt).
    reflexivity.
Qed.

Lemma robot_scene_invariant3 (acts : list Action) :
  Forall (fun a => act_type a = "robot/move_to") acts ->
  invariant3 {| project_id := "demo"; actions := acts; parameters := [] |}
    robot_scene robot_catalog.
Proof.
  intros Hall. unfold invariant3. simpl. apply Forall_forall. intros a Ha.
  rewrite Forall_forall in Hall. rewrite (Hall a Ha).
  exists "robot", "move_to", {| obj_id := "robot"; obj_type := "RobotType" |},
    [move_to_action], move_to_action.
  repeat split; left; reflexivity.
Qed.

Lemma robot_scene_invariant4 : invariant4 robot_scene.
Proof. intros o1 o2 [<-|[]] [<-|[]] _. reflexivity. Qed.

Lemma round_trip_rebuilds_links_witness :
  exists tree loop put,
    program_src 2 two_step_project robot_scene ∅ = Some (Ok tree)
    /\ main_loop_body tree = Ok (loop, put)
    /\ forall source put',
         main_loop_body source = Ok (loop, put') ->
         get_logic_from_source source two_step_project
         = (None, (get_actions_cache two_step_project).1.1).
Proof.
  apply (round_trip_rebuilds_links two_step_project robot_scene ∅ robot_catalog
           [move1; act2] 2).
  - split; reflexivity.
  - split; [reflexivity|].
    split; [decide_NoDup|].
    split; [exists move1; split; reflexivity|].
    split; [simpl; split; [reflexivity | exact I]|].
    exists act2. split; reflexivity.
  - apply robot_scene_invariant3. repeat constructor.
  - exact robot_scene_invariant4.
  - intros [|[|j]] a Hj; [injection Hj as <- | injection Hj as <- | discriminate Hj];
      split; reflexivity.
  - repeat constructor; intros obj method [= <- <-]; reflexivity.
  - apply le_n.
Defined.

(** C1, counterexample.  The project satisfies invariants 1 to 4 and all
    its names are identifiers, so that the text is read back as written; the
    inputs of [place] name [pick].  The emitter returns the program of the
    chain, the recoverer accepts it, and afterwards the inputs of [place]
    name [carry]: the links are not the ones before emission. *)
Lemma stale_input_link_rewritten :
  invariant1 stale_link_project
  /\ invariant2 stale_link_project [pick; carry; place]
  /\ invariant3 stale_link_project robot_scene robot_catalog
  /\ invariant4 robot_scene
  /\ program_src 3 stale_link_project robot_scene ∅ = Some (Ok stale_link_program)
  /\ (get_logic_from_source stale_link_program stale_link_project).1 = None
  /\ inputs <$> (get_actions_cache stale_link_project).1.1 !! "place"
     = Some [ActionRef "pick"]
  /\ inputs <$> (get_logic_from_source stale_link_program stale_link_project).2 !! "place"
     = Some [ActionRef "carry"].
Proof.
  split; [split; reflexivity|].
  split.
  { split; [reflexivity|].
    split; [decide_NoDup|].
    split; [exists pick; split; reflexivity|].
    split; [simpl; repeat split|].
    exists place. split; reflexivity. }
  split; [apply robot_scene_invariant3; repeat constructor|].
  split; [exact robot_scene_invariant4|].
  split; [vm_compute; reflexivity|].
  split; [vm_compute; reflexivity|].
  split; vm_compute; reflexivity.
Qed.

(** The recoverer's name of the object variable misses the replacement of
    spaces that the emitter makes: for a scene object with the id "my robot"
    the emitter writes the variable [my_robot], and the recoverer rejects the
    emitter's own program. *)
Lemma space_in_object_id_rejected :
  program_src 1 my_robot_project my_robot_scene ∅ = Some (Ok my_robot_program)
  /\ get_logic_from_source my_robot_program my_robot_project
     = (Some (GenerateSourceException
                "Action type my robot/move_to does not correspond to source, where it is my_robot/move_to."),
        (get_actions_cache my_robot_project).1.1).
Proof. split; vm_compute; reflexivity. Qed.

(** * Further properties *)

(** ** Identifier conversion *)

Ltac by_cases_on_char c :=
  destruct c as [[] [] [] [] [] [] [] []]; try reflexivity; try discriminate.

Lemma lower_char_not_upper (c : ascii) : is_upper (lower_char c) = false.
Proof. by_cases_on_char c. Qed.

Lemma lower_char_fixed (c : ascii) : is_upper c = false -> lower_char c = c.
Proof. intros H. unfold lower_char. rewrite H. reflexivity. Qed.

Lemma lower_not_upper (s : string) : all_chars not_upper (lower s) = true.
Proof.
  induction s as [|c s IH]; [reflexivity|].
  simpl. unfold not_upper at 1. rewrite lower_char_not_upper. exact IH.
Qed.

Lemma lower_fixed (s : string) : all_chars not_upper s = true -> lower s = s.
Proof.
  induction s as [|c s IH]; [reflexivity|].
  simpl. intros [Hc Hs]%andb_true_iff. apply negb_true_iff in Hc.
  rewrite (lower_char_fixed c Hc), (IH Hs). reflexivity.
Qed.

Lemma first_cap_re_sub_cons (in_match : bool) (c : ascii) (rest : string) :
  first_cap_re_sub in_match (String c rest) =
  if in_match && is_lower c then String c (first_cap_re_sub true rest)
  else
    match rest with
    | String u (String l rest') =>
        if is_dot c && is_upper u && is_lower l
        then String c (String "_" (String u (String l (first_cap_re_sub true rest'))))
        else String c (first_cap_re_sub false rest)
    | _ => String c (first_cap_re_sub false rest)
    end.
Proof. reflexivity. Qed.

Lemma all_cap_re_sub_cons (c : ascii) (rest : string) :
  all_cap_re_sub (String c rest) =
  match rest with
  | String u rest' =>
      if (is_lower c || is_digit c) && is_upper u
      then String c (String "_" (String u (all_cap_re_sub rest')))
      else String c (all_cap_re_sub rest)
  | EmptyString => String c EmptyString
  end.
Proof. reflexivity. Qed.

Lemma first_cap_re_sub_fixed (s : string) (in_match : bool) :
  all_chars not_upper s = true -> first_cap_re_sub in_match s = s.
Proof.
  revert in_match. induction s as [|c s IH]; intros in_match Hs; [reflexivity|].
  simpl in Hs. apply andb_true_iff in Hs as [_ Hs].
  rewrite first_cap_re_sub_cons, !(IH _ Hs).
  destruct (in_match && is_lower c); [reflexivity|].
  destruct s as [|u [|l s']]; try reflexivity.
  simpl in Hs. apply andb_true_iff in Hs as [Hu _]. apply negb_true_iff in Hu.
  rewrite Hu, andb_false_r. reflexivity.
Qed.

Lemma all_cap_re_sub_fixed (s : string) :
  all_chars not_upper s = true -> all_cap_re_sub s = s.
Proof.
  induction s as [|c s IH]; intros Hs; [reflexivity|].
  simpl in Hs. apply andb_true_iff in Hs as [_ Hs].
  rewrite all_cap_re_sub_cons, (IH Hs).
  destruct s as [|u s']; [reflexivity|].
  simpl in Hs. apply andb_true_iff in Hs as [Hu _]. apply negb_true_iff in Hu.
  rewrite Hu, andb_false_r. reflexivity.
Qed.

Lemma camel_case_to_snake_case_fixed (s : string) :
  all_chars not_upper s = true -> camel_case_to_snake_case s = s.
Proof.
  intros Hs. unfold camel_case_to_snake_case.
  rewrite (first_cap_re_sub_fixed s false Hs), (all_cap_re_sub_fixed s Hs).
  apply lower_fixed. exact Hs.
Qed.

(** X1.  [camel_case_to_snake_case] (helpers.py, lines 56-59) returns a
    string without an upper-case ASCII letter, and applying it to its own
    result changes nothing. *)
Theorem camel_case_to_snake_case_idempotent (s : string) :
  all_chars not_upper (camel_case_to_snake_case s) = true
  /\ camel_case_to_snake_case (camel_case_to_snake_case s) = camel_case_to_snake_case s.
Proof.
  assert (H : all_chars not_upper (camel_case_to_snake_case s) = true)
    by apply lower_not_upper.
  split; [exact H | apply camel_case_to_snake_case_fixed; exact H].
Qed.

Lemma eqb_lower_char_underscore (c : ascii) :
  Ascii.eqb (lower_char c) "_" = Ascii.eqb c "_".
Proof. by_cases_on_char c. Qed.

Lemma remove_first_cap_re_sub (n : nat) :
  forall (s : string) (in_match : bool),
    String.length s <= n ->
    remove_char "_" (first_cap_re_sub in_match s) = remove_char "_" s.
Proof.
  induction n as [|n IH]; intros s in_match Hn.
  - destruct s; [reflexivity | simpl in Hn; lia].
  - destruct s as [|c s]; [reflexivity|]. simpl in Hn.
    rewrite first_cap_re_sub_cons.
    assert (Hrest : forall b, remove_char "_" (String c (first_cap_re_sub b s))
                              = remove_char "_" (String c s)).
    { intros b. simpl. rewrite (IH s b) by lia. reflexivity. }
    destruct (in_match && is_lower c); [apply Hrest|].
    destruct s as [|u [|l s']]; try apply Hrest.
    destruct (is_dot c && is_upper u && is_lower l); [|apply Hrest].
    simpl in Hn. simpl. rewrite (IH s' true) by lia. reflexivity.
Qed.

Lemma remove_all_cap_re_sub (n : nat) :
  forall s : string,
    String.length s <= n ->
    remove_char "_" (all_cap_re_sub s) = remove_char "_" s.
Proof.
  induction n as [|n IH]; intros s Hn.
  - destruct s; [reflexivity | simpl in Hn; lia].
  - destruct s as [|c s]; [reflexivity|]. simpl in Hn.
    rewrite all_cap_re_sub_cons.
    destruct s as [|u s']; [reflexivity|].
    destruct ((is_lower c || is_digit c) && is_upper u).
    + simpl in Hn. simpl. rewrite (IH s') by lia. reflexivity.
    + change (remove_char "_" (String c (all_cap_re_sub (String u s'))))
        with (if Ascii.eqb c "_" then remove_char "_" (all_cap_re_sub (String u s'))
              else String c (remove_char "_" (all_cap_re_sub (String u s')))).
      rewrite (IH (String u s')) by lia. reflexivity.
Qed.

Lemma remove_lower (s : string) :
  remove_char "_" (lower s) = lower (remove_char "_" s).
Proof.
  induction s as [|c s IH]; [reflexivity|].
  simpl. rewrite eqb_lower_char_underscore.
  destruct (Ascii.eqb c "_"); [exact IH | simpl; rewrite IH; reflexivity].
Qed.

(** X2.  On ASCII text [camel_case_to_snake_case] only inserts
    underscores and lowers letters: with the underscores taken out, its
    result is the lowered input with the underscores taken out.  (Outside
    ASCII [str.lower()] can depend on what follows a letter, as for a
    capital sigma, and the equation fails.) *)
Theorem camel_case_to_snake_case_only_adds_underscores (s : string)
  (Hascii : all_chars is_ascii s = true) :
  remove_char "_" (camel_case_to_snake_case s) = lower (remove_char "_" s).
Proof.
  unfold camel_case_to_snake_case.
  rewrite remove_lower.
  rewrite (remove_all_cap_re_sub _ _ (le_n _)), (remove_first_cap_re_sub _ _ false (le_n _)).
  reflexivity.
Qed.

Lemma camel_case_to_snake_case_only_adds_underscores_witness :
  remove_char "_" (camel_case_to_snake_case "getHTTP_ResponseCode")
  = lower (remove_char "_" "getHTTP_ResponseCode").
Proof.
  apply (camel_case_to_snake_case_only_adds_underscores "getHTTP_ResponseCode").
  reflexivity.
Defined.

Lemma contains_replace (s : string) : contains " " (replace " " "_" s) = false.
Proof.
  induction s as [|c s IH]; [reflexivity|].
  simpl. rewrite IH, orb_false_r.
  destruct (Ascii.eqb c " ") eqn:E; [reflexivity | exact E].
Qed.

Lemma not_upper_replace (s : string) :
  all_chars not_upper s = true -> all_chars not_upper (replace " " "_" s) = true.
Proof.
  induction s as [|c s IH]; [reflexivity|].
  simpl. intros [Hc Hs]%andb_true_iff. rewrite (IH Hs), andb_true_r.
  destruct (Ascii.eqb c " "); [reflexivity | exact Hc].
Qed.

(** X3.  [fix_object_name] (lines 147-149) returns a name without a space
    and without an upper-case ASCII letter, and applying it to its own
    result changes nothing. *)
Theorem fix_object_name_clean (object_id : string) :
  contains " " (fix_object_name object_id) = false
  /\ all_chars not_upper (fix_object_name object_id) = true
  /\ fix_object_name (fix_object_name object_id) = fix_object_name object_id.
Proof.
  assert (Hsp : contains " " (fix_object_name object_id) = false)
    by apply contains_replace.
  assert (Hup : all_chars not_upper (fix_object_name object_id) = true).
  { apply not_upper_replace. apply lower_not_upper. }
  split; [exact Hsp|]. split; [exact Hup|].
  unfold fix_object_name at 1. unfold convert_cc.
  rewrite (camel_case_to_snake_case_fixed _ Hup).
  apply replace_fixpoint_iff. exact Hsp.
Qed.

Lemma space_to_underscore_classes (c : ascii) :
  let c' := if Ascii.eqb c " " then "_"%char else c in
  is_upper c' = is_upper c /\ is_lower c' = is_lower c
  /\ is_digit c' = is_digit c /\ is_dot c' = is_dot c.
Proof.
  destruct (Ascii.eqb c " ") eqn:E; [|simpl; auto].
  apply Ascii.eqb_eq in E. subst c. simpl. auto.
Qed.

Lemma lower_char_space_to_underscore (c : ascii) :
  lower_char (if Ascii.eqb c " " then "_"%char else c)
  = if Ascii.eqb (lower_char c) " " then "_"%char else lower_char c.
Proof. by_cases_on_char c. Qed.

Lemma first_cap_re_sub_replace (n : nat) :
  forall (s : string) (in_match : bool),
    String.length s <= n ->
    first_cap_re_sub in_match (replace " " "_" s)
    = replace " " "_" (first_cap_re_sub in_match s).
Proof.
  induction n as [|n IH]; intros s in_match Hn.
  - destruct s; [reflexivity | simpl in Hn; lia].
  - destruct s as [|c s]; [reflexivity|]. simpl in Hn.
    destruct (space_to_underscore_classes c) as (_ & Hlc & _ & Hdc).
    assert (Hrest : forall b,
              String (if Ascii.eqb c " " then "_"%char else c)
                (first_cap_re_sub b (replace " " "_" s))
              = replace " " "_" (String c (first_cap_re_sub b s))).
    { intros b. rewrite (IH s b) by lia. reflexivity. }
    destruct s as [|u [|l s']].
    + cbn [replace]. rewrite !first_cap_re_sub_cons, Hlc.
      destruct (in_match && is_lower c); reflexivity.
    + cbn [replace].
      rewrite (first_cap_re_sub_cons _ c),
        (first_cap_re_sub_cons _ (if Ascii.eqb c " " then "_"%char else c)), Hlc.
      destruct (in_match && is_lower c); apply Hrest.
    + cbn [replace].
      rewrite (first_cap_re_sub_cons _ c),
        (first_cap_re_sub_cons _ (if Ascii.eqb c " " then "_"%char else c)), Hlc, Hdc.
      destruct (in_match && is_lower c); [apply Hrest|].
      destruct (space_to_underscore_classes u) as (Huu & _ & _ & _).
      destruct (space_to_underscore_classes l) as (_ & Hll & _ & _).
      rewrite Huu, Hll.
      destruct (is_dot c && is_upper u && is_lower l); [|apply Hrest].
      simpl in Hn. cbn [replace]. rewrite (IH s' true) by lia. reflexivity.
Qed.

Lemma all_cap_re_sub_replace (n : nat) :
  forall s : string,
    String.length s <= n ->
    all_cap_re_sub (replace " " "_" s) = replace " " "_" (all_cap_re_sub s).
Proof.
  induction n as [|n IH]; intros s Hn.
  - destruct s; [reflexivity | simpl in Hn; lia].
  - destruct s as [|c s]; [reflexivity|]. simpl in Hn.
    destruct s as [|u s']; [reflexivity|].
    cbn [replace].
    rewrite (all_cap_re_sub_cons c),
      (all_cap_re_sub_cons (if Ascii.eqb c " " then "_"%char else c)).
    destruct (space_to_underscore_classes c) as (_ & Hlc & Hgc & _).
    destruct (space_to_underscore_classes u) as (Huu & _ & _ & _).
    rewrite Hlc, Hgc, Huu.
    destruct ((is_lower c || is_digit c) && is_upper u).
    + simpl in Hn. cbn [replace]. rewrite (IH s') by lia. reflexivity.
    + change (String (if Ascii.eqb u " " then "_"%char else u) (replace " " "_" s'))
        with (replace " " "_" (String u s')).
      rewrite (IH (String u s')) by lia. reflexivity.
Qed.

Lemma lower_replace (s : string) :
  lower (replace " " "_" s) = replace " " "_" (lower s).
Proof.
  induction s as [|c s IH]; [reflexivity|].
  cbn [replace lower]. rewrite IH, lower_char_space_to_underscore. reflexivity.
Qed.

Lemma convert_cc_replace (s : string) :
  convert_cc (replace " " "_" s) = replace " " "_" (convert_cc s).
Proof.
  unfold convert_cc, camel_case_to_snake_case.
  rewrite (first_cap_re_sub_replace _ s false (le_n _)).
  rewrite (all_cap_re_sub_replace _ _ (le_n _)).
  apply lower_replace.
Qed.

Lemma replace_neq (s : string) :
  contains " " s = true -> replace " " "_" s <> s.
Proof.
  intros Hs Heq. apply replace_fixpoint_iff in Heq. rewrite Heq in Hs. discriminate Hs.
Qed.

(** X4.  [fix_object_name] does not tell an object id with a space from
    the id with an underscore in its place: the two ids differ and get the
    same variable name. *)
Theorem fix_object_name_not_injective (object_id : string)
  (Hspace : contains " " object_id = true) :
  replace " " "_" object_id <> object_id
  /\ fix_object_name (replace " " "_" object_id) = fix_object_name object_id.
Proof.
  split; [apply replace_neq; exact Hspace|].
  unfold fix_object_name. rewrite convert_cc_replace.
  apply replace_fixpoint_iff, contains_replace.
Qed.

Lemma fix_object_name_not_injective_witness :
  "my_robot" <> "my robot" /\ fix_object_name "my_robot" = fix_object_name "my robot".
Proof. apply (fix_object_name_not_injective "my robot"). reflexivity. Defined.

(** ** Splitting and joining *)

Lemma split_cons (sep c : ascii) (rest : string) :
  split sep (String c rest) =
  if Ascii.eqb c sep then EmptyString :: split sep rest
  else
    match split sep rest with
    | piece :: pieces => String c piece :: pieces
    | [] => [String c EmptyString]
    end.
Proof. reflexivity. Qed.

Lemma split_not_nil (sep : ascii) (s : string) : split sep s <> [].
Proof.
  destruct s as [|c rest]; [discriminate|].
  rewrite split_cons. destruct (Ascii.eqb c sep); [discriminate|].
  destruct (split sep rest); discriminate.
Qed.

Lemma join_cons (sep piece : string) (rest : list string) :
  rest <> [] -> join sep (piece :: rest) = (piece ++ sep ++ join sep rest)%string.
Proof. destruct rest; [contradiction | reflexivity]. Qed.

Lemma join_split (sep : ascii) (s : string) :
  join (String sep EmptyString) (split sep s) = s.
Proof.
  induction s as [|c rest IH]; [reflexivity|].
  rewrite split_cons. destruct (Ascii.eqb c sep) eqn:E.
  - apply Ascii.eqb_eq in E. subst c.
    rewrite join_cons by apply split_not_nil. rewrite IH. reflexivity.
  - pose proof (split_not_nil sep rest) as Hne.
    destruct (split sep rest) as [|piece pieces]; [contradiction|].
    destruct pieces as [|p2 pieces].
    + simpl in *. rewrite IH. reflexivity.
    + rewrite join_cons in * by discriminate. simpl. rewrite <- IH. reflexivity.
Qed.

Lemma split_pieces (sep : ascii) (s : string) :
  Forall (fun piece => contains sep piece = false) (split sep s).
Proof.
  induction s as [|c rest IH]; [repeat constructor|].
  rewrite split_cons. destruct (Ascii.eqb c sep) eqn:E.
  - constructor; [reflexivity | exact IH].
  - destruct (split sep rest) as [|piece pieces]; [repeat constructor; simpl; rewrite E; reflexivity|].
    apply Forall_cons in IH as [Hp Hps]. constructor; [|exact Hps].
    simpl. rewrite E, Hp. reflexivity.
Qed.

Lemma split_without_sep (sep : ascii) (s : string) :
  contains sep s = false -> split sep s = [s].
Proof.
  induction s as [|c rest IH]; [reflexivity|].
  simpl contains. intros [Hc Hrest]%orb_false_iff.
  rewrite split_cons, Hc, (IH Hrest). reflexivity.
Qed.

Lemma split_app (sep : ascii) (a b : string) :
  contains sep a = false ->
  split sep (a ++ String sep b)%string = a :: split sep b.
Proof.
  induction a as [|c rest IH]; intros Ha.
  - simpl. rewrite Ascii.eqb_refl. reflexivity.
  - simpl contains in Ha. apply orb_false_iff in Ha as [Hc Hrest].
    change (String c rest ++ String sep b)%string with (String c (rest ++ String sep b)%string).
    rewrite split_cons, Hc, (IH Hrest). reflexivity.
Qed.

(** X5.  The unpacking [ac_obj, ac_type = act.type.split('/')] of lines 212
    and 262 succeeds exactly on a type with one slash, and then gives the
    text before and the text after the slash. *)
Theorem split_type_iff (type obj method : string) :
  split_type type = Ok (obj, method)
  <-> type = (obj ++ "/" ++ method)%string
      /\ contains "/" obj = false /\ contains "/" method = false.
Proof.
  unfold split_type. split.
  - intros H. pose proof (join_split "/" type) as Hjoin.
    pose proof (split_pieces "/" type) as Hpieces.
    destruct (split "/" type) as [|a [|b [|c l]]]; try discriminate H.
    injection H as -> ->.
    apply Forall_cons in Hpieces as [Ha Hb]. apply Forall_cons in Hb as [Hb _].
    split; [symmetry; exact Hjoin | split; assumption].
  - intros (-> & Ho & Hm).
    change (obj ++ "/" ++ method)%string with (obj ++ String "/" method)%string.
    rewrite (split_app "/" obj method Ho), (split_without_sep "/" method Hm). reflexivity.
Qed.

(** ** [snake_case_to_camel_case] *)

Lemma contains_app (c : ascii) (a b : string) :
  contains c (a ++ b)%string = contains c a || contains c b.
Proof.
  induction a as [|d a IH]; [reflexivity|].
  simpl. rewrite IH, orb_assoc. reflexivity.
Qed.

Lemma contains_lower_underscore (s : string) :
  contains "_" (lower s) = contains "_" s.
Proof.
  induction s as [|c s IH]; [reflexivity|].
  simpl. rewrite eqb_lower_char_underscore, IH. reflexivity.
Qed.

Lemma title_char_underscore (c : ascii) (b : bool) :
  is_upper c || is_lower c = true ->
  Ascii.eqb (if b then lower_char c else upper_char c) "_" = false.
Proof. destruct b; by_cases_on_char c. Qed.

Lemma contains_title_underscore (s : string) (b : bool) :
  contains "_" s = false -> contains "_" (title_from b s) = false.
Proof.
  revert b. induction s as [|c s IH]; intros b Hs; [reflexivity|].
  simpl in Hs. apply orb_false_iff in Hs as [Hc Hs].
  simpl. destruct (is_upper c || is_lower c) eqn:E; simpl.
  - rewrite (title_char_underscore c b E), (IH _ Hs). reflexivity.
  - rewrite Hc, (IH _ Hs). reflexivity.
Qed.

Lemma contains_join_empty (c : ascii) (pieces : list string) :
  Forall (fun piece => contains c piece = false) pieces ->
  contains c (join EmptyString pieces) = false.
Proof.
  induction 1 as [|piece rest Hp Hrest IH]; [reflexivity|].
  destruct rest as [|p2 rest]; [exact Hp|].
  rewrite join_cons by discriminate.
  rewrite contains_app, Hp. simpl. exact IH.
Qed.

(** X6.  [snake_case_to_camel_case] (helpers.py, lines 62-65) returns a
    string without an underscore; on a string without an underscore it
    returns the lowered string. *)
Theorem snake_case_to_camel_case_no_underscore (snake_str : string) :
  contains "_" (snake_case_to_camel_case snake_str) = false
  /\ (contains "_" snake_str = false ->
      snake_case_to_camel_case snake_str = lower snake_str).
Proof.
  split.
  - unfold snake_case_to_camel_case.
    pose proof (split_pieces "_" snake_str) as Hpieces.
    destruct (split "_" snake_str) as [|first others]; [reflexivity|].
    apply Forall_cons in Hpieces as [Hf Ho].
    apply contains_join_empty. constructor.
    + rewrite contains_lower_underscore. exact Hf.
    + apply Forall_fmap. eapply Forall_impl; [exact Ho|].
      intros piece Hp. apply contains_title_underscore. exact Hp.
  - intros Hs. unfold snake_case_to_camel_case.
    rewrite (split_without_sep "_" snake_str Hs). reflexivity.
Qed.

(** ** Round trip of the two conversions *)

Lemma string_app_assoc (a b c : string) : ((a ++ b) ++ c = a ++ (b ++ c))%string.
Proof.
  induction a as [|x a IH]; [reflexivity|].
  change (String x ((a ++ b) ++ c) = String x (a ++ (b ++ c)))%string.
  rewrite IH. reflexivity.
Qed.

Lemma is_lower_facts (c : ascii) :
  is_lower c = true ->
  is_upper c = false /\ is_dot c = true /\ is_upper (upper_char c) = true
  /\ is_lower (upper_char c) = false /\ is_digit (upper_char c) = false
  /\ lower_char (upper_char c) = c /\ lower_char c = c
  /\ Ascii.eqb c "_" = false.
Proof. by_cases_on_char c; intros _; repeat split. Qed.

Lemma first_cap_in_match_lower (r rest : string) :
  lower_word r ->
  first_cap_re_sub true (r ++ rest)%string = (r ++ first_cap_re_sub true rest)%string.
Proof.
  unfold lower_word. induction r as [|c r IH]; intros Hr; [reflexivity|].
  simpl in Hr. apply andb_true_iff in Hr as [Hc Hr].
  change (String c r ++ rest)%string with (String c (r ++ rest)%string).
  rewrite first_cap_re_sub_cons, Hc. simpl. rewrite (IH Hr). reflexivity.
Qed.

Lemma string_app_nil_r (a : string) : (a ++ "")%string = a.
Proof.
  induction a as [|x a IH]; [reflexivity|].
  change (String x (a ++ "")%string = String x a). rewrite IH. reflexivity.
Qed.

Lemma lower_word_cons (c : ascii) (w : string) :
  lower_word (String c w) <-> is_lower c = true /\ lower_word w.
Proof. unfold lower_word. simpl. apply andb_true_iff. Qed.

Lemma lower_word_not_upper (w : string) : lower_word w -> all_chars not_upper w = true.
Proof.
  induction w as [|c w IH]; [reflexivity|].
  intros [Hc Hw]%lower_word_cons. simpl. rewrite (IH Hw), andb_true_r.
  unfold not_upper. destruct (is_lower_facts c Hc) as (-> & _). reflexivity.
Qed.

Lemma first_cap_boundary (x rest : string) (u l : ascii) :
  lower_word x -> x <> EmptyString -> is_upper u = true -> is_lower l = true ->
  first_cap_re_sub false (x ++ String u (String l rest))%string
  = (x ++ String "_" (String u (String l (first_cap_re_sub true rest))))%string.
Proof.
  intros Hx Hne Hu Hl. induction x as [|c x IH]; [contradiction|].
  apply lower_word_cons in Hx as [Hc Hx].
  destruct (is_lower_facts c Hc) as (_ & Hdot & _).
  change (String c x ++ String u (String l rest))%string
    with (String c (x ++ String u (String l rest))%string).
  rewrite first_cap_re_sub_cons. cbn [andb].
  destruct x as [|c' x].
  - change ("" ++ String u (String l rest))%string with (String u (String l rest)).
    rewrite Hdot, Hu, Hl. reflexivity.
  - pose proof Hx as Hx'. apply lower_word_cons in Hx' as [Hc' _].
    destruct (is_lower_facts c' Hc') as (Hnu & _).
    rewrite (IH Hx ltac:(discriminate)).
    change (String c' x ++ String u (String l rest))%string
      with (String c' (x ++ String u (String l rest))%string).
    destruct (x ++ String u (String l rest))%string;
      rewrite ?Hnu, ?andb_false_r; reflexivity.
Qed.

Lemma first_cap_after_match (u : ascii) (rest : string) :
  is_upper u = true -> is_lower u = false ->
  match rest with
  | EmptyString => True
  | String l _ => is_upper l = false
  end ->
  first_cap_re_sub true (String u rest) = String u (first_cap_re_sub false rest).
Proof.
  intros Hu Hnl Hrest. rewrite first_cap_re_sub_cons, Hnl. cbn [andb].
  destruct rest as [|l [|l' rest]]; try reflexivity.
  rewrite Hrest, andb_false_r. reflexivity.
Qed.


Lemma join_empty_cons (piece : string) (rest : list string) :
  join EmptyString (piece :: rest) = (piece ++ join EmptyString rest)%string.
Proof.
  destruct rest as [|p rest]; [symmetry; apply string_app_nil_r|].
  rewrite join_cons by discriminate. reflexivity.
Qed.

Lemma long_lower_word_inv (w : string) :
  long_lower_word w ->
  exists c l r, w = String c (String l r) /\ is_lower c = true /\ is_lower l = true
                /\ lower_word r.
Proof.
  intros [Hw Hlen]. destruct w as [|c [|l r]]; simpl in Hlen; try lia.
  apply lower_word_cons in Hw as [Hc Hw]. apply lower_word_cons in Hw as [Hl Hr].
  exists c, l, r. auto.
Qed.

(** The first substitution puts an underscore before every second word. *)
Lemma first_cap_words (words : list string) :
  Forall long_lower_word words ->
  (forall x, lower_word x -> x <> EmptyString ->
     first_cap_re_sub false (x ++ join EmptyString (map capitalize words))%string
     = (x ++ alternate true words)%string)
  /\ (forall r, lower_word r ->
       first_cap_re_sub true (r ++ join EmptyString (map capitalize words))%string
       = (r ++ alternate false words)%string).
Proof.
  induction 1 as [|w words Hw _ [IHP IHQ]].
  - split.
    + intros x Hx _. simpl. rewrite string_app_nil_r.
      apply first_cap_re_sub_fixed, lower_word_not_upper, Hx.
    + intros r Hr. simpl. rewrite string_app_nil_r.
      apply first_cap_re_sub_fixed, lower_word_not_upper, Hr.
  - destruct (long_lower_word_inv w Hw) as (c & l & r' & -> & Hc & Hl & Hr').
    destruct (is_lower_facts c Hc) as (_ & _ & Hu & Hnl & _).
    destruct (is_lower_facts l Hl) as (Hlnu & _).
    simpl map. rewrite join_empty_cons. cbn [capitalize].
    split.
    + intros x Hx Hne.
      change (String (upper_char c) (String l r') ++ join "" (map capitalize words))%string
        with (String (upper_char c) (String l (r' ++ join "" (map capitalize words))%string)).
      rewrite (first_cap_boundary x _ _ l Hx Hne Hu Hl), (IHQ r' Hr'). reflexivity.
    + intros r Hr.
      rewrite (first_cap_in_match_lower r _ Hr).
      change (String (upper_char c) (String l r') ++ join "" (map capitalize words))%string
        with (String (upper_char c) (String l r' ++ join "" (map capitalize words))%string).
      rewrite (first_cap_after_match _ _ Hu Hnl) by exact Hlnu.
      rewrite (IHP (String l r')); [reflexivity | | discriminate].
      apply lower_word_cons. split; assumption.
Qed.

Lemma all_cap_plain (c : ascii) (rest : string) :
  is_lower c = false -> is_digit c = false ->
  all_cap_re_sub (String c rest) = String c (all_cap_re_sub rest).
Proof.
  intros Hl Hd. rewrite all_cap_re_sub_cons, Hl, Hd.
  destruct rest; reflexivity.
Qed.

Lemma all_cap_lower_prefix (x rest : string) :
  lower_word x ->
  match rest with
  | EmptyString => True
  | String u _ => is_upper u = false
  end ->
  all_cap_re_sub (x ++ rest)%string = (x ++ all_cap_re_sub rest)%string.
Proof.
  intros Hx Hrest. induction x as [|c x IH]; [reflexivity|].
  apply lower_word_cons in Hx as [Hc Hx].
  change (String c x ++ rest)%string with (String c (x ++ rest)%string).
  rewrite all_cap_re_sub_cons, (IH Hx).
  destruct x as [|c' x].
  - change ("" ++ rest)%string with rest. change ("" ++ all_cap_re_sub rest)%string
      with (all_cap_re_sub rest).
    destruct rest as [|u rest]; [reflexivity|].
    rewrite Hrest, andb_false_r. reflexivity.
  - apply lower_word_cons in Hx as [Hc' _].
    destruct (is_lower_facts c' Hc') as (Hnu & _).
    change (String c' x ++ rest)%string with (String c' (x ++ rest)%string).
    cbv beta iota. rewrite Hnu, andb_false_r. reflexivity.
Qed.

Lemma all_cap_boundary (x rest : string) (u : ascii) :
  lower_word x -> x <> EmptyString -> is_upper u = true ->
  all_cap_re_sub (x ++ String u rest)%string
  = (x ++ String "_" (String u (all_cap_re_sub rest)))%string.
Proof.
  intros Hx Hne Hu. induction x as [|c x IH]; [contradiction|].
  apply lower_word_cons in Hx as [Hc Hx].
  change (String c x ++ String u rest)%string with (String c (x ++ String u rest)%string).
  rewrite all_cap_re_sub_cons.
  destruct x as [|c' x].
  - change ("" ++ String u rest)%string with (String u rest).
    rewrite Hc, Hu. reflexivity.
  - pose proof Hx as Hx'. apply lower_word_cons in Hx' as [Hc' _].
    destruct (is_lower_facts c' Hc') as (Hnu & _).
    rewrite (IH Hx ltac:(discriminate)).
    change (String c' x ++ String u rest)%string with (String c' (x ++ String u rest)%string).
    cbv beta iota. rewrite Hnu, andb_false_r. reflexivity.
Qed.

(** The second substitution puts the underscores that are missing. *)
Lemma all_cap_words (words : list string) :
  Forall long_lower_word words ->
  forall (sep : bool) (x : string), lower_word x -> x <> EmptyString ->
    all_cap_re_sub (x ++ alternate sep words)%string = (x ++ separate words)%string.
Proof.
  induction 1 as [|w words Hw _ IH]; intros sep x Hx Hne.
  - simpl. rewrite string_app_nil_r.
    apply all_cap_re_sub_fixed, lower_word_not_upper, Hx.
  - destruct (long_lower_word_inv w Hw) as (c & l & r' & -> & Hc & Hl & Hr').
    destruct (is_lower_facts c Hc) as (_ & _ & Hu & Hnl & Hnd & _).
    assert (Hlr : lower_word (String l r')) by (apply lower_word_cons; split; assumption).
    assert (Htail : forall b,
              all_cap_re_sub (String (upper_char c) (String l r' ++ alternate b words)%string)
              = String (upper_char c) (String l r' ++ separate words)%string).
    { intros b. rewrite (all_cap_plain _ _ Hnl Hnd), (IH b _ Hlr) by discriminate.
      reflexivity. }
    destruct sep; cbn [alternate separate capitalize negb].
    + change ("_" ++ String (upper_char c) (String l r') ++ alternate false words)%string
        with (String "_" (String (upper_char c) (String l r' ++ alternate false words)%string)).
      rewrite (all_cap_lower_prefix x _ Hx) by reflexivity.
      rewrite (all_cap_plain "_") by reflexivity. rewrite Htail. reflexivity.
    + change ("" ++ String (upper_char c) (String l r') ++ alternate true words)%string
        with (String (upper_char c) (String l r' ++ alternate true words)%string).
      rewrite (all_cap_boundary x _ _ Hx Hne Hu).
      rewrite (IH true _ Hlr) by discriminate. reflexivity.
Qed.

Lemma lower_app (a b : string) : lower (a ++ b)%string = (lower a ++ lower b)%string.
Proof.
  induction a as [|c a IH]; [reflexivity|].
  change (String (lower_char c) (lower (a ++ b)%string)
          = String (lower_char c) (lower a ++ lower b)%string).
  rewrite IH. reflexivity.
Qed.

Lemma lower_lower_word (w : string) : lower_word w -> lower w = w.
Proof. intros Hw. apply lower_fixed, lower_word_not_upper, Hw. Qed.

Lemma lower_capitalize (w : string) : lower_word w -> lower (capitalize w) = w.
Proof.
  destruct w as [|c w]; [reflexivity|].
  intros [Hc Hw]%lower_word_cons. simpl.
  destruct (is_lower_facts c Hc) as (_ & _ & _ & _ & _ & -> & _).
  rewrite (lower_lower_word w Hw). reflexivity.
Qed.

Lemma title_lower_word (w : string) : lower_word w -> title w = capitalize w.
Proof.
  assert (Hrest : forall r, lower_word r -> title_from true r = r).
  { induction r as [|c r IH]; [reflexivity|].
    intros [Hc Hr]%lower_word_cons. simpl. rewrite Hc, orb_true_r.
    destruct (is_lower_facts c Hc) as (_ & _ & _ & _ & _ & _ & -> & _).
    rewrite (IH Hr). reflexivity. }
  destruct w as [|c w]; [reflexivity|].
  intros [Hc Hw]%lower_word_cons. unfold title. simpl.
  rewrite Hc, orb_true_r, (Hrest w Hw). reflexivity.
Qed.

Lemma lower_word_no_underscore (w : string) : lower_word w -> contains "_" w = false.
Proof.
  induction w as [|c w IH]; [reflexivity|].
  intros [Hc Hw]%lower_word_cons. simpl.
  destruct (is_lower_facts c Hc) as (_ & _ & _ & _ & _ & _ & _ & ->).
  exact (IH Hw).
Qed.

Lemma split_join (sep : ascii) (pieces : list string) :
  pieces <> [] ->
  Forall (fun piece => contains sep piece = false) pieces ->
  split sep (join (String sep EmptyString) pieces) = pieces.
Proof.
  intros Hne Hall. induction Hall as [|piece rest Hp Hrest IH]; [contradiction|].
  destruct rest as [|p2 rest]; [apply split_without_sep; exact Hp|].
  rewrite join_cons by discriminate.
  change (piece ++ String sep "" ++ join (String sep "") (p2 :: rest))%string
    with (piece ++ String sep (join (String sep "") (p2 :: rest)))%string.
  rewrite (split_app sep piece _ Hp), IH by discriminate. reflexivity.
Qed.

Lemma join_underscore_separate (x : string) (words : list string) :
  Forall lower_word words ->
  join "_" (x :: words) = (x ++ lower (separate words))%string.
Proof.
  intros Hall. revert x. induction Hall as [|w words Hw _ IH]; intros x.
  - simpl. rewrite string_app_nil_r. reflexivity.
  - rewrite join_cons by discriminate. rewrite (IH w).
    cbn [separate]. rewrite !lower_app, (lower_capitalize w Hw). reflexivity.
Qed.

(** X7.  From snake case to camel case and back: for a name made of
    lower-case words joined by underscores, the first not empty and the
    others of two letters at least, [camel_case_to_snake_case] undoes
    [snake_case_to_camel_case]. *)
Theorem snake_camel_snake_round_trip (first : string) (others : list string)
  (Hfirst : lower_word first) (Hne : first <> EmptyString)
  (Hothers : Forall long_lower_word others) :
  camel_case_to_snake_case (snake_case_to_camel_case (join "_" (first :: others)))
  = join "_" (first :: others).
Proof.
  assert (Hlow : Forall lower_word others).
  { eapply Forall_impl; [exact Hothers|]. intros w [Hw _]. exact Hw. }
  unfold snake_case_to_camel_case.
  rewrite (split_join "_" (first :: others)); [|discriminate|].
  2:{ constructor; [apply lower_word_no_underscore; exact Hfirst|].
      eapply Forall_impl; [exact Hlow|]. intros w. apply lower_word_no_underscore. }
  rewrite (lower_lower_word first Hfirst).
  replace (map title others) with (map capitalize others).
  2:{ apply Forall_fmap_ext_1. eapply Forall_impl; [exact Hlow|].
      intros w Hw. symmetry. apply title_lower_word. exact Hw. }
  rewrite join_empty_cons. unfold camel_case_to_snake_case.
  rewrite (proj1 (first_cap_words others Hothers) first Hfirst Hne).
  rewrite (all_cap_words others Hothers true first Hfirst Hne).
  rewrite lower_app, (lower_lower_word first Hfirst).
  symmetry. apply join_underscore_separate. exact Hlow.
Qed.

Lemma snake_camel_snake_round_trip_witness :
  camel_case_to_snake_case (snake_case_to_camel_case "move_to_box")
  = "move_to_box".
Proof.
  apply (snake_camel_snake_round_trip "move" ["to"; "box"]).
  - reflexivity.
  - discriminate.
  - repeat constructor.
Defined.

Example single_letter_words_merge :
  camel_case_to_snake_case (snake_case_to_camel_case "a_b_c") = "a_bc".
Proof. reflexivity. Qed.

(** ** Statements by induction, the bodies included *)

Lemma stmt_nested_ind (P : stmt -> Prop) :
  (forall n args body decs ret, Forall P body -> P (FunctionDef n args body decs ret)) ->
  (forall n bases body decs, Forall P body -> P (ClassDef n bases body decs)) ->
  (forall test body orelse, Forall P body -> Forall P orelse -> P (While test body orelse)) ->
  (forall test body orelse, Forall P body -> Forall P orelse -> P (If test body orelse)) ->
  (forall m names level, P (ImportFrom m names level)) ->
  (forall targets value, P (Assign targets value)) ->
  (forall target annotation value, P (AnnAssign target annotation value)) ->
  (forall value, P (Expr value)) ->
  P Pass ->
  P OtherStmt ->
  forall node, P node.
Proof.
  intros HF HC HW HI HIm HA HAn HE HP HO.
  fix IH 1.
  assert (Hall : forall l, Forall P l).
  { fix IHl 1. intros [|x l]; [constructor | constructor; [apply IH | apply IHl]]. }
  intros [n args body decs ret | n bases body decs | test body orelse | test body orelse
         | m names level | targets value | target annotation value | value | | ].
  - apply HF, Hall.
  - apply HC, Hall.
  - apply HW; apply Hall.
  - apply HI; apply Hall.
  - apply HIm.
  - apply HA.
  - apply HAn.
  - apply HE.
  - apply HP.
  - apply HO.
Qed.

(** ** [find_function] on every tree *)

Lemma FindFunction_visit_body_list name seen todo fn :
  FindFunction_visit_body name seen todo fn
  = FindFunction_visit_list name Module seen todo fn.
Proof.
  revert seen fn. induction todo as [|child rest IH]; intros seen fn; [reflexivity|].
  simpl. apply IH.
Qed.

Lemma FindFunction_visit_FunctionDef name n args body decs ret put fn :
  FindFunction_visit name (FunctionDef n args body decs ret) put fn
  = if String.eqb n name then Some (FunctionDef n args body decs ret, put)
    else match fn with
         | Some _ => fn
         | None =>
             FindFunction_visit_list name
               (fun l => put (FunctionDef n args l decs ret)) [] body fn
         end.
Proof.
  simpl. destruct (String.eqb n name); [reflexivity|].
  destruct fn as [r|]; [reflexivity|].
  match goal with
  | |- ?f [] body None = _ =>
      enough (H : forall seen fn, f seen body fn
                  = FindFunction_visit_list name
                      (fun l => put (FunctionDef n args l decs ret)) seen body fn)
        by apply H
  end.
  induction body as [|child rest IH]; intros seen fn; [reflexivity|].
  simpl. apply IH.
Qed.

Lemma FindFunction_visit_ClassDef name n bases body decs put fn :
  FindFunction_visit name (ClassDef n bases body decs) put fn
  = FindFunction_visit_list name (fun l => put (ClassDef n bases l decs)) [] body fn.
Proof.
  simpl.
  match goal with
  | |- ?f [] body fn = _ =>
      enough (H : forall seen fn, f seen body fn
                  = FindFunction_visit_list name
                      (fun l => put (ClassDef n bases l decs)) seen body fn)
        by apply H
  end.
  induction body as [|child rest IH]; intros seen fn0; [reflexivity|].
  simpl. apply IH.
Qed.

Lemma FindFunction_visit_While name test body orelse put fn :
  FindFunction_visit name (While test body orelse) put fn
  = FindFunction_visit_list name (fun l => put (While test body l)) [] orelse
      (FindFunction_visit_list name (fun l => put (While test l orelse)) [] body fn).
Proof.
  simpl.
  match goal with
  | |- ?f [] orelse (?g [] body fn) = _ =>
      assert (Hbody : forall seen fn, g seen body fn
                = FindFunction_visit_list name
                    (fun l => put (While test l orelse)) seen body fn);
      [| assert (Horelse : forall seen fn, f seen orelse fn
                   = FindFunction_visit_list name
                       (fun l => put (While test body l)) seen orelse fn);
         [| rewrite Hbody; apply Horelse ] ]
  end.
  - generalize orelse at 1 2 as fixed.
    induction body as [|child rest IH]; intros fixed seen fn0; [reflexivity|].
    simpl. apply IH.
  - generalize body at 1 2 as fixed. clear Hbody.
    induction orelse as [|child rest IH]; intros fixed seen fn0; [reflexivity|].
    simpl. apply IH.
Qed.

Lemma FindFunction_visit_If name test body orelse put fn :
  FindFunction_visit name (If test body orelse) put fn
  = FindFunction_visit_list name (fun l => put (If test body l)) [] orelse
      (FindFunction_visit_list name (fun l => put (If test l orelse)) [] body fn).
Proof.
  simpl.
  match goal with
  | |- ?f [] orelse (?g [] body fn) = _ =>
      assert (Hbody : forall seen fn, g seen body fn
                = FindFunction_visit_list name
                    (fun l => put (If test l orelse)) seen body fn);
      [| assert (Horelse : forall seen fn, f seen orelse fn
                   = FindFunction_visit_list name
                       (fun l => put (If test body l)) seen orelse fn);
         [| rewrite Hbody; apply Horelse ] ]
  end.
  - generalize orelse at 1 2 as fixed.
    induction body as [|child rest IH]; intros fixed seen fn0; [reflexivity|].
    simpl. apply IH.
  - generalize body at 1 2 as fixed. clear Hbody.
    induction orelse as [|child rest IH]; intros fixed seen fn0; [reflexivity|].
    simpl. apply IH.
Qed.

(** A statement that holds no definition of the name leaves the visitor's
    record as it is. *)
Lemma FindFunction_visit_list_skips name todo :
  Forall (fun node => defines name node = false ->
            forall put fn, FindFunction_visit name node put fn = fn) todo ->
  existsb (defines name) todo = false ->
  forall wrap seen fn, FindFunction_visit_list name wrap seen todo fn = fn.
Proof.
  induction 1 as [|child rest Hchild _ IH]; intros Hnone wrap seen fn; [reflexivity|].
  simpl in Hnone. apply orb_false_iff in Hnone as [Hc Hr].
  simpl. rewrite (Hchild Hc). apply IH, Hr.
Qed.

Lemma FindFunction_visit_skips name node :
  defines name node = false ->
  forall put fn, FindFunction_visit name node put fn = fn.
Proof.
  induction node as [n args body decs ret IHb | n bases body decs IHb
                    | test body orelse IHb IHo | test body orelse IHb IHo
                    | | | | | | ] using stmt_nested_ind;
    intros Hnone put fn; try reflexivity.
  - simpl in Hnone. apply orb_false_iff in Hnone as [Hn Hb].
    rewrite FindFunction_visit_FunctionDef, Hn.
    destruct fn as [r|]; [reflexivity|].
    apply FindFunction_visit_list_skips; assumption.
  - simpl in Hnone. rewrite FindFunction_visit_ClassDef.
    apply FindFunction_visit_list_skips; assumption.
  - simpl in Hnone. apply orb_false_iff in Hnone as [Hb Ho].
    rewrite FindFunction_visit_While.
    rewrite (FindFunction_visit_list_skips name orelse IHo Ho).
    apply FindFunction_visit_list_skips; assumption.
  - simpl in Hnone. apply orb_false_iff in Hnone as [Hb Ho].
    rewrite FindFunction_visit_If.
    rewrite (FindFunction_visit_list_skips name orelse IHo Ho).
    apply FindFunction_visit_list_skips; assumption.
Qed.

Lemma FindFunction_visit_body_skips name todo :
  existsb (defines name) todo = false ->
  forall wrap seen fn, FindFunction_visit_list name wrap seen todo fn = fn.
Proof.
  intros Hnone. apply FindFunction_visit_list_skips; [|exact Hnone].
  apply Forall_forall. intros node _. apply FindFunction_visit_skips.
Qed.

(** A statement that holds a definition of the name makes the visitor
    record something, and what is recorded, once recorded, stays or is
    replaced, never dropped. *)
Lemma FindFunction_visit_list_finds name todo :
  Forall (fun node => forall put fn,
            (is_Some fn -> is_Some (FindFunction_visit name node put fn))
            /\ (defines name node = true -> is_Some (FindFunction_visit name node put fn)))
         todo ->
  forall wrap seen fn,
    (is_Some fn -> is_Some (FindFunction_visit_list name wrap seen todo fn))
    /\ (existsb (defines name) todo = true ->
        is_Some (FindFunction_visit_list name wrap seen todo fn)).
Proof.
  induction 1 as [|child rest Hchild _ IH]; intros wrap seen fn.
  - simpl. split; [tauto | discriminate].
  - simpl. split.
    + intros Hfn. apply (proj1 (IH _ _ _)). apply (proj1 (Hchild _ _)), Hfn.
    + intros Hsome. apply orb_true_iff in Hsome as [Hc | Hr].
      * apply (proj1 (IH _ _ _)). apply (proj2 (Hchild _ _)), Hc.
      * apply (proj2 (IH _ _ _)), Hr.
Qed.

Lemma FindFunction_visit_finds name node :
  forall put fn,
    (is_Some fn -> is_Some (FindFunction_visit name node put fn))
    /\ (defines name node = true -> is_Some (FindFunction_visit name node put fn)).
Proof.
  induction node as [n args body decs ret IHb | n bases body decs IHb
                    | test body orelse IHb IHo | test body orelse IHb IHo
                    | | | | | | ] using stmt_nested_ind;
    intros put fn; try (simpl; split; [tauto | discriminate]).
  - rewrite FindFunction_visit_FunctionDef. simpl.
    destruct (String.eqb n name); [split; eauto|].
    destruct fn as [r|]; [split; eauto|].
    simpl. apply FindFunction_visit_list_finds, IHb.
  - rewrite FindFunction_visit_ClassDef. simpl.
    apply FindFunction_visit_list_finds, IHb.
  - rewrite FindFunction_visit_While. simpl. split.
    + intros Hfn.
      apply (proj1 (FindFunction_visit_list_finds name orelse IHo _ _ _)).
      apply (proj1 (FindFunction_visit_list_finds name body IHb _ _ _)), Hfn.
    + intros Hsome. apply orb_true_iff in Hsome as [Hb | Ho].
      * apply (proj1 (FindFunction_visit_list_finds name orelse IHo _ _ _)).
        apply (proj2 (FindFunction_visit_list_finds name body IHb _ _ _)), Hb.
      * apply (proj2 (FindFunction_visit_list_finds name orelse IHo _ _ _)), Ho.
  - rewrite FindFunction_visit_If. simpl. split.
    + intros Hfn.
      apply (proj1 (FindFunction_visit_list_finds name orelse IHo _ _ _)).
      apply (proj1 (FindFunction_visit_list_finds name body IHb _ _ _)), Hfn.
    + intros Hsome. apply orb_true_iff in Hsome as [Hb | Ho].
      * apply (proj1 (FindFunction_visit_list_finds name orelse IHo _ _ _)).
        apply (proj2 (FindFunction_visit_list_finds name body IHb _ _ _)), Hb.
      * apply (proj2 (FindFunction_visit_list_finds name orelse IHo _ _ _)), Ho.
Qed.

(** What the visitor records is a definition of the name, at its place in
    the tree. *)
Lemma FindFunction_visit_list_refers name tree todo :
  Forall (fun node => forall put fn,
            (forall r, fn = Some r -> refers_to name tree r) ->
            put node = tree ->
            forall r, FindFunction_visit name node put fn = Some r -> refers_to name tree r)
         todo ->
  forall wrap seen fn,
    (forall r, fn = Some r -> refers_to name tree r) ->
    wrap (seen ++ todo) = tree ->
    forall r, FindFunction_visit_list name wrap seen todo fn = Some r ->
              refers_to name tree r.
Proof.
  induction 1 as [|child rest Hchild _ IH]; intros wrap seen fn Hfn Hwrap r Hr.
  - simpl in Hr. apply Hfn, Hr.
  - simpl in Hr. revert Hr. apply IH.
    + intros r'. apply Hchild; [exact Hfn | exact Hwrap].
    + rewrite <- app_assoc. exact Hwrap.
Qed.

Lemma FindFunction_visit_refers name tree node :
  forall put fn,
    (forall r, fn = Some r -> refers_to name tree r) ->
    put node = tree ->
    forall r, FindFunction_visit name node put fn = Some r -> refers_to name tree r.
Proof.
  induction node as [n args body decs ret IHb | n bases body decs IHb
                    | test body orelse IHb IHo | test body orelse IHb IHo
                    | | | | | | ] using stmt_nested_ind;
    intros put fn Hfn Hput r; try (simpl; apply Hfn).
  - rewrite FindFunction_visit_FunctionDef.
    destruct (String.eqb n name) eqn:Hn.
    + apply String.eqb_eq in Hn. subst n. intros [= <-].
      split; [simpl; eauto | exact Hput].
    + destruct fn as [r0|]; [apply Hfn|].
      apply (FindFunction_visit_list_refers name tree body IHb); [discriminate | exact Hput].
  - rewrite FindFunction_visit_ClassDef.
    apply (FindFunction_visit_list_refers name tree body IHb); [exact Hfn | exact Hput].
  - rewrite FindFunction_visit_While.
    apply (FindFunction_visit_list_refers name tree orelse IHo); [| exact Hput].
    apply (FindFunction_visit_list_refers name tree body IHb); [exact Hfn | exact Hput].
  - rewrite FindFunction_visit_If.
    apply (FindFunction_visit_list_refers name tree orelse IHo); [| exact Hput].
    apply (FindFunction_visit_list_refers name tree body IHb); [exact Hfn | exact Hput].
Qed.

(** X8.  On a tree of function and class definitions, [while], [if],
    imports, assignments, expression statements and [pass] (no statement of
    a kind that is not represented, at any depth), [find_function] (lines
    358-378) raises "Function <name> not found." exactly when no function
    definition of the name occurs in the tree, at any depth; otherwise it
    returns a reference to a function definition of that name, at its place
    in the tree. *)
Theorem find_function_found_iff_defined (name : string) (tree : module)
  (Hrep : forallb represented (module_body tree) = true) :
  (existsb (defines name) (module_body tree) = false
   <-> find_function name tree
       = Raise (GenerateSourceException ("Function " ++ name ++ " not found.")))
  /\ (existsb (defines name) (module_body tree) = true
      <-> exists r, find_function name tree = Ok r)
  /\ (forall r, find_function name tree = Ok r -> refers_to name tree r).
Proof.
  destruct tree as [body]. unfold find_function. simpl.
  rewrite FindFunction_visit_body_list.
  assert (Hfinds := FindFunction_visit_list_finds name body
            (proj2 (Forall_forall _ _) (fun node _ => FindFunction_visit_finds name node))
            Module [] None).
  assert (Hskips := fun H => FindFunction_visit_body_skips name body H Module [] None).
  destruct (existsb (defines name) body) eqn:Hdef.
  - destruct Hfinds as [_ Hfinds]. destruct (Hfinds eq_refl) as [r Hr].
    rewrite Hr. split; [split; discriminate|]. split.
    + split; eauto.
    + intros r' [= <-].
      apply (FindFunction_visit_list_refers name (Module body) body
               (proj2 (Forall_forall _ _)
                  (fun node _ => FindFunction_visit_refers name (Module body) node))
               Module [] None); [discriminate | reflexivity | exact Hr].
  - rewrite (Hskips eq_refl). split; [split; reflexivity|]. split.
    + split; [discriminate | intros [r [=]]].
    + intros r [=].
Qed.

Lemma find_function_found_iff_defined_witness :
  exists r, find_function "main" empty_script_tree = Ok r.
Proof.
  apply (proj1 (proj2 (find_function_found_iff_defined "main" empty_script_tree eq_refl))).
  reflexivity.
Defined.

Lemma FindFunction_visit_list_last (name : string) (post : list stmt)
  (args : list arg) (body : list stmt) (decs : list expr) (ret : option expr) :
  existsb (defines name) post = false ->
  forall wrap todo seen fn,
    FindFunction_visit_list name wrap seen
      (todo ++ FunctionDef name args body decs ret :: post) fn
    = Some (FunctionDef name args body decs ret,
            fun child' => wrap ((seen ++ todo) ++ child' :: post)).
Proof.
  intros Hpost wrap. induction todo as [|child rest IH]; intros seen fn.
  - simpl. rewrite String.eqb_refl.
    rewrite (FindFunction_visit_body_skips name post Hpost).
    rewrite app_nil_r. reflexivity.
  - simpl. rewrite IH. rewrite <- app_assoc. reflexivity.
Qed.

Lemma find_function_last (name : string) (pre post : list stmt)
  (args : list arg) (body : list stmt) (decs : list expr) (ret : option expr) :
  existsb (defines name) post = false ->
  find_function name (Module (pre ++ FunctionDef name args body decs ret :: post))
  = Ok (FunctionDef name args body decs ret, fun node => Module (pre ++ node :: post)).
Proof.
  intros Hpost. unfold find_function. simpl.
  rewrite FindFunction_visit_body_list.
  rewrite (FindFunction_visit_list_last name post args body decs ret Hpost). reflexivity.
Qed.

(** X9.  [find_function] returns the last top-level definition of the
    name: a module-level definition after which the name is not defined
    again (the statements after it being of the represented kinds, so that
    no body is left unread) is the one returned, whatever is defined before
    it, and the reference replaces that definition and nothing else. *)
Theorem find_function_last_definition_wins (name : string) (pre post : list stmt)
  (args : list arg) (body : list stmt) (decs : list expr) (ret : option expr)
  (Hrep : forallb represented post = true)
  (Hpost : existsb (defines name) post = false) :
  exists put,
    find_function name (Module (pre ++ FunctionDef name args body decs ret :: post))
    = Ok (FunctionDef name args body decs ret, put)
    /\ forall node, put node = Module (pre ++ node :: post).
Proof.
  eexists. split; [apply find_function_last, Hpost|]. reflexivity.
Qed.

Lemma find_function_last_definition_wins_witness :
  exists put,
    find_function "main"
      (Module ([FunctionDef "main" [] [Pass] [] None]
               ++ FunctionDef "main" [] [While (NameConstant CTrue) [Pass] []] [] None
               :: [entry_guard]))
    = Ok (FunctionDef "main" [] [While (NameConstant CTrue) [Pass] []] [] None, put)
    /\ forall node,
         put node = Module ([FunctionDef "main" [] [Pass] [] None] ++ node :: [entry_guard]).
Proof.
  apply (find_function_last_definition_wins "main"
           [FunctionDef "main" [] [Pass] [] None] [entry_guard]);
    reflexivity.
Defined.

(** ** [add_import] on every tree *)

Lemma AddImportTransformer_visit_ClassDef (m c n : string) (bases : list expr)
  (body : list stmt) (decs : list expr) (done : bool) :
  AddImportTransformer_visit m c (ClassDef n bases body decs) done =
  let '(body', done') := AddImportTransformer_visit_body m c body done in
  (ClassDef n bases body' decs, done').
Proof.
  simpl.
  match goal with
  | |- (let '(_, _) := ?f body done in _) = _ =>
      assert (Hfix : forall todo d, f todo d = AddImportTransformer_visit_body m c todo d)
  end.
  { induction todo as [|child rest IH]; intros d; simpl; [reflexivity|].
    destruct (AddImportTransformer_visit m c child d) as [child' d1].
    rewrite IH. reflexivity. }
  rewrite Hfix. reflexivity.
Qed.

Lemma AddImportTransformer_visit_While (m c : string) (test : expr)
  (body orelse : list stmt) (done : bool) :
  AddImportTransformer_visit m c (While test body orelse) done =
  (While test (AddImportTransformer_visit_body m c body done).1
     (AddImportTransformer_visit_body m c orelse
        (AddImportTransformer_visit_body m c body done).2).1,
   (AddImportTransformer_visit_body m c orelse
      (AddImportTransformer_visit_body m c body done).2).2).
Proof.
  simpl.
  match goal with
  | |- (let '(_, _) := ?f body done in _) = _ =>
      assert (Hfix : forall todo d, f todo d = AddImportTransformer_visit_body m c todo d)
  end.
  { induction todo as [|child rest IH]; intros d; simpl; [reflexivity|].
    destruct (AddImportTransformer_visit m c child d) as [child' d1].
    rewrite IH. reflexivity. }
  rewrite (Hfix body done).
  destruct (AddImportTransformer_visit_body m c body done) as [body' d1].
  cbn [fst snd]. rewrite (Hfix orelse d1).
  destruct (AddImportTransformer_visit_body m c orelse d1) as [orelse' d2].
  reflexivity.
Qed.

Lemma AddImportTransformer_visit_If (m c : string) (test : expr)
  (body orelse : list stmt) (done : bool) :
  AddImportTransformer_visit m c (If test body orelse) done =
  (If test (AddImportTransformer_visit_body m c body done).1
     (AddImportTransformer_visit_body m c orelse
        (AddImportTransformer_visit_body m c body done).2).1,
   (AddImportTransformer_visit_body m c orelse
      (AddImportTransformer_visit_body m c body done).2).2).
Proof.
  simpl.
  match goal with
  | |- (let '(_, _) := ?f body done in _) = _ =>
      assert (Hfix : forall todo d, f todo d = AddImportTransformer_visit_body m c todo d)
  end.
  { induction todo as [|child rest IH]; intros d; simpl; [reflexivity|].
    destruct (AddImportTransformer_visit m c child d) as [child' d1].
    rewrite IH. reflexivity. }
  rewrite (Hfix body done).
  destruct (AddImportTransformer_visit_body m c body done) as [body' d1].
  cbn [fst snd]. rewrite (Hfix orelse d1).
  destruct (AddImportTransformer_visit_body m c orelse d1) as [orelse' d2].
  reflexivity.
Qed.

Lemma AddImportTransformer_visit_body_cons (m c : string) (child : stmt)
  (rest : list stmt) (done : bool) :
  AddImportTransformer_visit_body m c (child :: rest) done =
  ((AddImportTransformer_visit m c child done).1
     :: (AddImportTransformer_visit_body m c rest
           (AddImportTransformer_visit m c child done).2).1,
   (AddImportTransformer_visit_body m c rest
      (AddImportTransformer_visit m c child done).2).2).
Proof.
  simpl. destruct (AddImportTransformer_visit m c child done) as [child' d1].
  cbn [fst snd].
  destruct (AddImportTransformer_visit_body m c rest d1) as [rest' d2].
  reflexivity.
Qed.

Lemma FunctionDef_visit_body (m c n : string) (args : list arg)
  (body : list stmt) (decs : list expr) (rt : option expr) (done : bool) :
  AddImportTransformer_visit m c (FunctionDef n args body decs rt) done =
  (FunctionDef n args (AddImportTransformer_visit_body m c body done).1 decs rt,
   (AddImportTransformer_visit_body m c body done).2).
Proof.
  rewrite AddImportTransformer_visit_FunctionDef.
  destruct (AddImportTransformer_visit_body m c body done). reflexivity.
Qed.

Lemma ClassDef_visit_body (m c n : string) (bases : list expr)
  (body : list stmt) (decs : list expr) (done : bool) :
  AddImportTransformer_visit m c (ClassDef n bases body decs) done =
  (ClassDef n bases (AddImportTransformer_visit_body m c body done).1 decs,
   (AddImportTransformer_visit_body m c body done).2).
Proof.
  rewrite AddImportTransformer_visit_ClassDef.
  destruct (AddImportTransformer_visit_body m c body done). reflexivity.
Qed.

(** The flag only ever goes up, and the rewritten statement does not depend
    on it. *)
Lemma AddImportTransformer_visit_body_done_from (m c : string) (todo : list stmt) :
  Forall (fun node => forall d,
            AddImportTransformer_visit m c node d
            = ((AddImportTransformer_visit m c node false).1,
               d || (AddImportTransformer_visit m c node false).2)) todo ->
  forall d,
    AddImportTransformer_visit_body m c todo d
    = ((AddImportTransformer_visit_body m c todo false).1,
       d || (AddImportTransformer_visit_body m c todo false).2).
Proof.
  induction 1 as [|child rest Hchild _ IH]; intros d.
  - simpl. rewrite orb_false_r. reflexivity.
  - rewrite !AddImportTransformer_visit_body_cons. rewrite (Hchild d). simpl.
    rewrite (IH (d || _)).
    rewrite (IH (AddImportTransformer_visit m c child false).2). simpl.
    rewrite orb_assoc. reflexivity.
Qed.

Lemma AddImportTransformer_visit_done (m c : string) (node : stmt) :
  forall d,
    AddImportTransformer_visit m c node d
    = ((AddImportTransformer_visit m c node false).1,
       d || (AddImportTransformer_visit m c node false).2).
Proof.
  induction node as [n args body decs ret IHb | n bases body decs IHb
                    | test body orelse IHb IHo | test body orelse IHb IHo
                    | mo names level | | | | | ] using stmt_nested_ind;
    intros d; try (simpl; rewrite orb_false_r; reflexivity).
  - rewrite !FunctionDef_visit_body.
    rewrite (AddImportTransformer_visit_body_done_from m c body IHb d). reflexivity.
  - rewrite !ClassDef_visit_body.
    rewrite (AddImportTransformer_visit_body_done_from m c body IHb d). reflexivity.
  - rewrite !AddImportTransformer_visit_While.
    rewrite (AddImportTransformer_visit_body_done_from m c body IHb d). simpl.
    rewrite (AddImportTransformer_visit_body_done_from m c orelse IHo (d || _)).
    rewrite (AddImportTransformer_visit_body_done_from m c orelse IHo
               (AddImportTransformer_visit_body m c body false).2).
    simpl. rewrite orb_assoc. reflexivity.
  - rewrite !AddImportTransformer_visit_If.
    rewrite (AddImportTransformer_visit_body_done_from m c body IHb d). simpl.
    rewrite (AddImportTransformer_visit_body_done_from m c orelse IHo (d || _)).
    rewrite (AddImportTransformer_visit_body_done_from m c orelse IHo
               (AddImportTransformer_visit_body m c body false).2).
    simpl. rewrite orb_assoc. reflexivity.
  - simpl. destruct (String.eqb mo m).
    + destruct (existsb _ names); simpl; rewrite orb_true_r; reflexivity.
    + simpl. rewrite orb_false_r. reflexivity.
Qed.

Lemma AddImportTransformer_visit_body_done (m c : string) (todo : list stmt) (d : bool) :
  AddImportTransformer_visit_body m c todo d
  = ((AddImportTransformer_visit_body m c todo false).1,
     d || (AddImportTransformer_visit_body m c todo false).2).
Proof.
  apply AddImportTransformer_visit_body_done_from, Forall_forall.
  intros node _. apply AddImportTransformer_visit_done.
Qed.

(** A second pass changes nothing. *)
Lemma AddImportTransformer_visit_body_again_from (m c : string) (todo : list stmt) :
  Forall (fun node => forall d,
            AddImportTransformer_visit m c (AddImportTransformer_visit m c node false).1 d
            = ((AddImportTransformer_visit m c node false).1,
               d || (AddImportTransformer_visit m c node false).2)) todo ->
  forall d,
    AddImportTransformer_visit_body m c (AddImportTransformer_visit_body m c todo false).1 d
    = ((AddImportTransformer_visit_body m c todo false).1,
       d || (AddImportTransformer_visit_body m c todo false).2).
Proof.
  induction 1 as [|child rest Hchild _ IH]; intros d.
  - simpl. rewrite orb_false_r. reflexivity.
  - rewrite (AddImportTransformer_visit_body_cons m c child rest false). cbn [fst snd].
    rewrite (AddImportTransformer_visit_body_done m c rest
               (AddImportTransformer_visit m c child false).2). cbn [fst snd].
    rewrite AddImportTransformer_visit_body_cons. rewrite (Hchild d). cbn [fst snd].
    rewrite (IH (d || _)). cbn [fst snd]. rewrite orb_assoc. reflexivity.
Qed.

Lemma existsb_alias_snoc (cls : string) (names : list alias) :
  existsb (fun aliass => String.eqb (alias_name aliass) cls) (names ++ [Alias cls None])
  = true.
Proof.
  rewrite existsb_app. simpl. rewrite String.eqb_refl, orb_true_r. reflexivity.
Qed.

Lemma AddImportTransformer_visit_again (m c : string) (node : stmt) :
  forall d,
    AddImportTransformer_visit m c (AddImportTransformer_visit m c node false).1 d
    = ((AddImportTransformer_visit m c node false).1,
       d || (AddImportTransformer_visit m c node false).2).
Proof.
  induction node as [n args body decs ret IHb | n bases body decs IHb
                    | test body orelse IHb IHo | test body orelse IHb IHo
                    | mo names level | | | | | ] using stmt_nested_ind;
    intros d; try (simpl; rewrite orb_false_r; reflexivity).
  - rewrite (FunctionDef_visit_body m c n args body decs ret false). cbn [fst snd].
    rewrite FunctionDef_visit_body.
    rewrite (AddImportTransformer_visit_body_again_from m c body IHb d). reflexivity.
  - rewrite (ClassDef_visit_body m c n bases body decs false). cbn [fst snd].
    rewrite ClassDef_visit_body.
    rewrite (AddImportTransformer_visit_body_again_from m c body IHb d). reflexivity.
  - rewrite (AddImportTransformer_visit_While m c test body orelse false). cbn [fst snd].
    rewrite (AddImportTransformer_visit_body_done m c orelse
               (AddImportTransformer_visit_body m c body false).2). cbn [fst snd].
    rewrite AddImportTransformer_visit_While.
    rewrite (AddImportTransformer_visit_body_again_from m c body IHb d). cbn [fst snd].
    rewrite (AddImportTransformer_visit_body_again_from m c orelse IHo (d || _)). cbn [fst snd].
    rewrite orb_assoc. reflexivity.
  - rewrite (AddImportTransformer_visit_If m c test body orelse false). cbn [fst snd].
    rewrite (AddImportTransformer_visit_body_done m c orelse
               (AddImportTransformer_visit_body m c body false).2). cbn [fst snd].
    rewrite AddImportTransformer_visit_If.
    rewrite (AddImportTransformer_visit_body_again_from m c body IHb d). cbn [fst snd].
    rewrite (AddImportTransformer_visit_body_again_from m c orelse IHo (d || _)). cbn [fst snd].
    rewrite orb_assoc. reflexivity.
  - simpl. destruct (String.eqb mo m) eqn:Hm.
    + destruct (existsb _ names) eqn:Hnames; simpl; rewrite Hm.
      * rewrite Hnames, orb_true_r. reflexivity.
      * rewrite existsb_alias_snoc, orb_true_r. reflexivity.
    + simpl. rewrite Hm, orb_false_r. reflexivity.
Qed.

Lemma AddImportTransformer_visit_body_again (m c : string) (todo : list stmt) (d : bool) :
  AddImportTransformer_visit_body m c (AddImportTransformer_visit_body m c todo false).1 d
  = ((AddImportTransformer_visit_body m c todo false).1,
     d || (AddImportTransformer_visit_body m c todo false).2).
Proof.
  apply AddImportTransformer_visit_body_again_from, Forall_forall.
  intros node _. apply AddImportTransformer_visit_again.
Qed.

(** ** [FindImport] after [add_import] *)

Lemma FindImport_names_found (cls : string) (names : list alias) (found : bool) :
  fold_left (fun f node_alias =>
               if String.eqb (alias_name node_alias) cls then true else f) names found
  = found || existsb (fun a => String.eqb (alias_name a) cls) names.
Proof.
  revert found. induction names as [|a names IH]; intros found; simpl.
  - rewrite orb_false_r. reflexivity.
  - rewrite IH. destruct (String.eqb (alias_name a) cls), found; reflexivity.
Qed.

Lemma FindImport_fold_true_from (cls : string) (todo : list stmt) :
  Forall (fun node => FindImport_visit cls node true = true) todo ->
  fold_left (fun f child => FindImport_visit cls child f) todo true = true.
Proof.
  induction 1 as [|child rest Hchild _ IH]; simpl; [reflexivity|].
  rewrite Hchild. exact IH.
Qed.

Lemma FindImport_visit_true (cls : string) (node : stmt) :
  FindImport_visit cls node true = true.
Proof.
  induction node as [n args body decs ret IHb | n bases body decs IHb
                    | test body orelse IHb IHo | test body orelse IHb IHo
                    | mo names level | | | | | ] using stmt_nested_ind;
    try reflexivity; simpl.
  - apply FindImport_fold_true_from, IHb.
  - apply FindImport_fold_true_from, IHb.
  - rewrite (FindImport_fold_true_from cls body IHb).
    apply FindImport_fold_true_from, IHo.
  - rewrite (FindImport_fold_true_from cls body IHb).
    apply FindImport_fold_true_from, IHo.
  - apply FindImport_names_found.
Qed.

Lemma FindImport_fold_true (cls : string) (todo : list stmt) :
  fold_left (fun f child => FindImport_visit cls child f) todo true = true.
Proof.
  apply FindImport_fold_true_from, Forall_forall.
  intros node _. apply FindImport_visit_true.
Qed.

Lemma FindImport_fold_added_from (m cls : string) (todo : list stmt) :
  Forall (fun node => (AddImportTransformer_visit m cls node false).2 = true ->
            forall f,
              FindImport_visit cls (AddImportTransformer_visit m cls node false).1 f = true)
         todo ->
  (AddImportTransformer_visit_body m cls todo false).2 = true ->
  forall f,
    fold_left (fun f child => FindImport_visit cls child f)
      (AddImportTransformer_visit_body m cls todo false).1 f = true.
Proof.
  induction 1 as [|child rest Hchild _ IH]; intros Hdone f; [discriminate Hdone|].
  rewrite AddImportTransformer_visit_body_cons in Hdone |- *. simpl in Hdone |- *.
  rewrite AddImportTransformer_visit_body_done in Hdone |- *. simpl in Hdone |- *.
  destruct (AddImportTransformer_visit m cls child false).2 eqn:Hd1.
  - rewrite (Hchild eq_refl f). apply FindImport_fold_true.
  - simpl in Hdone. apply IH, Hdone.
Qed.

Lemma FindImport_visit_added (m cls : string) (node : stmt) :
  (AddImportTransformer_visit m cls node false).2 = true ->
  forall f, FindImport_visit cls (AddImportTransformer_visit m cls node false).1 f = true.
Proof.
  induction node as [n args body decs ret IHb | n bases body decs IHb
                    | test body orelse IHb IHo | test body orelse IHb IHo
                    | mo names level | | | | | ] using stmt_nested_ind;
    try discriminate.
  - rewrite FunctionDef_visit_body. simpl. intros Hdone f.
    apply (FindImport_fold_added_from m cls body IHb Hdone).
  - rewrite ClassDef_visit_body. simpl. intros Hdone f.
    apply (FindImport_fold_added_from m cls body IHb Hdone).
  - rewrite AddImportTransformer_visit_While. simpl.
    rewrite (AddImportTransformer_visit_body_done m cls orelse). simpl.
    intros Hdone f.
    destruct (AddImportTransformer_visit_body m cls body false).2 eqn:Hd1.
    + rewrite (FindImport_fold_added_from m cls body IHb Hd1). apply FindImport_fold_true.
    + simpl in Hdone. apply (FindImport_fold_added_from m cls orelse IHo Hdone).
  - rewrite AddImportTransformer_visit_If. simpl.
    rewrite (AddImportTransformer_visit_body_done m cls orelse). simpl.
    intros Hdone f.
    destruct (AddImportTransformer_visit_body m cls body false).2 eqn:Hd1.
    + rewrite (FindImport_fold_added_from m cls body IHb Hd1). apply FindImport_fold_true.
    + simpl in Hdone. apply (FindImport_fold_added_from m cls orelse IHo Hdone).
  - simpl. destruct (String.eqb mo m); [|discriminate].
    destruct (existsb _ names) eqn:Hnames; simpl; intros _ f;
      rewrite FindImport_names_found.
    + rewrite Hnames. apply orb_true_r.
    + rewrite existsb_alias_snoc. apply orb_true_r.
Qed.

Lemma FindImport_after_add_import (tree : module) (m cls : string) :
  fold_left (fun f child => FindImport_visit cls child f)
    (module_body (add_import tree m cls)) false = true.
Proof.
  unfold add_import.
  destruct (AddImportTransformer_visit_body m cls (module_body tree) false)
    as [body done] eqn:Hvisit.
  destruct done.
  - simpl.
    assert (Hbody : body = (AddImportTransformer_visit_body m cls (module_body tree) false).1)
      by (rewrite Hvisit; reflexivity).
    rewrite Hbody. apply FindImport_fold_added_from.
    + apply Forall_forall. intros node _. apply FindImport_visit_added.
    + rewrite Hvisit. reflexivity.
  - simpl. rewrite String.eqb_refl. apply FindImport_fold_true.
Qed.

(** X10.  [add_import] (lines 381-430, without the import check) is
    idempotent on every tree: importing the same class from the same module
    a second time leaves the tree as the first call made it. *)
Theorem add_import_idempotent (tree : module) (m cls : string) :
  add_import (add_import tree m cls) m cls = add_import tree m cls.
Proof.
  pose proof (AddImportTransformer_visit_body_again m cls (module_body tree)) as Hagain.
  assert (Hadd : add_import tree m cls
                 = if (AddImportTransformer_visit_body m cls (module_body tree) false).2
                   then Module (AddImportTransformer_visit_body m cls (module_body tree) false).1
                   else Module (ImportFrom m [Alias cls None] 0
                                :: (AddImportTransformer_visit_body m cls
                                      (module_body tree) false).1)).
  { unfold add_import.
    destruct (AddImportTransformer_visit_body m cls (module_body tree) false) as [body []];
      reflexivity. }
  rewrite Hadd.
  destruct (AddImportTransformer_visit_body m cls (module_body tree) false).2 eqn:Hdone.
  - unfold add_import. cbn [module_body]. rewrite (Hagain false). reflexivity.
  - unfold add_import. cbn [module_body].
    rewrite AddImportTransformer_visit_body_cons.
    assert (Himport : AddImportTransformer_visit m cls (ImportFrom m [Alias cls None] 0) false
                      = (ImportFrom m [Alias cls None] 0, true))
      by (simpl; rewrite !String.eqb_refl; reflexivity).
    rewrite Himport. cbn [fst snd]. rewrite (Hagain true). reflexivity.
Qed.

(** ** [add_cls_inst] *)

Lemma FindClsInst_visit_FunctionDef (cls name n : string) (args : list arg)
  (body : list stmt) (decs : list expr) (rt : option expr) (found : bool) :
  FindClsInst_visit cls name (FunctionDef n args body decs rt) found =
  let* found1 := if String.eqb n "main"
                 then FindClsInst_items cls name body found
                 else Ok found in
  if found1 then Ok found1 else FindClsInst_visit_body cls name body found1.
Proof.
  simpl.
  destruct (if String.eqb n "main" then FindClsInst_items cls name body found else Ok found)
    as [[|]|e]; try reflexivity.
  simpl. generalize false as f.
  induction body as [|child rest IH]; intros f; simpl; [reflexivity|].
  destruct (FindClsInst_visit cls name child f) as [f1|e]; [apply IH | reflexivity].
Qed.

Lemma FindClsInst_visit_ClassDef (cls name n : string) (bases : list expr)
  (body : list stmt) (decs : list expr) (found : bool) :
  FindClsInst_visit cls name (ClassDef n bases body decs) found =
  FindClsInst_visit_body cls name body found.
Proof.
  simpl. revert found.
  induction body as [|child rest IH]; intros f; simpl; [reflexivity|].
  destruct (FindClsInst_visit cls name child f) as [f1|e]; [apply IH | reflexivity].
Qed.

Lemma FindClsInst_visit_While (cls name : string) (test : expr)
  (body orelse : list stmt) (found : bool) :
  FindClsInst_visit cls name (While test body orelse) found =
  let* f1 := FindClsInst_visit_body cls name body found in
  FindClsInst_visit_body cls name orelse f1.
Proof.
  simpl.
  match goal with
  | |- bind (?f body found) _ = _ =>
      assert (Hfix : forall todo d, f todo d = FindClsInst_visit_body cls name todo d)
  end.
  { induction todo as [|child rest IH]; intros d; simpl; [reflexivity|].
    destruct (FindClsInst_visit cls name child d) as [f1|e]; [apply IH | reflexivity]. }
  rewrite Hfix. destruct (FindClsInst_visit_body cls name body found); simpl;
    [apply Hfix | reflexivity].
Qed.

Lemma FindClsInst_visit_If (cls name : string) (test : expr)
  (body orelse : list stmt) (found : bool) :
  FindClsInst_visit cls name (If test body orelse) found =
  let* f1 := FindClsInst_visit_body cls name body found in
  FindClsInst_visit_body cls name orelse f1.
Proof.
  simpl.
  match goal with
  | |- bind (?f body found) _ = _ =>
      assert (Hfix : forall todo d, f todo d = FindClsInst_visit_body cls name todo d)
  end.
  { induction todo as [|child rest IH]; intros d; simpl; [reflexivity|].
    destruct (FindClsInst_visit cls name child d) as [f1|e]; [apply IH | reflexivity]. }
  rewrite Hfix. destruct (FindClsInst_visit_body cls name body found); simpl;
    [apply Hfix | reflexivity].
Qed.

Lemma get_id_raises (e : expr) (x : exn) : get_id e = Raise x -> x = AttributeError.
Proof. destruct e; simpl; congruence. Qed.

Lemma get_func_raises (e : expr) (x : exn) : get_func e = Raise x -> x = AttributeError.
Proof. destruct e; simpl; congruence. Qed.

Lemma FindClsInst_items_errors (cls name : string) (items : list stmt) (found : bool)
  (e : exn) :
  FindClsInst_items cls name items found = Raise e -> cls_inst_error name e.
Proof.
  revert found. induction items as [|item rest IH]; intros found; [discriminate|].
  destruct item; simpl; try apply IH.
  destruct targets as [|t ts]; simpl; [intros [= <-]; left; reflexivity|].
  destruct (get_id t) as [i|e1] eqn:Ht; simpl.
  - destruct (String.eqb i name); [|apply IH].
    destruct (get_func value) as [f|e1] eqn:Hf; simpl.
    + destruct (get_id f) as [fid|e2] eqn:Hfid; simpl.
      * destruct (negb (String.eqb fid cls)); [|apply IH].
        intros [= <-]. right; right. exists fid. reflexivity.
      * intros [= <-]. right; left. exact (get_id_raises _ _ Hfid).
    + intros [= <-]. right; left. exact (get_func_raises _ _ Hf).
  - intros [= <-]. right; left. exact (get_id_raises _ _ Ht).
Qed.

Lemma FindClsInst_visit_body_errors_from (cls name : string) (todo : list stmt) :
  Forall (fun node => forall found e,
            FindClsInst_visit cls name node found = Raise e -> cls_inst_error name e) todo ->
  forall found e,
    FindClsInst_visit_body cls name todo found = Raise e -> cls_inst_error name e.
Proof.
  induction 1 as [|child rest Hchild _ IH]; intros found e; [discriminate|].
  simpl. destruct (FindClsInst_visit cls name child found) as [f1|e1] eqn:Hc; simpl.
  - apply IH.
  - intros [= <-]. exact (Hchild _ _ Hc).
Qed.

Lemma FindClsInst_visit_errors (cls name : string) (node : stmt) :
  forall found e,
    FindClsInst_visit cls name node found = Raise e -> cls_inst_error name e.
Proof.
  induction node as [n args body decs ret IHb | n bases body decs IHb
                    | test body orelse IHb IHo | test body orelse IHb IHo
                    | | | | | | ] using stmt_nested_ind;
    intros found e; try discriminate.
  - rewrite FindClsInst_visit_FunctionDef.
    destruct (if String.eqb n "main" then FindClsInst_items cls name body found else Ok found)
      as [[|]|e1] eqn:Hitems; simpl; [discriminate | |].
    + apply (FindClsInst_visit_body_errors_from cls name body IHb).
    + intros [= <-]. destruct (String.eqb n "main"); [|discriminate].
      exact (FindClsInst_items_errors _ _ _ _ _ Hitems).
  - rewrite FindClsInst_visit_ClassDef.
    apply (FindClsInst_visit_body_errors_from cls name body IHb).
  - rewrite FindClsInst_visit_While.
    destruct (FindClsInst_visit_body cls name body found) as [f1|e1] eqn:Hb; simpl.
    + apply (FindClsInst_visit_body_errors_from cls name orelse IHo).
    + intros [= <-]. exact (FindClsInst_visit_body_errors_from cls name body IHb _ _ Hb).
  - rewrite FindClsInst_visit_If.
    destruct (FindClsInst_visit_body cls name body found) as [f1|e1] eqn:Hb; simpl.
    + apply (FindClsInst_visit_body_errors_from cls name orelse IHo).
    + intros [= <-]. exact (FindClsInst_visit_body_errors_from cls name body IHb _ _ Hb).
Qed.

Lemma FindClsInst_visit_body_errors (cls name : string) (todo : list stmt) (found : bool)
  (e : exn) :
  FindClsInst_visit_body cls name todo found = Raise e -> cls_inst_error name e.
Proof.
  apply FindClsInst_visit_body_errors_from, Forall_forall.
  intros node _. apply FindClsInst_visit_errors.
Qed.

Lemma cls_inst_error_not_import (cls name : string) (e : exn) :
  cls_inst_error name e ->
  e <> GenerateSourceException ("Class '" ++ cls ++ "' not imported!").
Proof.
  intros [-> | [-> | [fid ->]]]; discriminate.
Qed.

(** X11.  After [add_import] of a class, [add_cls_inst] of that class
    never raises "Class '<cls>' not imported!"; in general it raises that
    error exactly when [FindImport] finds the class in no [ImportFrom] of
    the tree. *)
Theorem add_cls_inst_after_add_import (tree : module) (m cls name : string) :
  add_cls_inst (add_import tree m cls) cls name
  <> Raise (GenerateSourceException ("Class '" ++ cls ++ "' not imported!"))
  /\ (add_cls_inst tree cls name
      = Raise (GenerateSourceException ("Class '" ++ cls ++ "' not imported!"))
      <-> fold_left (fun f child => FindImport_visit cls child f) (module_body tree) false
          = false).
Proof.
  assert (Hgen : forall t,
             add_cls_inst t cls name
             = Raise (GenerateSourceException ("Class '" ++ cls ++ "' not imported!"))
             <-> fold_left (fun f child => FindImport_visit cls child f) (module_body t) false
                 = false).
  { intros t. unfold add_cls_inst.
    destruct (fold_left _ (module_body t) false); simpl.
    - split; [|discriminate].
      destruct (FindClsInst_visit_body cls name (module_body t) false) as [[|]|e] eqn:Hfind;
        simpl; try discriminate.
      intros [= ->].
      apply FindClsInst_visit_body_errors in Hfind.
      exfalso. exact (cls_inst_error_not_import cls name _ Hfind eq_refl).
    - split; reflexivity. }
  split; [|apply Hgen].
  intros Hraise. apply Hgen in Hraise.
  rewrite FindImport_after_add_import in Hraise. discriminate.
Qed.

(** X12.  The exceptions of the call [add_cls_inst(node, cls, name)],
    with [kwargs] and [kwargs2parse] left at [None] as the program calls it
    (lines 435-478 and 497-508; [parse(v)] of line 488 is not run): the
    class is not imported, the name is bound to an instance of another
    class, or a statement of [main] lacks an attribute or a target that
    lines 462-464 read ([AttributeError], [IndexError]); nothing else. *)
Theorem add_cls_inst_errors (tree : module) (cls name : string) (e : exn) :
  add_cls_inst tree cls name = Raise e ->
  e = GenerateSourceException ("Class '" ++ cls ++ "' not imported!")
  \/ cls_inst_error name e.
Proof.
  unfold add_cls_inst.
  destruct (fold_left _ (module_body tree) false); simpl.
  - destruct (FindClsInst_visit_body cls name (module_body tree) false) as [[|]|e1] eqn:Hfind;
      simpl; try discriminate.
    intros [= <-]. right. exact (FindClsInst_visit_body_errors _ _ _ _ _ Hfind).
  - intros [= <-]. left. reflexivity.
Qed.

(** ** [add_cls_inst] on a program skeleton *)













(** ** Where the statements are put in [main] *)

Lemma last_assign_idx_loop_none (body : list stmt) (idx : nat) (acc : option nat) :
  Forall (fun node => simple_assign node = false) body ->
  last_assign_idx_loop idx body acc = acc.
Proof.
  intros Hbody. revert idx. induction Hbody as [|node body Hnode _ IH]; intros idx;
    [reflexivity|].
  simpl. destruct node; try discriminate Hnode; apply IH.
Qed.

Lemma last_assign_idx_loop_last (before after : list stmt) (a : stmt) (idx : nat)
  (acc : option nat) :
  simple_assign a = true ->
  Forall (fun node => simple_assign node = false) after ->
  last_assign_idx_loop idx (before ++ a :: after) acc = Some (idx + length before).
Proof.
  intros Ha Hafter. revert idx acc.
  induction before as [|node before IH]; intros idx acc.
  - simpl. rewrite (last_assign_idx_loop_none after _ _ Hafter).
    rewrite Nat.add_0_r. destruct a; try discriminate Ha; reflexivity.
  - simpl. rewrite IH. f_equal. lia.
Qed.

Lemma last_plain_assign_idx_loop_none (body : list stmt) (idx : nat) (acc : option nat) :
  Forall (fun node => isinstance_Assign node = false) body ->
  last_plain_assign_idx_loop idx body acc = acc.
Proof.
  intros Hbody. revert idx. induction Hbody as [|node body Hnode _ IH]; intros idx;
    [reflexivity|].
  simpl. rewrite Hnode. apply IH.
Qed.

Lemma last_plain_assign_idx_loop_last (before after : list stmt) (a : stmt) (idx : nat)
  (acc : option nat) :
  isinstance_Assign a = true ->
  Forall (fun node => isinstance_Assign node = false) after ->
  last_plain_assign_idx_loop idx (before ++ a :: after) acc = Some (idx + length before).
Proof.
  intros Ha Hafter. revert idx acc.
  induction before as [|node before IH]; intros idx acc.
  - simpl. rewrite Ha, (last_plain_assign_idx_loop_none after _ _ Hafter).
    rewrite Nat.add_0_r. reflexivity.
  - simpl. rewrite IH. f_equal. lia.
Qed.

Lemma list_insert_at_after (before after : list stmt) (a x : stmt) :
  list_insert_at (length before + 1) x (before ++ a :: after)
  = before ++ a :: x :: after.
Proof.
  unfold list_insert_at.
  replace (before ++ a :: after) with ((before ++ [a]) ++ after)
    by (rewrite <- app_assoc; reflexivity).
  replace (length before + 1) with (length (before ++ [a]))
    by (rewrite length_app; reflexivity).
  rewrite take_app_length, drop_app_length, <- app_assoc. reflexivity.
Qed.

(** X14.  [object_instance_from_res] (lines 278-311) in the [main] that
    [find_function] returns, a top-level [main] followed by statements of
    the represented kinds that do not define [main]: a body without [Assign]
    and [AnnAssign] raises a [GenerateSourceException]; otherwise the
    binding [name: cls = res.objects[id]] is put right after the last of
    them and nothing else changes. *)
Theorem object_instance_from_res_placement (pre post : list stmt) (args : list arg)
  (body : list stmt) (decs : list expr) (ret : option expr)
  (object_id cls_name : string)
  (Hrep : forallb represented post = true)
  (Hpost : existsb (defines "main") post = false) :
  (Forall (fun node => simple_assign node = false) body ->
   object_instance_from_res
     (Module (pre ++ FunctionDef "main" args body decs ret :: post)) object_id cls_name
   = Raise (GenerateSourceException ""))
  /\ (forall before a after,
        body = before ++ a :: after ->
        simple_assign a = true ->
        Forall (fun node => simple_assign node = false) after ->
        object_instance_from_res
          (Module (pre ++ FunctionDef "main" args body decs ret :: post)) object_id cls_name
        = Ok (Module (pre ++ FunctionDef "main" args
                               (before ++ a
                                  :: object_binding {| obj_id := object_id;
                                                       obj_type := cls_name |}
                                  :: after) decs ret :: post))).
Proof.
  unfold object_instance_from_res.
  rewrite (find_function_last "main" pre post args body decs ret Hpost).
  cbn [bind function_body]. split.
  - intros Hbody. rewrite (last_assign_idx_loop_none body 0 None Hbody). reflexivity.
  - intros before a after -> Ha Hafter.
    rewrite (last_assign_idx_loop_last before after a 0 None Ha Hafter).
    cbn [Nat.add]. rewrite list_insert_at_after. reflexivity.
Qed.

Lemma object_instance_from_res_placement_witness :
  object_instance_from_res
    (Module (robot_imports
             ++ FunctionDef "main" []
                  ([res_instance] ++ object_binding {| obj_id := "robot"; obj_type := "RobotType" |}
                     :: [While (NameConstant CTrue) [Pass] []])
                  [] (Some (NameConstant CNone))
             :: [entry_guard]))
    "box" "Box"
  = Ok (Module (robot_imports
                ++ FunctionDef "main" []
                     ([res_instance]
                      ++ object_binding {| obj_id := "robot"; obj_type := "RobotType" |}
                      :: object_binding {| obj_id := "box"; obj_type := "Box" |}
                      :: [While (NameConstant CTrue) [Pass] []])
                     [] (Some (NameConstant CNone))
                :: [entry_guard])).
Proof.
  refine (proj2 (object_instance_from_res_placement robot_imports [entry_guard] []
                   _ [] (Some (NameConstant CNone)) "box" "Box" _ _)
            [res_instance] _ [While (NameConstant CTrue) [Pass] []] _ _ _).
  - reflexivity.
  - reflexivity.
  - reflexivity.
  - reflexivity.
  - repeat constructor.
Defined.

(** X15.  [add_method_call_in_main] (lines 518-554), in a top-level
    [main] followed by statements of the represented kinds that do not
    define [main], counts [Assign] only and tests the index with [not]: it
    raises a [GenerateSourceException] when [main] has no [Assign] and also
    when the only one is its first statement; when the last [Assign] is at a
    later place the call is put right after it, with no keywords. *)
Theorem add_method_call_in_main_placement (pre post : list stmt) (fargs : list arg)
  (body : list stmt) (decs : list expr) (ret : option expr)
  (instance method : string) (args : list expr) (kwargs : list keyword)
  (Hrep : forallb represented post = true)
  (Hpost : existsb (defines "main") post = false) :
  (Forall (fun node => isinstance_Assign node = false) body ->
   add_method_call_in_main
     (Module (pre ++ FunctionDef "main" fargs body decs ret :: post))
     instance method args kwargs
   = Raise (GenerateSourceException ""))
  /\ (forall a after,
        body = a :: after ->
        isinstance_Assign a = true ->
        Forall (fun node => isinstance_Assign node = false) after ->
        add_method_call_in_main
          (Module (pre ++ FunctionDef "main" fargs body decs ret :: post))
          instance method args kwargs
        = Raise (GenerateSourceException ""))
  /\ (forall b before a after,
        body = b :: before ++ a :: after ->
        isinstance_Assign a = true ->
        Forall (fun node => isinstance_Assign node = false) after ->
        add_method_call_in_main
          (Module (pre ++ FunctionDef "main" fargs body decs ret :: post))
          instance method args kwargs
        = Ok (Module (pre ++ FunctionDef "main" fargs
                               (b :: before ++ a
                                  :: Expr (Call (Attribute (Name instance) method) args [])
                                  :: after) decs ret :: post))).
Proof.
  unfold add_method_call_in_main.
  rewrite (find_function_last "main" pre post fargs body decs ret Hpost).
  cbn [bind function_body]. split; [|split].
  - intros Hbody. rewrite (last_plain_assign_idx_loop_none body 0 None Hbody). reflexivity.
  - intros a after -> Ha Hafter.
    pose proof (last_plain_assign_idx_loop_last [] after a 0 None Ha Hafter) as Hidx.
    cbn [app] in Hidx. rewrite Hidx. reflexivity.
  - intros b before a after -> Ha Hafter.
    pose proof (last_plain_assign_idx_loop_last (b :: before) after a 0 None Ha Hafter)
      as Hidx.
    pose proof (list_insert_at_after (b :: before) after a
                  (Expr (Call (Attribute (Name instance) method) args []))) as Hins.
    cbn [app length Nat.add] in Hidx, Hins. rewrite Hidx. cbv beta iota. cbn [Nat.add].
    rewrite Hins. reflexivity.
Qed.

Lemma add_method_call_in_main_placement_witness :
  add_method_call_in_main
    (Module ([] ++ FunctionDef "main" [] (res_instance :: [Pass]) [] None :: [entry_guard]))
    "res" "start" [] []
  = Raise (GenerateSourceException "").
Proof.
  refine (proj1 (proj2 (add_method_call_in_main_placement [] [entry_guard] []
                          (res_instance :: [Pass]) [] None "res" "start" [] [] _ _))
            res_instance [Pass] _ _ _).
  - reflexivity.
  - reflexivity.
  - reflexivity.
  - reflexivity.
  - repeat constructor.
Defined.

(** ** The skeleton of the program *)

Lemma AddImportTransformer_visit_body_imports_from (m c : string) (imports : list stmt)
  (done : bool) :
  Forall (fun node => isinstance_ImportFrom node = true) imports ->
  Forall (fun node => isinstance_ImportFrom node = true)
    (AddImportTransformer_visit_body m c imports done).1
  /\ (forall m0 c0,
        existsb (imports_from m0 c0) imports = true ->
        existsb (imports_from m0 c0) (AddImportTransformer_visit_body m c imports done).1
        = true)
  /\ ((AddImportTransformer_visit_body m c imports done).2 = true ->
      done = true
      \/ existsb (imports_from m c) (AddImportTransformer_visit_body m c imports done).1
         = true).
Proof.
  intros Himp. revert done.
  induction Himp as [|node imports Hnode _ IH]; intros done.
  - simpl. split; [constructor|]. split; [discriminate | intros ->; left; reflexivity].
  - rewrite AddImportTransformer_visit_body_cons. cbn [fst snd].
    destruct node as [| | | | mo names level | | | | |]; try discriminate Hnode.
    destruct (IH (AddImportTransformer_visit m c (ImportFrom mo names level) done).2)
      as (IH1 & IH2 & IH3).
    split; [|split].
    + constructor; [|exact IH1].
      simpl. destruct (String.eqb mo m); [destruct (existsb _ names)|]; reflexivity.
    + intros m0 c0 Hin. cbn [existsb] in Hin |- *.
      apply orb_true_iff in Hin as [Hin | Hin]; apply orb_true_iff;
        [left | right; apply IH2, Hin].
      simpl. destruct (String.eqb mo m); [destruct (existsb _ names)|]; cbn [fst];
        try exact Hin.
      simpl in Hin |- *. apply andb_true_iff in Hin as [Hm Hn].
      rewrite Hm, existsb_app, Hn. reflexivity.
    + intros Hdone. cbn [existsb].
      destruct (IH3 Hdone) as [Hd | Hd]; [| right; rewrite Hd; apply orb_true_r].
      revert Hd. simpl. destruct (String.eqb mo m) eqn:Hm.
      * intros _. right. apply orb_true_iff. left.
        destruct (existsb _ names) eqn:Hn; simpl; rewrite Hm; [rewrite Hn; reflexivity|].
        rewrite existsb_alias_snoc. reflexivity.
      * simpl. intros ->. left. reflexivity.
Qed.

Lemma add_import_script_from (imports assigns : list stmt) (m c : string) :
  Forall (fun node => isinstance_ImportFrom node = true) imports ->
  Forall (fun node => simple_assign node = true) assigns ->
  exists imports',
    add_import (script imports assigns [Pass]) m c = script imports' assigns [Pass]
    /\ Forall (fun node => isinstance_ImportFrom node = true) imports'
    /\ (forall m0 c0, existsb (imports_from m0 c0) imports = true ->
                      existsb (imports_from m0 c0) imports' = true)
    /\ existsb (imports_from m c) imports' = true.
Proof.
  intros Himp Hass. unfold add_import, script. simpl module_body.
  rewrite AddImportTransformer_visit_body_app.
  destruct (AddImportTransformer_visit_body_imports_from m c imports false Himp)
    as (H1 & H2 & H3).
  destruct (AddImportTransformer_visit_body m c imports false) as [imports' d1].
  cbn [fst snd] in H1, H2, H3.
  change (AddImportTransformer_visit_body m c [main_def assigns [Pass]; entry_guard] d1)
    with (let '(child', d2) := AddImportTransformer_visit m c (main_def assigns [Pass]) d1 in
          let '(rest', d3) := AddImportTransformer_visit_body m c [entry_guard] d2 in
          (child' :: rest', d3)).
  rewrite (AddImportTransformer_visit_main m c assigns d1 Hass).
  change (AddImportTransformer_visit_body m c [entry_guard] d1) with ([entry_guard], d1).
  cbv iota beta.
  destruct d1.
  - exists imports'. split; [reflexivity|]. split; [exact H1|]. split; [exact H2|].
    destruct (H3 eq_refl) as [Hd | Hd]; [discriminate Hd | exact Hd].
  - exists (ImportFrom m [Alias c None] 0 :: imports'). split; [reflexivity|].
    split; [constructor; [reflexivity | exact H1]|]. split.
    + intros m0 c0 Hin. cbn [existsb]. rewrite (H2 m0 c0 Hin). apply orb_true_r.
    + simpl. rewrite !String.eqb_refl. reflexivity.
Qed.

Lemma scene_objects_loop_skeleton (objs : list SceneObject) (built_in_objects : gset string) :
  forall imports assigns,
    Forall (fun node => isinstance_ImportFrom node = true) imports ->
    Forall (fun node => simple_assign node = true) assigns ->
    assigns <> [] ->
    exists imports',
      scene_objects_loop (script imports assigns [Pass]) objs built_in_objects
      = Ok (script imports' (assigns ++ map object_binding objs) [Pass])
      /\ Forall (fun node => isinstance_ImportFrom node = true) imports'
      /\ (forall m0 c0, existsb (imports_from m0 c0) imports = true ->
                        existsb (imports_from m0 c0) imports' = true)
      /\ Forall (fun obj =>
                   existsb (imports_from (type_module built_in_objects (obj_type obj))
                              (obj_type obj)) imports' = true) objs.
Proof.
  induction objs as [|obj rest IH]; intros imports assigns Himp Hass Hne.
  - exists imports. simpl. rewrite app_nil_r. auto.
  - simpl.
    assert (Himport : exists imports1,
              (if decide (obj_type obj ∈ built_in_objects)
               then add_import (script imports assigns [Pass]) "arcor2.object_types" (obj_type obj)
               else add_import (script imports assigns [Pass])
                      ("object_types." ++ convert_cc (obj_type obj)) (obj_type obj))
              = script imports1 assigns [Pass]
              /\ Forall (fun node => isinstance_ImportFrom node = true) imports1
              /\ (forall m0 c0, existsb (imports_from m0 c0) imports = true ->
                                existsb (imports_from m0 c0) imports1 = true)
              /\ existsb (imports_from (type_module built_in_objects (obj_type obj))
                            (obj_type obj)) imports1 = true).
    { unfold type_module.
      destruct (decide (obj_type obj ∈ built_in_objects)); apply add_import_script_from;
        assumption. }
    destruct Himport as (imports1 & -> & Himp1 & Hmono1 & Hobj).
    rewrite (object_instance_from_res_script imports1 assigns _ _ Himp1 Hass Hne). simpl.
    destruct (IH imports1
                (assigns ++
                 [AnnAssign (Name (fix_object_name (obj_id obj))) (Name (obj_type obj))
                    (Subscript (Attribute (Name "res") "objects") (Str (obj_id obj)))]))
      as (imports' & Heq & Himp' & Hmono' & Hrest).
    + exact Himp1.
    + apply Forall_app. split; [exact Hass | repeat constructor].
    + intros H. apply app_eq_nil in H as [_ H]. discriminate H.
    + exists imports'. rewrite Heq, <- app_assoc. split; [reflexivity|].
      split; [exact Himp'|]. split; [intros m0 c0 Hin; apply Hmono', Hmono1, Hin|].
      constructor; [apply Hmono', Hobj | exact Hrest].
Qed.

Lemma script_tree_shape (scene : Scene) (built_in_objects : gset string) :
  exists imports,
    script_tree scene built_in_objects
    = Ok (script imports (res_instance :: map object_binding (objects scene)) [Pass])
    /\ Forall (fun node => isinstance_ImportFrom node = true) imports
    /\ existsb (imports_from "resources" "Resources") imports = true
    /\ Forall (fun obj =>
                 existsb (imports_from (type_module built_in_objects (obj_type obj))
                            (obj_type obj)) imports = true) (objects scene).
Proof.
  unfold script_tree.
  change (add_cls_inst (add_import empty_script_tree "resources" "Resources") "Resources" "res")
    with (Ok (script [ImportFrom "resources" [Alias "Resources" None] 0]
                [res_instance] [Pass])).
  cbn [bind].
  destruct (scene_objects_loop_skeleton (objects scene) built_in_objects
              [ImportFrom "resources" [Alias "Resources" None] 0] [res_instance])
    as (imports & Heq & Himp & Hmono & Hobjs).
  - repeat constructor.
  - repeat constructor.
  - discriminate.
  - exists imports. split; [exact Heq|]. split; [exact Himp|]. split; [|exact Hobjs].
    apply Hmono. reflexivity.
Qed.

Lemma simple_assign_bindings (objs : list SceneObject) :
  Forall (fun node => simple_assign node = true) (res_instance :: map object_binding objs).
Proof.
  constructor; [reflexivity|]. apply Forall_forall. intros node Hin.
  apply list_elem_of_In, in_map_iff in Hin as (obj & <- & _). reflexivity.
Qed.

(** X16.  The skeleton that lines 154-167 of [program_src] build never
    fails: for every scene it has [res = Resources()] followed by one
    binding per scene object, in the order of the scene, a loop that is a
    lone [pass], an import of [Resources] from [resources], and an import
    of every object's type from [arcor2.object_types] (built-in) or from
    [object_types.<snake case of the type>]. *)
Theorem script_tree_skeleton (scene : Scene) (built_in_objects : gset string) :
  exists imports,
    script_tree scene built_in_objects
    = Ok (script imports (res_instance :: map object_binding (objects scene)) [Pass])
    /\ Forall (fun node => isinstance_ImportFrom node = true) imports
    /\ existsb (imports_from "resources" "Resources") imports = true
    /\ Forall (fun obj =>
                 existsb (imports_from (type_module built_in_objects (obj_type obj))
                            (obj_type obj)) imports = true) (objects scene).
Proof. exact (script_tree_shape scene built_in_objects). Qed.

(** ** What the emitter returns and what it raises *)

Lemma action_call_inv (loop loop' : list stmt) (act : Action) :
  action_call loop act = Ok loop' ->
  is_ok (split_type (act_type act)) = true /\ loop' = loop ++ [action_stmt act].
Proof.
  unfold action_call, action_stmt.
  destruct (split_type (act_type act)) as [[obj method]|e]; simpl; [|discriminate].
  intros [= <-]. split; reflexivity.
Qed.

Lemma action_call_raises (loop : list stmt) (act : Action) (e : exn) :
  action_call loop act = Raise e -> e = ValueError.
Proof.
  unfold action_call, split_type.
  destruct (split "/" (act_type act)) as [|p1 [|p2 [|p3 ps]]]; simpl; congruence.
Qed.

Lemma cache_get_raises (cache : gmap string Action) (key : ActionIO) (e : exn) :
  cache_get cache key = Raise e -> e = KeyError.
Proof.
  destruct key as [| |i]; simpl; try congruence.
  destruct (cache !! i); congruence.
Qed.

Lemma add_logic_while_sound (cache : gmap string Action) (last_action_id : string) :
  forall (fuel : nat) (key : ActionIO) (loop loop' : list stmt),
    add_logic_while fuel cache last_action_id key loop = Some (Ok loop') ->
    exists path,
      chain cache last_action_id key path
      /\ length path <= fuel
      /\ loop' = clear_pass loop ++ map action_stmt path.
Proof.
  induction fuel as [|fuel IH]; intros key loop loop'; [discriminate|].
  simpl. destruct (cache_get cache key) as [act|e] eqn:Hget; [|discriminate].
  destruct (action_call (clear_pass loop) act) as [loop1|e] eqn:Hcall; [|discriminate].
  apply action_call_inv in Hcall as [Hsplit ->].
  destruct (String.eqb (act_id act) last_action_id) eqn:Hlast.
  - intros [= <-]. exists [act]. simpl. rewrite Hlast. repeat split; auto. lia.
  - destruct (outputs act) as [|out outs] eqn:Hout; [discriminate|].
    intros Hrest. apply IH in Hrest as (path & Hchain & Hlen & ->).
    exists (act :: path). simpl. rewrite Hlast. split; [|split].
    + split; [exact Hget|]. split; [exact Hsplit|]. exists out, outs. split; [exact Hout|].
      exact Hchain.
    + lia.
    + assert (Hexpr : exists val, action_stmt act = Expr val).
      { unfold action_stmt.
        destruct (split_type (act_type act)) as [[obj method]|e];
          [eexists; reflexivity | discriminate Hsplit]. }
      destruct Hexpr as [val Hval].
      rewrite Hval, clear_pass_snoc, <- app_assoc. reflexivity.
Qed.

Lemma add_logic_while_raises (cache : gmap string Action) (last_action_id : string) :
  forall (fuel : nat) (key : ActionIO) (loop : list stmt) (e : exn),
    add_logic_while fuel cache last_action_id key loop = Some (Raise e) ->
    e = KeyError \/ e = ValueError \/ e = IndexError.
Proof.
  induction fuel as [|fuel IH]; intros key loop e; [discriminate|].
  simpl. destruct (cache_get cache key) as [act|e1] eqn:Hget.
  - destruct (action_call (clear_pass loop) act) as [loop1|e1] eqn:Hcall.
    + destruct (String.eqb (act_id act) last_action_id); [discriminate|].
      destruct (outputs act) as [|out outs].
      * intros [= <-]. right; right; reflexivity.
      * apply IH.
    + intros [= <-]. right; left. exact (action_call_raises _ _ _ Hcall).
  - intros [= <-]. left. exact (cache_get_raises _ _ _ Hget).
Qed.

Lemma program_src_shape (fuel : nat) (project : Project) (scene : Scene)
  (built_in_objects : gset string) :
  exists imports,
    Forall (fun node => isinstance_ImportFrom node = true) imports
    /\ program_src fuel project scene built_in_objects =
       match (get_actions_cache project).1.2 with
       | None => Some (Raise (GenerateSourceException "'start' action not found."))
       | Some first_id =>
           match (get_actions_cache project).2 with
           | None => Some (Raise (GenerateSourceException "'end' action not found."))
           | Some last_id =>
               match add_logic_while fuel (get_actions_cache project).1.1 last_id
                       (ActionRef first_id) [Pass] with
               | None => None
               | Some (Raise e) => Some (Raise e)
               | Some (Ok loop') =>
                   Some (Ok (script imports
                               (res_instance :: map object_binding (objects scene)) loop'))
               end
           end
       end.
Proof.
  destruct (script_tree_shape scene built_in_objects) as (imports & Htree & Himp & _).
  exists imports. split; [exact Himp|].
  unfold program_src. rewrite Htree.
  apply add_logic_to_loop_script; [exact Himp | apply simple_assign_bindings].
Qed.

(** X17.  Whenever [program_src] returns a program, the statements of
    its loop are the calls of the actions on the walk from the first to the
    last action along [outputs[0]], in that order, after the skeleton of the
    scene; and the same program is returned with any larger bound on the
    number of turns. *)
Theorem program_src_returns_walk (fuel : nat) (project : Project) (scene : Scene)
  (built_in_objects : gset string) (tree : module) :
  program_src fuel project scene built_in_objects = Some (Ok tree) ->
  exists imports first_id last_id path,
    (get_actions_cache project).1.2 = Some first_id
    /\ (get_actions_cache project).2 = Some last_id
    /\ chain (get_actions_cache project).1.1 last_id (ActionRef first_id) path
    /\ length path <= fuel
    /\ tree = script imports (res_instance :: map object_binding (objects scene))
                (map action_stmt path)
    /\ forall fuel', length path <= fuel' ->
         program_src fuel' project scene built_in_objects = Some (Ok tree).
Proof.
  intros Hsrc.
  destruct (script_tree_shape scene built_in_objects) as (imports & Htree & Himp & _).
  assert (Hshape : forall fuel0,
             program_src fuel0 project scene built_in_objects
             = add_logic_to_loop fuel0
                 (script imports (res_instance :: map object_binding (objects scene)) [Pass])
                 project)
    by (intros fuel0; unfold program_src; rewrite Htree; reflexivity).
  rewrite Hshape,
    (add_logic_to_loop_script fuel project imports _ [Pass] Himp
       (simple_assign_bindings (objects scene))) in Hsrc.
  destruct (get_actions_cache project).1.2 as [first_id|] eqn:Hfirst; [|discriminate].
  destruct (get_actions_cache project).2 as [last_id|] eqn:Hlast; [|discriminate].
  destruct (add_logic_while fuel (get_actions_cache project).1.1 last_id (ActionRef first_id)
              [Pass]) as [[loop'|e]|] eqn:Hwhile; try discriminate.
  injection Hsrc as <-.
  apply add_logic_while_sound in Hwhile as (path & Hchain & Hlen & ->).
  exists imports, first_id, last_id, path.
  split; [reflexivity|]. split; [reflexivity|]. split; [exact Hchain|].
  split; [exact Hlen|]. split; [reflexivity|].
  intros fuel' Hfuel'.
  rewrite Hshape,
    (add_logic_to_loop_script fuel' project imports _ [Pass] Himp
       (simple_assign_bindings (objects scene))).
  rewrite Hfirst, Hlast.
  rewrite (add_logic_while_chain _ _ path (ActionRef first_id) [Pass] fuel' Hchain Hfuel').
  reflexivity.
Qed.

(** X18.  [program_src] raises nothing but "'start' action not
    found.", "'end' action not found.", [KeyError] (a link to an id that is
    not an action's), [ValueError] (a type that does not split at one
    slash) and [IndexError] (an action without outputs before the last). *)
Theorem program_src_raises_only (fuel : nat) (project : Project) (scene : Scene)
  (built_in_objects : gset string) (e : exn) :
  program_src fuel project scene built_in_objects = Some (Raise e) ->
  e = GenerateSourceException "'start' action not found."
  \/ e = GenerateSourceException "'end' action not found."
  \/ e = KeyError \/ e = ValueError \/ e = IndexError.
Proof.
  destruct (program_src_shape fuel project scene built_in_objects) as (imports & _ & ->).
  destruct (get_actions_cache project).1.2 as [first_id|]; [|intros [= <-]; auto].
  destruct (get_actions_cache project).2 as [last_id|]; [|intros [= <-]; auto].
  destruct (add_logic_while fuel (get_actions_cache project).1.1 last_id (ActionRef first_id)
              [Pass]) as [[loop'|e1]|] eqn:Hwhile; try discriminate.
  intros [= <-]. apply add_logic_while_raises in Hwhile. tauto.
Qed.

(** ** What the recoverer accepts, and what it leaves behind *)

Lemma walk_step_rejected (len_loop node_idx : nat) (cache0 : gmap string Action)
  (ids : list string) (st : walk_state) (node : stmt) :
  walk_inv len_loop cache0 ids st ->
  accepted cache0 node = false
  \/ (exists i, statement_id node = Some i /\ i ∈ ids) ->
  exists e st',
    walk_step len_loop node_idx node st = (Some e, st')
    /\ actions_cache st' = actions_cache st.
Proof.
  intros (Hfound & _ & Hlinks) Hbad. unfold walk_step.
  destruct node as [| | | | | | |val| |]; try (eexists _, _; split; reflexivity).
  simpl in Hbad.
  destruct (call_parts val) as [[[obj method] i]|e]; [|eexists _, _; split; reflexivity].
  destruct (decide (i ∈ found_actions st)) as [|Hfresh]; [eexists _, _; split; reflexivity|].
  assert (Hi : i ∉ ids).
  { intros Hin. apply Hfresh. rewrite Hfound. apply elem_of_list_to_set. exact Hin. }
  rewrite <- (proj2 Hlinks i Hi) in Hbad.
  destruct (actions_cache st !! i) as [action|]; [|eexists _, _; split; reflexivity].
  destruct (corresponds action obj method) as [[]|e]; [|eexists _, _; split; reflexivity].
  destruct Hbad as [Hbad | (i' & [= <-] & Hin)]; [discriminate Hbad | contradiction].
Qed.


(** X20.  No rollback: when the walk of [get_logic_from_source] stops at
    a statement (not a well-formed call of a known, agreeing action, or an
    action id seen before), an exception is raised and the links of the
    actions of the statements before it stay rebuilt, the last of them
    without outputs; no other action is touched. *)
Theorem recoverer_keeps_partial_links (tree : module) (project : Project)
  (pre post : list stmt) (bad : stmt) (put : list stmt -> module)
  (Hloop : main_loop_body tree = Ok (pre ++ bad :: post, put))
  (Hpre : Forall (fun node => accepted (get_actions_cache project).1.1 node = true) pre)
  (Hnd : NoDup (statement_ids pre))
  (Hbad : accepted (get_actions_cache project).1.1 bad = false
          \/ exists i, statement_id bad = Some i /\ i ∈ statement_ids pre) :
  (exists e, (get_logic_from_source tree project).1 = Some e)
  /\ links_rebuilt (statement_ids pre) false (get_actions_cache project).1.1
       (get_logic_from_source tree project).2.
Proof.
  rewrite (get_logic_from_source_unfold tree project _ put Hloop).
  pose proof (get_actions_cache_keyed project) as Hkeyed.
  set (cache0 := (get_actions_cache project).1.1) in *.
  set (len_loop := length (pre ++ bad :: post)).
  assert (Hlen : length pre < len_loop)
    by (unfold len_loop; rewrite length_app; simpl; lia).
  destruct (walk_accepted len_loop cache0 Hkeyed pre Hpre Hnd ltac:(lia))
    as (st & Hwalk & Hinv).
  rewrite walk_app, Hwalk. cbn [walk].
  destruct (walk_step_rejected len_loop (0 + length pre) cache0 _ st bad Hinv Hbad)
    as (e & st' & -> & Hcache).
  cbn [fst snd]. split; [exists e; reflexivity|].
  rewrite Hcache. destruct Hinv as (_ & _ & Hlinks).
  rewrite (statement_ids_accepted_length cache0 pre Hpre) in Hlinks.
  replace (Nat.eqb (length pre) len_loop) with false in Hlinks
    by (symmetry; apply Nat.eqb_neq; lia).
  exact Hlinks.
Qed.

(** ** The recovered links as the emitter reads them *)

Lemma accepted_ids_split (cache0 : gmap string Action) (loop : list stmt) :
  Forall (fun node => accepted cache0 node = true) loop ->
  Forall (fun i => exists a, cache0 !! i = Some a
                             /\ is_ok (split_type (act_type a)) = true)
    (statement_ids loop).
Proof.
  induction 1 as [|node rest Hnode _ IH]; [constructor|].
  apply accepted_inv in Hnode
    as (val & obj & method & i & action & _ & _ & Hi & Hcorr & Hid).
  rewrite statement_ids_cons, Hid. cbn [option_rect from_option]. constructor; [|exact IH].
  exists action. split; [exact Hi|].
  unfold corresponds in Hcorr.
  destruct (split_type (act_type action)) as [[o m]|e]; [reflexivity | discriminate Hcorr].
Qed.

Lemma rebuilt_links_chain (cache0 cache : gmap string Action) (ids : list string)
  (last_id : string) :
  keyed_by_id cache0 ->
  NoDup ids ->
  last ids = Some last_id ->
  Forall (fun i => exists a, cache0 !! i = Some a
                             /\ is_ok (split_type (act_type a)) = true) ids ->
  links_rebuilt ids true cache0 cache ->
  forall after before i,
    ids = before ++ i :: after ->
    exists path,
      chain cache last_id (ActionRef i) path
      /\ map act_id path = i :: after.
Proof.
  intros Hkeyed Hnd Hlast Hsplit [Hlinks _].
  induction after as [|n after IH]; intros before i Hids.
  - assert (Hj : ids !! length before = Some i)
      by (rewrite Hids; apply list_lookup_middle; reflexivity).
    destruct (Hlinks _ _ Hj) as (a & Ha & Hc).
    assert (Hi : last_id = i).
    { rewrite Hids in Hlast. rewrite last_snoc in Hlast. congruence. }
    exists [set_outputs (set_inputs a (expected_inputs ids (length before)))
              (expected_outputs ids true (length before))].
    split; [|simpl; rewrite (Hkeyed _ _ Ha); reflexivity].
    simpl. rewrite Hc, (Hkeyed _ _ Ha), Hi, String.eqb_refl.
    split; [reflexivity|]. split; [|reflexivity].
    assert (Hin : i ∈ ids) by (rewrite Hids; apply list_elem_of_In, in_elt).
    destruct (proj1 (Forall_forall _ _) Hsplit i Hin) as (a' & Ha' & Hok). congruence.
  - assert (Hj : ids !! length before = Some i)
      by (rewrite Hids; apply list_lookup_middle; reflexivity).
    assert (Hnext : ids !! S (length before) = Some n).
    { rewrite Hids.
      replace (before ++ i :: n :: after) with ((before ++ [i]) ++ n :: after)
        by (rewrite <- app_assoc; reflexivity).
      apply list_lookup_middle. rewrite length_app. simpl. lia. }
    destruct (Hlinks _ _ Hj) as (a & Ha & Hc).
    destruct (IH (before ++ [i]) n) as (path & Hchain & Hpath).
    { rewrite Hids, <- app_assoc. reflexivity. }
    exists (set_outputs (set_inputs a (expected_inputs ids (length before)))
              (expected_outputs ids true (length before)) :: path).
    split; [|simpl; rewrite (Hkeyed _ _ Ha), Hpath; reflexivity].
    simpl. rewrite Hc, (Hkeyed _ _ Ha).
    split; [reflexivity|]. split.
    + assert (Hin : i ∈ ids) by (rewrite Hids; apply list_elem_of_In, in_elt).
      destruct (proj1 (Forall_forall _ _) Hsplit i Hin) as (a' & Ha' & Hok). congruence.
    + destruct (String.eqb i last_id) eqn:Heq.
      * exfalso. apply String.eqb_eq in Heq. subst last_id.
        rewrite Hids in Hnd, Hlast.
        apply NoDup_app in Hnd as (_ & _ & Hnd).
        apply NoDup_cons in Hnd as [Hnotin _].
        apply Hnotin.
        assert (Hl : last (n :: after) = Some i).
        { rewrite <- Hlast. symmetry.
          replace (before ++ i :: n :: after) with ((before ++ [i]) ++ n :: after)
            by (rewrite <- app_assoc; reflexivity).
          apply last_app_cons. }
        apply last_Some in Hl as [l' ->]. apply list_elem_of_In, in_elt.
      * unfold expected_outputs. rewrite Hnext. exists (ActionRef n), [].
        split; [reflexivity | exact Hchain].
Qed.

(** X21.  The links that [get_logic_from_source] rebuilds are the ones
    the emitter follows: from the action of the first statement to the
    action of the last, the walk of [add_logic_to_loop] over the recovered
    cache visits the actions in statement order and ends. *)
Theorem recovered_links_walkable (tree : module) (project : Project) (loop : list stmt)
  (put : list stmt -> module) (cache' : gmap string Action) (first_id last_id : string)
  (Hloop : main_loop_body tree = Ok (loop, put))
  (Hok : get_logic_from_source tree project = (None, cache'))
  (Hfirst : head (statement_ids loop) = Some first_id)
  (Hlast : last (statement_ids loop) = Some last_id) :
  exists path,
    chain cache' last_id (ActionRef first_id) path
    /\ map act_id path = statement_ids loop
    /\ forall fuel, length loop <= fuel ->
         add_logic_while fuel cache' last_id (ActionRef first_id) [Pass]
         = Some (Ok (map action_stmt path)).
Proof.
  pose proof (get_actions_cache_keyed project) as Hkeyed.
  rewrite (get_logic_from_source_unfold tree project loop put Hloop) in Hok.
  set (cache0 := (get_actions_cache project).1.1) in *.
  destruct (walk (length loop) 0 loop (mk_state ∅ None cache0)) as [e st] eqn:Hwalk.
  injection Hok as -> <-.
  destruct (walk_ok_inv (length loop) cache0 Hkeyed loop st (le_n _) Hwalk) as [Hall Hnd].
  destruct (walk_accepted (length loop) cache0 Hkeyed loop Hall Hnd (le_n _))
    as (st' & Hwalk' & _ & _ & Hlinks).
  rewrite Hwalk in Hwalk'. injection Hwalk' as <-.
  rewrite (statement_ids_accepted_length cache0 loop Hall), Nat.eqb_refl in Hlinks.
  destruct (statement_ids loop) as [|i after] eqn:Hids; [discriminate Hfirst|].
  injection Hfirst as ->.
  destruct (rebuilt_links_chain cache0 (actions_cache st) (first_id :: after) last_id
              Hkeyed Hnd Hlast
              ltac:(rewrite <- Hids; apply accepted_ids_split; exact Hall)
              Hlinks after [] first_id eq_refl)
    as (path & Hchain & Hpath).
  exists path. split; [exact Hchain|]. split; [exact Hpath|].
  intros fuel Hfuel.
  rewrite (add_logic_while_chain _ _ path (ActionRef first_id) [Pass] fuel Hchain).
  - reflexivity.
  - rewrite <- (length_map act_id path), Hpath, <- Hids.
    rewrite (statement_ids_accepted_length cache0 loop Hall). exact Hfuel.
Qed.

(** ** The inspector's results *)

Lemma methods_loop_names (attr : gmap string ActionMetadata) (body : list stmt) :
  forall ret actions,
    methods_loop attr ret body = Ok actions ->
    map action_name actions = map action_name ret ++ omap marked_name body
    /\ (Forall (fun oa => attr !! action_name oa = Some (meta oa)) ret ->
        Forall (fun oa => attr !! action_name oa = Some (meta oa)) actions).
Proof.
  induction body as [|node rest IH]; intros ret actions.
  - simpl. intros [= <-]. rewrite app_nil_r. auto.
  - simpl. destruct (method_step attr ret node) as [ret'|e] eqn:Hstep; [|discriminate].
    simpl. intros Hrest. destruct (IH _ _ Hrest) as [Hnames Hmeta].
    assert (Hret' : map action_name ret'
                    = map action_name ret ++ from_option (fun n => [n]) [] (marked_name node)
                      /\ (Forall (fun oa => attr !! action_name oa = Some (meta oa)) ret ->
                          Forall (fun oa => attr !! action_name oa = Some (meta oa)) ret')).
    { unfold method_step in Hstep.
      destruct node as [n args fbody decs rt| | | | | | | | |];
        try (injection Hstep as <-; simpl; rewrite app_nil_r; auto).
      simpl. destruct (decorator_loop decs) as [[|]|e]; simpl in Hstep; try discriminate Hstep.
      - destruct (attr !! n) as [m|] eqn:Hn; [|discriminate Hstep].
        destruct (action_args_loop n [] args) as [oa_args|e]; [|discriminate Hstep].
        injection Hstep as <-. rewrite map_app. split; [reflexivity|].
        intros Hret. apply Forall_app. split; [exact Hret|].
        constructor; [exact Hn | constructor].
      - destruct (attr !! n); [discriminate Hstep|].
        injection Hstep as <-. simpl. rewrite app_nil_r. auto. }
    destruct Hret' as [Hnames' Hmeta']. split.
    + rewrite Hnames, Hnames', <- app_assoc. f_equal.
      destruct (marked_name node); reflexivity.
    + intros Hret. apply Hmeta, Hmeta', Hret.
Qed.

Lemma action_attr_loop_app (attr : gmap string ActionMetadata) (pre post : list stmt) :
  action_attr_loop attr (pre ++ post)
  = let* attr' := action_attr_loop attr pre in action_attr_loop attr' post.
Proof.
  revert attr. induction pre as [|node pre IH]; intros attr; simpl; [reflexivity|].
  destruct (action_attr_step attr node) as [attr'|e]; simpl; [apply IH | reflexivity].
Qed.

(** A statement of the class body that is neither an assignment nor a
    [FunctionDef] (an [async def] among them) is passed by in both loops: the
    result is that of the class without it. *)
Lemma get_object_actions_skips_other (cname : string) (bases : list expr)
  (pre post : list stmt) (decs : list expr) :
  get_object_actions (Module [ClassDef cname bases (pre ++ OtherStmt :: post) decs])
  = get_object_actions (Module [ClassDef cname bases (pre ++ post) decs]).
Proof.
  unfold get_object_actions, object_cls_def. cbn [module_body object_cls_def_loop
    isinstance_ClassDef bind cls_body].
  rewrite !action_attr_loop_app. cbn [action_attr_loop action_attr_step bind].
  destruct (action_attr_loop ∅ pre) as [attr1|e]; cbn [bind]; [|reflexivity].
  destruct (action_attr_loop attr1 post) as [attr|e]; cbn [bind]; [|reflexivity].
  rewrite !methods_loop_app. cbn [methods_loop method_step bind].
  reflexivity.
Qed.

(** X22.  When [get_object_actions] (lines 30-92) returns, its list has
    one action per [FunctionDef] of the class body (a method written with
    [def], directly in the class) that has the [@action] decorator, in the
    order of the class body, under the method's name, with the metadata that
    the first loop stored for that name.  Every other statement of the class
    body gives no action: a method written with [async def] is not a
    [FunctionDef] and is passed by at line 64, decorated or not. *)
Theorem get_object_actions_lists_marked (source : module) (name : string)
  (bases : list expr) (body : list stmt) (decs : list expr) (actions : list ObjectAction)
  (Hcls : object_cls_def source = Ok (ClassDef name bases body decs))
  (Hactions : get_object_actions source = Ok actions) :
  map action_name actions = omap marked_name body
  /\ exists attr,
       action_attr_loop ∅ body = Ok attr
       /\ Forall (fun oa => attr !! action_name oa = Some (meta oa)) actions.
Proof.
  rewrite (get_object_actions_unfold source name bases body decs Hcls) in Hactions.
  destruct (action_attr_loop ∅ body) as [attr|e]; [|discriminate Hactions].
  simpl in Hactions. apply methods_loop_names in Hactions as [Hnames Hmeta].
  split; [exact Hnames|]. exists attr. split; [reflexivity|]. apply Hmeta. constructor.
Qed.

Lemma description_loop_keeps (body : list stmt) :
  forall obj info,
    description_loop body obj = Ok info ->
    type_name info = type_name obj /\ base info = base obj.
Proof.
  induction body as [|node rest IH]; intros obj info.
  - simpl. intros [= <-]. auto.
  - simpl.
    destruct node as [| | | | |[|[id| | | | | | | |] [|t2 ts]] value| | | |]; try apply IH.
    destruct (String.eqb id "__DESCRIPTION__"); [|apply IH].
    destruct (get_s value) as [s|e]; [|discriminate].
    simpl. intros Hrest. apply IH in Hrest. exact Hrest.
Qed.

Lemma description_loop_none (body : list stmt) (obj : ObjectType) :
  Forall (fun node => describes node = false) body ->
  description_loop body obj = Ok obj.
Proof.
  induction 1 as [|node rest Hnode _ IH]; [reflexivity|].
  simpl.
  destruct node as [| | | | |[|[id| | | | | | | |] [|t2 ts]] value| | | |]; try exact IH.
  simpl in Hnode. rewrite Hnode. exact IH.
Qed.

Lemma description_loop_last (pre post : list stmt) (value : expr) :
  Forall (fun node => describes node = false) post ->
  forall obj info,
    description_loop (pre ++ Assign [Name "__DESCRIPTION__"] value :: post) obj = Ok info ->
    exists lit, get_s value = Ok lit /\ description info = Some lit.
Proof.
  intros Hpost. induction pre as [|node pre IH]; intros obj info.
  - simpl. destruct (get_s value) as [lit|e]; [|discriminate]. simpl.
    rewrite (description_loop_none post _ Hpost). intros [= <-]. eauto.
  - cbn [app description_loop].
    destruct node as [| | | | |[|[id| | | | | | | |] [|t2 ts]] val| | | |]; try apply IH.
    destruct (String.eqb id "__DESCRIPTION__"); [|apply IH].
    destruct (get_s val) as [s|e]; [|discriminate]. apply IH.
Qed.

Lemma get_s_literal (value : expr) (lit : literal) :
  get_s value = Ok lit ->
  (exists s, value = Str s /\ lit = LStr s) \/ (exists s, value = Bytes s /\ lit = LBytes s).
Proof.
  destruct value; try discriminate; intros [= <-]; [left | right]; eauto.
Qed.

(** X23.  [object_type_info] (lines 106-124): more than one base class
    raises "Only one base class is supported!"; a result carries the class
    name, the id of the single base if there is one, and as description the
    value of the last assignment to [__DESCRIPTION__], which is then a string
    or a bytes literal (the two nodes with a field [s]), none if there is no
    such assignment; with one base that is a name and one description that
    is a string, the result is exactly that record. *)
Theorem object_type_info_reads_class (source : module) (name : string)
  (bases : list expr) (body : list stmt) (decs : list expr)
  (Hcls : object_cls_def source = Ok (ClassDef name bases body decs)) :
  (1 < length bases ->
   object_type_info source
   = Raise (GenerateSourceException "Only one base class is supported!"))
  /\ (forall info,
        object_type_info source = Ok info ->
        type_name info = name
        /\ base info = match bases with [Name b] => Some b | _ => None end
        /\ (Forall (fun node => describes node = false) body -> description info = None)
        /\ (forall pre value post,
              body = pre ++ Assign [Name "__DESCRIPTION__"] value :: post ->
              Forall (fun node => describes node = false) post ->
              (exists s, value = Str s /\ description info = Some (LStr s))
              \/ (exists s, value = Bytes s /\ description info = Some (LBytes s))))
  /\ (forall pre s post b,
        body = pre ++ Assign [Name "__DESCRIPTION__"] (Str s) :: post ->
        Forall (fun node => describes node = false) pre ->
        Forall (fun node => describes node = false) post ->
        bases = [Name b] ->
        object_type_info source
        = Ok {| type_name := name; base := Some b; description := Some (LStr s) |}).
Proof.
  unfold object_type_info. rewrite Hcls. cbn [bind]. split; [|split].
  - intros Hlen. apply Nat.ltb_lt in Hlen. rewrite Hlen. reflexivity.
  - intros info. destruct (Nat.ltb 1 (length bases)) eqn:Hlen; [discriminate|].
    apply Nat.ltb_ge in Hlen.
    assert (Hrest : forall b,
               description_loop body {| type_name := name; base := b; description := None |}
               = Ok info ->
               type_name info = name /\ base info = b
               /\ (Forall (fun node => describes node = false) body ->
                   description info = None)
               /\ (forall pre value post,
                     body = pre ++ Assign [Name "__DESCRIPTION__"] value :: post ->
                     Forall (fun node => describes node = false) post ->
                     (exists s, value = Str s /\ description info = Some (LStr s))
                     \/ (exists s, value = Bytes s
                                   /\ description info = Some (LBytes s)))).
    { intros b Hinfo.
      destruct (description_loop_keeps _ _ _ Hinfo) as [Hname Hbase].
      split; [exact Hname|]. split; [exact Hbase|]. split.
      - intros Hnone. rewrite (description_loop_none body _ Hnone) in Hinfo.
        injection Hinfo as <-. reflexivity.
      - intros pre value post -> Hpost.
        destruct (description_loop_last pre post value Hpost _ _ Hinfo)
          as (lit & Hlit & Hdesc).
        destruct (get_s_literal value lit Hlit) as [(s & -> & ->) | (s & -> & ->)];
          [left | right]; eauto. }
    destruct bases as [|b0 [|b1 bases]]; [| |simpl in Hlen; lia].
    + cbn [bind]. apply Hrest.
    + destruct b0 as [b| | | | | | | |]; try discriminate.
      cbn [bind get_id]. apply Hrest.
  - intros pre s post b -> Hpre Hpost ->. cbn [length Nat.ltb Nat.leb bind get_id].
    assert (Happ : forall obj,
               description_loop (pre ++ Assign [Name "__DESCRIPTION__"] (Str s) :: post) obj
               = Ok {| type_name := type_name obj; base := base obj;
                       description := Some (LStr s) |}).
    { clear Hcls. induction Hpre as [|node pre Hnode _ IH]; intros obj.
      - simpl. apply description_loop_none, Hpost.
      - cbn [app description_loop].
        destruct node as [| | | | |[|[id| | | | | | | |] [|t2 ts]] val| | | |]; try apply IH.
        simpl in Hnode. rewrite Hnode. apply IH. }
    apply Happ.
Qed.

(** ** The main loop *)

Lemma first_while_none (todo seen : list stmt) (put : list stmt -> module) :
  Forall (fun node => isinstance_While node = false) todo ->
  first_while seen todo put = Raise (GenerateSourceException "Main loop not found.").
Proof.
  intros Htodo. revert seen.
  induction Htodo as [|node todo Hnode _ IH]; intros seen; [reflexivity|].
  simpl. destruct node; try discriminate Hnode; apply IH.
Qed.

Lemma first_while_first (before after : list stmt) (test : expr) (loop orelse : list stmt)
  (seen : list stmt) (put : list stmt -> module) :
  Forall (fun node => isinstance_While node = false) before ->
  exists put',
    first_while seen (before ++ While test loop orelse :: after) put = Ok (loop, put')
    /\ forall loop', put' loop' = put ((seen ++ before) ++ While test loop' orelse :: after).
Proof.
  intros Hbefore. revert seen.
  induction Hbefore as [|node before Hnode _ IH]; intros seen.
  - simpl. eexists. split; [reflexivity|]. intros loop'. rewrite app_nil_r. reflexivity.
  - destruct (IH (seen ++ [node])) as (put' & Heq & Hput).
    exists put'. split.
    + simpl. destruct node; try discriminate Hnode; exact Heq.
    + intros loop'. rewrite Hput, <- !app_assoc. reflexivity.
Qed.

(** X24.  [main_loop_body] (lines 314-322), for a top-level [main]
    followed by statements of the represented kinds that do not define
    [main], looks for a [While] among the statements of [main] only, not
    inside them: without one it raises "Main loop not found."; otherwise it
    returns the body of the first, and the reference replaces that body and
    nothing else. *)
Theorem main_loop_body_first_while (pre post : list stmt) (args : list arg)
  (body : list stmt) (decs : list expr) (ret : option expr)
  (Hrep : forallb represented post = true)
  (Hpost : existsb (defines "main") post = false) :
  (Forall (fun node => isinstance_While node = false) body ->
   main_loop_body (Module (pre ++ FunctionDef "main" args body decs ret :: post))
   = Raise (GenerateSourceException "Main loop not found."))
  /\ (forall before test loop orelse after,
        body = before ++ While test loop orelse :: after ->
        Forall (fun node => isinstance_While node = false) before ->
        exists put,
          main_loop_body (Module (pre ++ FunctionDef "main" args body decs ret :: post))
          = Ok (loop, put)
          /\ forall loop',
               put loop'
               = Module (pre ++ FunctionDef "main" args
                                  (before ++ While test loop' orelse :: after) decs ret
                             :: post)).
Proof.
  unfold main_loop_body.
  rewrite (find_function_last "main" pre post args body decs ret Hpost).
  cbn [bind function_body]. split.
  - intros Hbody. apply first_while_none, Hbody.
  - intros before test loop orelse after -> Hbefore.
    destruct (first_while_first before after test loop orelse []
                (fun body' => Module (pre ++ FunctionDef "main" args body' decs ret :: post))
                Hbefore) as (put & Heq & Hput).
    exists put. split; [exact Heq|]. intros loop'. rewrite Hput. reflexivity.
Qed.

Lemma main_loop_body_first_while_witness :
  main_loop_body
    (Module ([] ++ FunctionDef "main" []
                     [If (NameConstant CTrue) [While (NameConstant CTrue) [Pass] []] []]
                     [] None :: [entry_guard]))
  = Raise (GenerateSourceException "Main loop not found.").
Proof.
  refine (proj1 (main_loop_body_first_while [] [entry_guard] []
                   [If (NameConstant CTrue) [While (NameConstant CTrue) [Pass] []] []]
                   [] None _ _) _).
  - reflexivity.
  - reflexivity.
  - repeat constructor.
Defined.

(** ** [add_cls_inst] without a [main] *)

Lemma FindClsInst_visit_body_no_main_from (cls name : string) (todo : list stmt) :
  Forall (fun node => defines "main" node = false ->
            forall found, FindClsInst_visit cls name node found = Ok found) todo ->
  existsb (defines "main") todo = false ->
  forall found, FindClsInst_visit_body cls name todo found = Ok found.
Proof.
  induction 1 as [|child rest Hchild _ IH]; intros Hnone found; [reflexivity|].
  simpl in Hnone. apply orb_false_iff in Hnone as [Hc Hr].
  simpl. rewrite (Hchild Hc). simpl. apply IH, Hr.
Qed.

Lemma FindClsInst_visit_no_main (cls name : string) (node : stmt) :
  defines "main" node = false ->
  forall found, FindClsInst_visit cls name node found = Ok found.
Proof.
  induction node as [n args body decs ret IHb | n bases body decs IHb
                    | test body orelse IHb IHo | test body orelse IHb IHo
                    | | | | | | ] using stmt_nested_ind;
    intros Hnone found; try reflexivity.
  - simpl in Hnone. apply orb_false_iff in Hnone as [Hn Hb].
    rewrite FindClsInst_visit_FunctionDef, Hn. cbn [bind].
    destruct found; [reflexivity|].
    apply (FindClsInst_visit_body_no_main_from cls name body IHb Hb).
  - simpl in Hnone. rewrite FindClsInst_visit_ClassDef.
    apply (FindClsInst_visit_body_no_main_from cls name body IHb Hnone).
  - simpl in Hnone. apply orb_false_iff in Hnone as [Hb Ho].
    rewrite FindClsInst_visit_While,
      (FindClsInst_visit_body_no_main_from cls name body IHb Hb). cbn [bind].
    apply (FindClsInst_visit_body_no_main_from cls name orelse IHo Ho).
  - simpl in Hnone. apply orb_false_iff in Hnone as [Hb Ho].
    rewrite FindClsInst_visit_If,
      (FindClsInst_visit_body_no_main_from cls name body IHb Hb). cbn [bind].
    apply (FindClsInst_visit_body_no_main_from cls name orelse IHo Ho).
Qed.

Lemma AddClsInst_visit_map_no_main_from (cls name : string) (todo : list stmt) :
  Forall (fun node => defines "main" node = false ->
            AddClsInst_visit cls name node = node) todo ->
  existsb (defines "main") todo = false ->
  map (AddClsInst_visit cls name) todo = todo.
Proof.
  induction 1 as [|child rest Hchild _ IH]; intros Hnone; [reflexivity|].
  simpl in Hnone. apply orb_false_iff in Hnone as [Hc Hr].
  simpl. rewrite (Hchild Hc), (IH Hr). reflexivity.
Qed.

Lemma AddClsInst_visit_no_main (cls name : string) (node : stmt) :
  defines "main" node = false -> AddClsInst_visit cls name node = node.
Proof.
  induction node as [n args body decs ret IHb | n bases body decs IHb
                    | test body orelse IHb IHo | test body orelse IHb IHo
                    | | | | | | ] using stmt_nested_ind;
    intros Hnone; try reflexivity.
  - simpl in Hnone. apply orb_false_iff in Hnone as [Hn Hb]. simpl. rewrite Hn. reflexivity.
  - simpl in Hnone |- *.
    rewrite (AddClsInst_visit_map_no_main_from cls name body IHb Hnone). reflexivity.
  - simpl in Hnone |- *. apply orb_false_iff in Hnone as [Hb Ho].
    rewrite (AddClsInst_visit_map_no_main_from cls name body IHb Hb),
      (AddClsInst_visit_map_no_main_from cls name orelse IHo Ho). reflexivity.
  - simpl in Hnone |- *. apply orb_false_iff in Hnone as [Hb Ho].
    rewrite (AddClsInst_visit_map_no_main_from cls name body IHb Hb),
      (AddClsInst_visit_map_no_main_from cls name orelse IHo Ho). reflexivity.
Qed.

(** X25.  On a tree of the represented statement kinds that imports the
    class and defines no [main] at any depth, the call
    [add_cls_inst(tree, cls, name)] returns without an exception and without
    adding the instance, where [find_function] raises "Function main not
    found.". *)
Theorem add_cls_inst_without_main (tree : module) (cls name : string)
  (Hrep : forallb represented (module_body tree) = true)
  (Hnone : existsb (defines "main") (module_body tree) = false)
  (Himp : fold_left (fun f child => FindImport_visit cls child f) (module_body tree) false
          = true) :
  add_cls_inst tree cls name = Ok tree
  /\ find_function "main" tree
     = Raise (GenerateSourceException "Function main not found.").
Proof.
  split.
  - unfold add_cls_inst. rewrite Himp. cbn [negb].
    rewrite (FindClsInst_visit_body_no_main_from cls name (module_body tree)).
    + cbn [bind]. rewrite (AddClsInst_visit_map_no_main_from cls name (module_body tree)).
      * destruct tree. reflexivity.
      * apply Forall_forall. intros node _. apply AddClsInst_visit_no_main.
      * exact Hnone.
    + apply Forall_forall. intros node _. apply FindClsInst_visit_no_main.
    + exact Hnone.
  - unfold find_function. rewrite FindFunction_visit_body_list.
    rewrite (FindFunction_visit_body_skips "main" (module_body tree) Hnone). reflexivity.
Qed.

Lemma add_cls_inst_without_main_witness :
  add_cls_inst (Module robot_imports) "Resources" "res" = Ok (Module robot_imports)
  /\ find_function "main" (Module robot_imports)
     = Raise (GenerateSourceException "Function main not found.").
Proof.
  apply (add_cls_inst_without_main (Module robot_imports) "Resources" "res");
    reflexivity.
Defined.

(** ** Instances *)

Lemma add_cls_inst_errors_witness :
  GenerateSourceException "Class 'Resources' not imported!"
  = GenerateSourceException ("Class '" ++ "Resources" ++ "' not imported!")
  \/ cls_inst_error "res" (GenerateSourceException "Class 'Resources' not imported!").
Proof.
  apply (add_cls_inst_errors empty_script_tree "Resources" "res"). reflexivity.
Defined.

Lemma program_src_returns_walk_witness :
  exists imports first_id last_id path,
    (get_actions_cache two_step_project).1.2 = Some first_id
    /\ (get_actions_cache two_step_project).2 = Some last_id
    /\ chain (get_actions_cache two_step_project).1.1 last_id (ActionRef first_id) path
    /\ length path <= 2
    /\ script robot_imports robot_assigns
         [call_stmt "robot" "move_to" "move1"; call_stmt "robot" "move_to" "act2"]
       = script imports (res_instance :: map object_binding (objects robot_scene))
           (map action_stmt path)
    /\ forall fuel', length path <= fuel' ->
         program_src fuel' two_step_project robot_scene ∅
         = Some (Ok (script robot_imports robot_assigns
                       [call_stmt "robot" "move_to" "move1";
                        call_stmt "robot" "move_to" "act2"])).
Proof.
  apply (program_src_returns_walk 2 two_step_project robot_scene ∅).
  vm_compute. reflexivity.
Defined.

Lemma program_src_raises_only_witness :
  GenerateSourceException "'end' action not found."
  = GenerateSourceException "'start' action not found."
  \/ GenerateSourceException "'end' action not found."
     = GenerateSourceException "'end' action not found."
  \/ GenerateSourceException "'end' action not found." = KeyError
  \/ GenerateSourceException "'end' action not found." = ValueError
  \/ GenerateSourceException "'end' action not found." = IndexError.
Proof.
  apply (program_src_raises_only 1 no_last_project robot_scene ∅).
  vm_compute. reflexivity.
Defined.


Lemma recoverer_keeps_partial_links_witness :
  (exists e, (get_logic_from_source move1_again two_step_project).1 = Some e)
  /\ links_rebuilt
       (statement_ids [call_stmt "robot" "move_to" "move1"; call_stmt "robot" "move_to" "act2"])
       false (get_actions_cache two_step_project).1.1
       (get_logic_from_source move1_again two_step_project).2.
Proof.
  apply (recoverer_keeps_partial_links move1_again two_step_project
           [call_stmt "robot" "move_to" "move1"; call_stmt "robot" "move_to" "act2"]
           [] (call_stmt "robot" "move_to" "move1")
           (fun l => script robot_imports robot_assigns l)).
  - reflexivity.
  - repeat constructor.
  - decide_NoDup.
  - right. exists "move1". split; [reflexivity|]. left.
Defined.

Lemma recovered_links_walkable_witness :
  exists path,
    chain (get_logic_from_source stale_link_program stale_link_project).2 "place"
      (ActionRef "pick") path
    /\ map act_id path
       = statement_ids
           [call_stmt "robot" "move_to" "pick"; call_stmt "robot" "move_to" "carry";
            call_stmt "robot" "move_to" "place"]
    /\ forall fuel,
         length [call_stmt "robot" "move_to" "pick"; call_stmt "robot" "move_to" "carry";
                 call_stmt "robot" "move_to" "place"] <= fuel ->
         add_logic_while fuel (get_logic_from_source stale_link_program stale_link_project).2
           "place" (ActionRef "pick") [Pass]
         = Some (Ok (map action_stmt path)).
Proof.
  apply (recovered_links_walkable stale_link_program stale_link_project
           [call_stmt "robot" "move_to" "pick"; call_stmt "robot" "move_to" "carry";
            call_stmt "robot" "move_to" "place"]
           (fun l => script robot_imports robot_assigns l)).
  - reflexivity.
  - vm_compute. reflexivity.
  - reflexivity.
  - reflexivity.
Defined.

Lemma get_object_actions_lists_marked_witness :
  map action_name [move_to_action] = omap marked_name robot_body
  /\ exists attr,
       action_attr_loop ∅ robot_body = Ok attr
       /\ Forall (fun oa => attr !! action_name oa = Some (meta oa)) [move_to_action].
Proof.
  apply (get_object_actions_lists_marked robot_source "Robot" [Name "Generic"] robot_body []).
  - reflexivity.
  - vm_compute. reflexivity.
Defined.

Lemma object_type_info_reads_class_witness :
  exists info,
    object_type_info robot_source = Ok info
    /\ type_name info = "Robot"
    /\ base info = Some "Generic"
    /\ description info = None.
Proof.
  eexists. split; [reflexivity|].
  destruct (proj1 (proj2 (object_type_info_reads_class robot_source "Robot" [Name "Generic"]
                            robot_body [] eq_refl)) _ eq_refl) as (Hname & Hbase & Hnone & _).
  split; [exact Hname|]. split; [exact Hbase|]. apply Hnone. repeat constructor.
Defined.

(** * The names of the object variables

    ** The walk of the emitter in a cache keyed by id *)










